(** * Library management system: a shallow embedding of [library.c]

    The C program keeps three global structures: a chained hash table of
    [Book] records keyed by ISBN, an unbalanced binary search tree of
    pointers to those records ordered by title, and a singly linked list of
    [User] records.  This file embeds them as follows.

    - A [Book] struct lives at a heap address ([addr]).  A hash chain is the
      list of the nodes met by following [next], each node being the pair of
      its address and its contents; the table is the list of its 101 chains.
      A [Book *] into a chain is the position of the node in that chain.
    - A [TreeNode] holds the address of a book, not a copy: reading through
      it looks the address up among the live nodes of the table, and finds
      nothing once the book has been freed.  Such a read has no defined
      result in C; from then on the model keeps no value for the title index
      and goes on with the table and the users, which the read does not
      write.
    - The linked list of users is a list of records, head first.  The array
      [borrowed_books] with its count is the list of its live entries.
    - A C string is the string of its characters before the NUL.
    - [int] values are integers in [Z]; increments wrap to 32 bits.
    - [malloc] is taken to succeed; the address it returns for a [Book] is an
      argument of the operation that allocates.
    - What the program prints is kept as the kind of message ([Msg]) or, for
      a report, as the list of the records shown. *)

From Stdlib Require Import ZArith Lia List String Ascii Permutation Sorted.
From stdpp Require Import base tactics option list strings sorting.

Local Open Scope string_scope.
Local Open Scope list_scope.
Local Open Scope Z_scope.

(** ** Constants of the program *)

Definition MAX_ISBN_LENGTH : nat := 20.
Definition MAX_TITLE_LENGTH : nat := 100.
Definition MAX_AUTHOR_LENGTH : nat := 50.
Definition MAX_GENRE_LENGTH : nat := 30.
Definition MAX_NAME_LENGTH : nat := 50.
Definition HASH_TABLE_SIZE : nat := 101.
Definition MAX_BOOKS : nat := 500.
Definition MAX_BORROWED : nat := 10.

(** ** Machine integers *)

Definition INT_MIN : Z := - 2 ^ 31.
Definition INT_MAX : Z := 2 ^ 31 - 1.

(** The value an [int] computation keeps: its two's complement residue. *)
Definition wrap_int (z : Z) : Z := (z + 2 ^ 31) mod 2 ^ 32 - 2 ^ 31.

Definition in_int (z : Z) : Prop := INT_MIN <= z <= INT_MAX.

(** ** Data model *)

Definition addr := nat.

Record Book := mkBook {
  isbn : string;
  title : string;
  author : string;
  genre : string;
  available : Z;
  borrow_count : Z
}.

(** [user_id] and [user_name] are the fields [id] and [name] of the C
    struct. [borrowed_books] is the live prefix
    [borrowed_books[0 .. borrowed_count-1]] of the C array, so
    [borrowed_count] is its length. *)
Record User := mkUser {
  user_id : Z;
  user_name : string;
  borrowed_books : list string
}.

Definition borrowed_count (u : User) : nat := length (borrowed_books u).

Inductive TreeNode :=
| Leaf
| Node (book : addr) (left right : TreeNode).

(** A hash chain: the nodes met by following [next] from the bucket head. *)
Abbreviation chain := (list (addr * Book)).

(** The globals. [title_bst_root] is [None] once an insertion into the title
    index has read a freed book. *)
Record State := mkState {
  hash_table : list chain;
  user_list : list User;
  title_bst_root : option TreeNode;
  next_user_id : Z
}.

(** The globals as initialised by the program. *)
Definition empty_store : State :=
  {| hash_table := replicate HASH_TABLE_SIZE [];
     user_list := [];
     title_bst_root := Some Leaf;
     next_user_id := 1001 |}.

(** What an operation prints, by the kind of message. *)
Inductive Msg :=
| Success
| DuplicateIsbn
| BookNotFound
| UserNotFound
| BookUnavailable
| BookBorrowed
| HasBorrowedBooks
| BorrowLimitReached
| NotBorrowedByUser.

(** The [int] that [issue_book] and [return_book] return. *)
Definition return_code (m : Msg) : Z :=
  match m with Success => 1 | _ => 0 end.

(** ** Hash table *)

(** A [char] read as an [int]: plain [char] is signed on the usual targets. *)
Definition char_val (c : ascii) : Z :=
  let n := Z.of_nat (nat_of_ascii c) in
  if n <? 128 then n else n - 256.

(** One round per character: [hash * 31] plus the character, in
    [unsigned int]. *)
Fixpoint hash_loop (hash : Z) (key : string) : Z :=
  match key with
  | EmptyString => hash
  | String c rest => hash_loop ((hash * 31 + char_val c) mod 2 ^ 32) rest
  end.

Definition hash_function (key : string) : nat :=
  Z.to_nat (hash_loop 0 key mod Z.of_nat HASH_TABLE_SIZE).

(** [hash_table[index]] *)
Definition bucket (tbl : list chain) (index : nat) : chain :=
  match tbl !! index with
  | Some c => c
  | None => []
  end.

(** Walking a chain until [strcmp(current->isbn, key) == 0]: the position
    and the node of the first match. *)
Definition chain_find (key : string) (c : chain) : option (nat * (addr * Book)) :=
  list_find (λ n, isbn n.2 = key) c.

Definition search_book_by_isbn (key : string) (s : State)
  : option (nat * (addr * Book)) :=
  chain_find key (bucket (hash_table s) (hash_function key)).

(** Every live [Book], bucket by bucket. *)
Definition all_nodes (s : State) : list (addr * Book) := concat (hash_table s).

Definition all_books (s : State) : list Book := (all_nodes s).*2.

(** ** Title index *)

(** Reading [node->book->...]: the live book at that address, if any. *)
Definition deref (tbl : list chain) (p : addr) : option Book :=
  snd <$> (snd <$> list_find (λ n, n.1 = p) (concat tbl)).

(** [strcmp] on titles, by unsigned character codes. *)
Definition strcmp (a b : string) : comparison := String.compare a b.

(** The descent of [insert_into_bst], ties going right.  [None] when the
    descent reads a node whose book has been freed. *)
Fixpoint bst_insert (tbl : list chain) (p : addr) (t : string) (root : TreeNode)
  : option TreeNode :=
  match root with
  | Leaf => Some (Node p Leaf Leaf)
  | Node q l r =>
      match deref tbl q with
      | None => None
      | Some b =>
          match strcmp t (title b) with
          | Lt => l' ← bst_insert tbl p t l; Some (Node q l' r)
          | _ => r' ← bst_insert tbl p t r; Some (Node q l r')
          end
      end
  end.

(** [insert_into_bst]: [p] is the pointer it is given and [new_book] the
    record at [p]. *)
Definition insert_into_bst (tbl : list chain) (p : addr) (new_book : Book)
    (root : TreeNode) : option TreeNode :=
  bst_insert tbl p (title new_book) root.

(** The book pointers met by [inorder_traversal]. *)
Fixpoint inorder (root : TreeNode) : list addr :=
  match root with
  | Leaf => []
  | Node q l r => inorder l ++ q :: inorder r
  end.

(** ** Book operations *)

(** [insert_book]: [p] is the address of [new_book]. *)
Definition insert_book (p : addr) (new_book : Book) (s : State) : Msg * State :=
  let index := hash_function (isbn new_book) in
  match chain_find (isbn new_book) (bucket (hash_table s) index) with
  | Some _ => (DuplicateIsbn, s)
  | None =>
      let tbl := <[index := (p, new_book) :: bucket (hash_table s) index]> (hash_table s) in
      (Success,
       {| hash_table := tbl;
          user_list := user_list s;
          title_bst_root := title_bst_root s ≫= insert_into_bst tbl p new_book;
          next_user_id := next_user_id s |})
  end.

(** The book menu's entry that adds a book: a fresh record, available and
    never borrowed, handed to [insert_book]. *)
Definition add_book (p : addr) (i t a g : string) (s : State) : Msg * State :=
  insert_book p
    {| isbn := i; title := t; author := a; genre := g;
       available := 1; borrow_count := 0 |} s.

Definition remove_book (key : string) (s : State) : Msg * State :=
  let index := hash_function key in
  match chain_find key (bucket (hash_table s) index) with
  | None => (BookNotFound, s)
  | Some (k, (p, current)) =>
      if available current =? 0 then (BookBorrowed, s)
      else
        (Success,
         {| hash_table := <[index := delete k (bucket (hash_table s) index)]> (hash_table s);
            user_list := user_list s;
            title_bst_root := title_bst_root s;
            next_user_id := next_user_id s |})
  end.

(** ** User operations *)

Definition add_user (n : string) (s : State) : State :=
  {| hash_table := hash_table s;
     user_list :=
       {| user_id := next_user_id s; user_name := n; borrowed_books := [] |}
       :: user_list s;
     title_bst_root := title_bst_root s;
     next_user_id := wrap_int (next_user_id s + 1) |}.

Definition find_user (uid : Z) (s : State) : option (nat * User) :=
  list_find (λ u, user_id u = uid) (user_list s).

Definition remove_user (uid : Z) (s : State) : Msg * State :=
  match find_user uid s with
  | None => (UserNotFound, s)
  | Some (k, current) =>
      if decide (0 < borrowed_count current)%nat then (HasBorrowedBooks, s)
      else
        (Success,
         {| hash_table := hash_table s;
            user_list := delete k (user_list s);
            title_bst_root := title_bst_root s;
            next_user_id := next_user_id s |})
  end.

(** ** Issue and return *)

(** [book->available = 0; book->borrow_count++] *)
Definition book_issued (b : Book) : Book :=
  {| isbn := isbn b; title := title b; author := author b; genre := genre b;
     available := 0; borrow_count := wrap_int (borrow_count b + 1) |}.

(** [book->available = 1] *)
Definition book_returned (b : Book) : Book :=
  {| isbn := isbn b; title := title b; author := author b; genre := genre b;
     available := 1; borrow_count := borrow_count b |}.

(** Writing through a [Book *] obtained from the chain of [index]. *)
Definition update_book (f : Book → Book) (index k : nat) (tbl : list chain)
  : list chain :=
  alter (alter (λ n : addr * Book, (n.1, f n.2)) k) index tbl.

Definition set_borrowed (l : list string) (u : User) : User :=
  {| user_id := user_id u; user_name := user_name u; borrowed_books := l |}.

Definition issue_book (uid : Z) (key : string) (s : State) : Msg * State :=
  match find_user uid s with
  | None => (UserNotFound, s)
  | Some (ui, user) =>
      match search_book_by_isbn key s with
      | None => (BookNotFound, s)
      | Some (bi, (p, book)) =>
          if available book =? 0 then (BookUnavailable, s)
          else if decide (MAX_BORROWED ≤ borrowed_count user)%nat
          then (BorrowLimitReached, s)
          else
            (Success,
             {| hash_table :=
                  update_book book_issued (hash_function key) bi (hash_table s);
                user_list :=
                  alter (set_borrowed (borrowed_books user ++ [key])) ui (user_list s);
                title_bst_root := title_bst_root s;
                next_user_id := next_user_id s |})
      end
  end.

(** The first loop of [return_book]: the least [i] with
    [strcmp(user->borrowed_books[i], key) == 0]. *)
Definition found_idx (key : string) (borrowed : list string) : option nat :=
  fst <$> list_find (λ x, x = key) borrowed.

(** The second loop: [steps] rounds of [a[i] = a[i+1]; i++]. *)
Fixpoint shift_loop (steps i : nat) (a : list string) : list string :=
  match steps with
  | O => a
  | S steps' =>
      match a !! S i with
      | Some x => shift_loop steps' (S i) (<[i := x]> a)
      | None => a
      end
  end.

(** The shift from [idx] to [borrowed_count - 1], then [borrowed_count--]. *)
Definition remove_borrowed (idx : nat) (a : list string) : list string :=
  take (length a - 1) (shift_loop (length a - 1 - idx) idx a).

Definition return_book (uid : Z) (key : string) (s : State) : Msg * State :=
  match find_user uid s with
  | None => (UserNotFound, s)
  | Some (ui, user) =>
      match search_book_by_isbn key s with
      | None => (BookNotFound, s)
      | Some (bi, (p, book)) =>
          match found_idx key (borrowed_books user) with
          | None => (NotBorrowedByUser, s)
          | Some idx =>
              (Success,
               {| hash_table :=
                    update_book book_returned (hash_function key) bi (hash_table s);
                  user_list :=
                    alter (set_borrowed (remove_borrowed idx (borrowed_books user)))
                      ui (user_list s);
                  title_bst_root := title_bst_root s;
                  next_user_id := next_user_id s |})
          end
      end
  end.

(** ** Runs of the program *)

(** The requests of the menus that change the store.  [AddBook] carries the
    address [malloc] returned for the new record. *)
Inductive Op :=
| AddBook (p : addr) (i t a g : string)
| RemoveBook (key : string)
| AddUser (n : string)
| RemoveUser (uid : Z)
| Issue (uid : Z) (key : string)
| Return (uid : Z) (key : string).

(** [malloc] never returns the address of a live block. *)
Definition fresh (p : addr) (s : State) : Prop := p ∉ (all_nodes s).*1.

(** One request.  [None] stands for an allocation at a live address, which
    [malloc] never makes. *)
Definition exec (o : Op) (s : State) : option State :=
  match o with
  | AddBook p i t a g =>
      if decide (fresh p s) then Some (add_book p i t a g s).2 else None
  | RemoveBook key => Some (remove_book key s).2
  | AddUser n => Some (add_user n s)
  | RemoveUser uid => Some (remove_user uid s).2
  | Issue uid key => Some (issue_book uid key s).2
  | Return uid key => Some (return_book uid key s).2
  end.

Fixpoint run (ops : list Op) (s : State) : option State :=
  match ops with
  | [] => Some s
  | o :: ops' => s' ← exec o s; run ops' s'
  end.

Definition reachable (s : State) : Prop :=
  ∃ ops, run ops empty_store = Some s.

(** ** Notions used by the statements *)

(** The ISBNs on loan, user by user in list order. *)
Definition loans (s : State) : list string := user_list s ≫= borrowed_books.

(** How often [key] occurs in a list of ISBNs. *)
Definition occurrences (key : string) (l : list string) : nat :=
  length (filter (λ x, x = key) l).

(** The users whose borrowed list contains [key]. *)
Definition holders (key : string) (s : State) : list User :=
  filter (λ u, key ∈ borrowed_books u) (user_list s).

(** The book found under an ISBN, without its position. *)
Definition lookup_book (key : string) (s : State) : option Book :=
  (λ r : nat * (addr * Book), r.2.2) <$> search_book_by_isbn key s.

Definition chain_isbns (c : chain) : list string :=
  (λ n : addr * Book, isbn n.2) <$> c.

(** The shape of the hash table: 101 buckets, no ISBN twice in a chain, and
    every node in the bucket its ISBN hashes to. *)
Definition placed (s : State) : Prop :=
  length (hash_table s) = HASH_TABLE_SIZE ∧
  ∀ index c, hash_table s !! index = Some c →
    NoDup (chain_isbns c) ∧
    Forall (λ i, hash_function i = index) (chain_isbns c).

(** Loans and availability agree: a book that can be found is either out
    with exactly one entry among all borrowed lists, or in with none; an
    ISBN that cannot be found is in no borrowed list. *)
Definition consistent (s : State) : Prop :=
  ∀ key,
    match lookup_book key s with
    | Some b =>
        (available b = 0 ∧ occurrences key (loans s) = 1%nat) ∨
        (available b = 1 ∧ occurrences key (loans s) = 0%nat)
    | None => occurrences key (loans s) = 0%nat
    end.

(** ** Reports *)

(** Copying one chain into the array [books], while it has room. *)
Fixpoint collect_chain (books : list Book) (current : chain) : list Book :=
  match current with
  | [] => books
  | n :: next =>
      if decide (length books < MAX_BOOKS)%nat
      then collect_chain (books ++ [n.2]) next
      else books
  end.

(** The array [books] after the walk over all buckets. *)
Definition collect_books (tbl : list chain) : list Book :=
  foldl collect_chain [] tbl.

(** The body of the inner loop of the sort: exchange [books[j]] and
    [books[j + 1]] when the first was borrowed less often. *)
Definition swap_if_less (j : nat) (books : list Book) : list Book :=
  match books !! j, books !! S j with
  | Some x, Some y =>
      if borrow_count x <? borrow_count y
      then <[S j := x]> (<[j := y]> books)
      else books
  | _, _ => books
  end.

(** The inner loop, [j] from 0 below [bound]. *)
Definition bubble_pass (bound : nat) (books : list Book) : list Book :=
  foldl (λ bs j, swap_if_less j bs) books (seq 0 bound).

(** The outer loop, [i] from 0 below [book_count - 1]. *)
Definition bubble_sort (books : list Book) : list Book :=
  foldl (λ bs i, bubble_pass (length books - i - 1) bs) books
    (seq 0 (length books - 1)).

(** The lines printed by [list_most_borrowed_books], as the books they show. *)
Definition list_most_borrowed_books (s : State) : list Book :=
  let books := collect_books (hash_table s) in
  match books with
  | [] => []
  | _ :: _ =>
      let sorted := bubble_sort books in
      let display_limit :=
        if decide (length books < 10)%nat then length books else 10%nat in
      filter (λ b, 0 < borrow_count b) (take display_limit sorted)
  end.

(** [x] may stand before [y] in a list ordered by descending borrow count. *)
Definition more_borrowed (x y : Book) : Prop := borrow_count y <= borrow_count x.

(** ** Persistence: text *)

(** A file is the string of its characters; a C string is the string of its
    characters before the terminating NUL. The functions below that walk a
    line are those of C for a line that holds no NUL byte: in C a NUL in
    the line would end it for [strcspn], [strtok] and [strcpy]. *)

Definition newline : ascii := "010"%char.
Definition pipe : ascii := "|"%char.
Definition minus : ascii := "-"%char.
Definition plus : ascii := "+"%char.

Definition digit_char (d : Z) : ascii := ascii_of_nat (48 + Z.to_nat d).

(** The decimal digits of [n], least significant first, pushed in front of
    [acc]; an [int] has at most ten. *)
Fixpoint print_digits (fuel : nat) (n : Z) (acc : string) : string :=
  match fuel with
  | O => acc
  | S fuel' =>
      let acc' := String (digit_char (n mod 10)) acc in
      if n <? 10 then acc' else print_digits fuel' (n / 10) acc'
  end.

(** What [%d] prints for an [int]. *)
Definition print_int (z : Z) : string :=
  if z <? 0 then String minus (print_digits 10 (- z) "")
  else print_digits 10 z "".

Definition is_digit (c : ascii) : bool :=
  (48 <=? nat_of_ascii c)%nat && (nat_of_ascii c <=? 57)%nat.

Definition digit_val (c : ascii) : Z := Z.of_nat (nat_of_ascii c) - 48.

Definition is_space (c : ascii) : bool :=
  (nat_of_ascii c =? 32)%nat
  || ((9 <=? nat_of_ascii c)%nat && (nat_of_ascii c <=? 13)%nat).

Fixpoint skip_spaces (s : string) : string :=
  match s with
  | String c rest => if is_space c then skip_spaces rest else s
  | EmptyString => s
  end.

Fixpoint atoi_digits (acc : Z) (s : string) : Z :=
  match s with
  | String c rest =>
      if is_digit c then atoi_digits (acc * 10 + digit_val c) rest else acc
  | EmptyString => acc
  end.

(** The number [atoi] reads: blanks, a sign, then digits up to the first
    other character. *)
Definition atoi_value (s : string) : Z :=
  match skip_spaces s with
  | String c rest =>
      if Ascii.eqb c minus then - atoi_digits 0 rest
      else if Ascii.eqb c plus then atoi_digits 0 rest
      else atoi_digits 0 (String c rest)
  | EmptyString => 0
  end.

(** [atoi]: a number that an [int] cannot hold leaves the behaviour
    undefined in C, which is [None] here. *)
Definition atoi (s : string) : option Z :=
  let v := atoi_value s in
  if (INT_MIN <=? v) && (v <=? INT_MAX) then Some v else None.

(** [fgets] with room for [n] characters: the characters read, up to and
    including a newline, and the rest of the file. *)
Fixpoint fgets_chars (n : nat) (file : string) : string * string :=
  match n, file with
  | O, _ => (EmptyString, file)
  | S _, EmptyString => (EmptyString, EmptyString)
  | S n', String c rest =>
      if Ascii.eqb c newline then (String c EmptyString, rest)
      else let '(l, rest') := fgets_chars n' rest in (String c l, rest')
  end.

(** [fgets(line, size, file)]: [None] at the end of the file. *)
Definition fgets (size : nat) (file : string) : option (string * string) :=
  match file with
  | EmptyString => None
  | String _ _ => Some (fgets_chars (size - 1) file)
  end.

(** [line[strcspn(line, "\n")] = 0], for a line without a NUL byte. *)
Fixpoint chomp (line : string) : string :=
  match line with
  | EmptyString => EmptyString
  | String c rest =>
      if Ascii.eqb c newline then EmptyString else String c (chomp rest)
  end.

Fixpoint skip_delims (s : string) : string :=
  match s with
  | String c rest => if Ascii.eqb c pipe then skip_delims rest else s
  | EmptyString => s
  end.

(** The token at the head of [s] and what follows its delimiter. *)
Fixpoint span_token (s : string) : string * string :=
  match s with
  | EmptyString => (EmptyString, EmptyString)
  | String c rest =>
      if Ascii.eqb c pipe then (EmptyString, rest)
      else let '(tok, rest') := span_token rest in (String c tok, rest')
  end.

(** [strtok] and [strtok_r] with the delimiter [|], the saved position made
    explicit: leading delimiters are skipped, so an empty field is never a
    token. [None] is the NULL returned at the end of the line. The line is
    one without a NUL byte. *)
Definition strtok (s : string) : option (string * string) :=
  match skip_delims s with
  | EmptyString => None
  | String c rest => Some (span_token (String c rest))
  end.

(** ** Persistence: records *)

(** The outcome of reading one record: a record, a line that is skipped, or
    a line on which this description stops: a step that C leaves undefined
    (a [strcpy] past the end of a field, a number that an [int] cannot hold,
    a use of the record after [free]), or a record that is not one of the
    data model (a borrowed count that is not the length of a list). *)
Inductive Parsed (A : Type) :=
| Parsed_ok (a : A)
| Malformed
| Undefined.

Arguments Parsed_ok {A} a.
Arguments Malformed {A}.
Arguments Undefined {A}.

#[export] Instance Parsed_bind : MBind Parsed := λ A B f x,
  match x with
  | Parsed_ok a => f a
  | Malformed => Malformed
  | Undefined => Undefined
  end.

#[export] Instance Parsed_ret : MRet Parsed := λ A a, Parsed_ok a.

(** The next token, copied by [strcpy] into a field of [cap] characters. *)
Definition next_field (cap : nat) (rest : string) : Parsed (string * string) :=
  match strtok rest with
  | None => Malformed
  | Some (tok, rest') =>
      if decide (String.length tok < cap)%nat then Parsed_ok (tok, rest')
      else Undefined
  end.

(** The next token, read by [atoi]. *)
Definition next_int (rest : string) : Parsed (Z * string) :=
  match strtok rest with
  | None => Malformed
  | Some (tok, rest') =>
      match atoi tok with
      | Some z => Parsed_ok (z, rest')
      | None => Undefined
      end
  end.

Definition parse_book (line : string) : Parsed Book :=
  '(i, r) ← next_field MAX_ISBN_LENGTH line;
  '(t, r) ← next_field MAX_TITLE_LENGTH r;
  '(a, r) ← next_field MAX_AUTHOR_LENGTH r;
  '(g, r) ← next_field MAX_GENRE_LENGTH r;
  '(av, r) ← next_int r;
  '(bc, _) ← next_int r;
  mret {| isbn := i; title := t; author := a; genre := g;
          available := av; borrow_count := bc |}.

(** The loop over the borrowed ISBNs of a user line. A missing token makes
    the loop go on with a freed record. *)
Fixpoint parse_borrowed (n : nat) (rest : string) : Parsed (list string) :=
  match n with
  | O => Parsed_ok []
  | S n' =>
      match strtok rest with
      | None => Undefined
      | Some (tok, rest') =>
          if decide (String.length tok < MAX_ISBN_LENGTH)%nat
          then l ← parse_borrowed n' rest'; mret (tok :: l)
          else Undefined
      end
  end.

(** A count outside [0 .. MAX_BORROWED] is not the length of a borrowed
    list. Above [MAX_BORROWED] the copies run past the array. Below 0 the
    loop copies nothing and C links the record with its negative count; a
    [User] here has no such count, so the description stops on that line
    as well. *)
Definition parse_user (line : string) : Parsed User :=
  '(uid, r) ← next_int line;
  '(n, r) ← next_field MAX_NAME_LENGTH r;
  '(cnt, r) ← next_int r;
  if decide (0 <= cnt <= Z.of_nat MAX_BORROWED)
  then l ← parse_borrowed (Z.to_nat cnt) r;
       mret {| user_id := uid; user_name := n; borrowed_books := l |}
  else Undefined.

(** ** Persistence: files *)

(** The text of [%s|%s|%s|%s|%d|%d] for a book. *)
Definition book_fields (b : Book) : string :=
  isbn b +:+ String pipe (title b +:+ String pipe (author b +:+ String pipe
    (genre b +:+ String pipe (print_int (available b) +:+ String pipe
      (print_int (borrow_count b)))))).

Definition book_line (b : Book) : string :=
  book_fields b +:+ String newline EmptyString.

(** The file written by [save_books_to_file]: bucket by bucket, each chain
    from its head. *)
Definition save_books_to_file (s : State) : string :=
  foldr (λ n file, book_line n.2 +:+ file) EmptyString (all_nodes s).

(** The text of [|%s] for each borrowed ISBN. *)
Definition borrowed_fields (l : list string) : string :=
  foldr (λ i rest, String pipe (i +:+ rest)) EmptyString l.

(** What stands after the count of a user line once the count is read. *)
Definition borrowed_rest (l : list string) : string :=
  match l with
  | [] => EmptyString
  | i :: l' => i +:+ borrowed_fields l'
  end.

(** The text of [%d|%s|%d] and of the borrowed ISBNs for a user. *)
Definition user_fields (u : User) : string :=
  print_int (user_id u) +:+ String pipe (user_name u +:+ String pipe
    (print_int (Z.of_nat (borrowed_count u)) +:+ borrowed_fields (borrowed_books u))).

Definition user_line (u : User) : string :=
  user_fields u +:+ String newline EmptyString.

(** The file written by [save_users_to_file]: the list from its head. *)
Definition save_users_to_file (s : State) : string :=
  foldr (λ u file, user_line u +:+ file) EmptyString (user_list s).

(** A record read from the books file is linked at the head of its chain
    without a search for its ISBN, then entered in the title index. *)
Definition link_book (p : addr) (new_book : Book) (s : State) : State :=
  let index := hash_function (isbn new_book) in
  let tbl := <[index := (p, new_book) :: bucket (hash_table s) index]> (hash_table s) in
  {| hash_table := tbl;
     user_list := user_list s;
     title_bst_root := title_bst_root s ≫= insert_into_bst tbl p new_book;
     next_user_id := next_user_id s |}.

(** The reading loop of [load_books_from_file]; [alloc k] is the address of
    the record allocated in round [k]. Each round reads at least one
    character, so [fuel] above the length of the file is never used up. *)
Fixpoint load_books_loop (fuel : nat) (alloc : nat → addr) (k : nat)
    (file : string) (s : State) : option State :=
  match fuel with
  | O => None
  | S fuel' =>
      match fgets 512 file with
      | None => Some s
      | Some (line, rest) =>
          match parse_book (chomp line) with
          | Undefined => None
          | Malformed => load_books_loop fuel' alloc (S k) rest s
          | Parsed_ok b =>
              load_books_loop fuel' alloc (S k) rest (link_book (alloc k) b s)
          end
      end
  end.

(** [load_books_from_file]; [None] for the file when it cannot be opened. *)
Definition load_books_from_file (alloc : nat → addr) (file : option string)
    (s : State) : option State :=
  match file with
  | None => Some s
  | Some content => load_books_loop (S (String.length content)) alloc 0 content s
  end.

(** The reading loop of [load_users_from_file]: the temporary list, newest
    record first, and the largest id met. *)
Fixpoint load_users_loop (fuel : nat) (file : string)
    (temp_user_list : list User) (current_max_id : Z) : option (list User * Z) :=
  match fuel with
  | O => None
  | S fuel' =>
      match fgets 1024 file with
      | None => Some (temp_user_list, current_max_id)
      | Some (line, rest) =>
          match parse_user (chomp line) with
          | Undefined => None
          | Malformed => load_users_loop fuel' rest temp_user_list current_max_id
          | Parsed_ok u =>
              load_users_loop fuel' rest (u :: temp_user_list)
                (if user_id u >? current_max_id then user_id u else current_max_id)
          end
      end
  end.

(** [load_users_from_file]: the list read replaces [user_list], after the
    temporary list is turned round node by node. *)
Definition load_users_from_file (file : option string) (s : State) : option State :=
  match file with
  | None => Some s
  | Some content =>
      '(temp_user_list, current_max_id) ←
        load_users_loop (S (String.length content)) content [] 1000;
      Some {| hash_table := hash_table s;
              user_list := rev_append temp_user_list [];
              title_bst_root := title_bst_root s;
              next_user_id := wrap_int (current_max_id + 1) |}
  end.

(** What [main] does at exit and at the next start: both files written,
    then read into the initial globals. *)
Definition save_and_reload (alloc : nat → addr) (s : State) : option State :=
  s1 ← load_books_from_file alloc (Some (save_books_to_file s)) empty_store;
  load_users_from_file (Some (save_users_to_file s)) s1.

(** ** Stores that the text format carries *)

Fixpoint all_chars (P : ascii → bool) (f : string) : bool :=
  match f with
  | EmptyString => true
  | String c rest => P c && all_chars P rest
  end.

Definition not_char (x c : ascii) : bool := negb (Ascii.eqb c x).

(** No delimiter and no newline. *)
Definition clean (f : string) : bool :=
  all_chars (λ c, not_char pipe c && not_char newline c) f.

(** A field that is not empty, fits a buffer of [cap] characters with its
    NUL, and holds no delimiter and no newline. *)
Definition field_ok (cap : nat) (f : string) : bool :=
  match f with
  | EmptyString => false
  | String _ _ => (String.length f <? cap)%nat && clean f
  end.

Definition int_ok (z : Z) : bool := (INT_MIN <=? z) && (z <=? INT_MAX).

Definition book_ok (b : Book) : bool :=
  field_ok MAX_ISBN_LENGTH (isbn b) && field_ok MAX_TITLE_LENGTH (title b)
  && field_ok MAX_AUTHOR_LENGTH (author b) && field_ok MAX_GENRE_LENGTH (genre b)
  && int_ok (available b) && int_ok (borrow_count b).

Definition user_ok (u : User) : bool :=
  int_ok (user_id u) && field_ok MAX_NAME_LENGTH (user_name u)
  && (borrowed_count u <=? MAX_BORROWED)%nat
  && forallb (field_ok MAX_ISBN_LENGTH) (borrowed_books u).

Definition storable (s : State) : Prop :=
  forallb book_ok (all_books s) = true ∧ forallb user_ok (user_list s) = true.

(** Every node of the title index points to a live book. *)
Definition index_live (s : State) : Prop :=
  ∃ root,
    title_bst_root s = Some root ∧
    Forall (λ q, is_Some (deref (hash_table s) q)) (inorder root).

(** Users registered one after the other, first name first. *)
Definition add_users (names : list string) (s : State) : State :=
  foldl (λ s' n, add_user n s') s names.

(** ** Sample runs *)

(** One book, one user, the book issued to the user. *)
Definition loan_ops : list Op :=
  [AddBook 7%nat "111" "Go" "A" "Tech"; AddUser "Ann"; Issue 1001 "111"].

Definition loan_store : State := default empty_store (run loan_ops empty_store).

(** Ten books and one user who borrows all ten. *)
Definition ten_isbns : list string :=
  ["0"; "1"; "2"; "3"; "4"; "5"; "6"; "7"; "8"; "9"].

Definition full_ops : list Op :=
  imap (λ k i, AddBook k i "T" "A" "G") ten_isbns
    ++ [AddUser "Ann"]
    ++ ((λ i, Issue 1001 i) <$> ten_isbns).

Definition full_store : State := default empty_store (run full_ops empty_store).

(** The same, with an eleventh book left on the shelf. *)
Definition spare_ops : list Op := full_ops ++ [AddBook 10%nat "10" "T" "A" "G"].

Definition spare_store : State := default empty_store (run spare_ops empty_store).

(** A book added and then removed. *)
Definition removed_ops : list Op :=
  [AddBook 7%nat "111" "Go" "A" "Tech"; RemoveBook "111"].

Definition removed_store : State :=
  default empty_store (run removed_ops empty_store).

(** A book whose genre was left empty at the prompt. *)
Definition blank_genre_ops : list Op := [AddBook 7%nat "111" "Go" "A" ""].

Definition blank_genre_store : State :=
  default empty_store (run blank_genre_ops empty_store).

(** An allocator for the examples. *)
Definition sample_alloc (k : nat) : addr := (100 + k)%nat.

(** ** Further reports *)

Definition MAX_USERS : nat := 100.

(** The lines printed by [list_available_books], as the books they show:
    every bucket, every chain from its head, the books whose [available] is
    not zero. *)
Definition list_available_books (s : State) : list Book :=
  filter (λ b, available b ≠ 0) (all_books s).

(** The lines printed by [list_borrowed_books]: for each user from the head
    of the list, for each borrowed ISBN in order, the book found under it and
    the user; an ISBN that is not found prints nothing. *)
Definition list_borrowed_books (s : State) : list (Book * User) :=
  user_list s ≫= λ u,
    omap (λ i, (λ b, (b, u)) <$> lookup_book i s) (borrowed_books u).

(** The exchange sort of the two ranking reports, by the [int] it compares. *)
Section ExchangeSort.
Context {A : Type} (key : A → Z).

Definition swap_by (j : nat) (a : list A) : list A :=
  match a !! j, a !! S j with
  | Some x, Some y =>
      if key x <? key y then <[S j := x]> (<[j := y]> a) else a
  | _, _ => a
  end.

Definition pass_by (bound : nat) (a : list A) : list A :=
  foldl (λ l j, swap_by j l) a (seq 0 bound).

Definition sort_by (a : list A) : list A :=
  foldl (λ l i, pass_by (length a - i - 1) l) a (seq 0 (length a - 1)).

End ExchangeSort.

(** The array [active_users]: the users with a borrowed book, while the
    array has room. *)
Fixpoint collect_active (active : list User) (current : list User) : list User :=
  match current with
  | [] => active
  | u :: next =>
      if decide (length active < MAX_USERS)%nat
      then collect_active
             (if decide (0 < borrowed_count u)%nat then active ++ [u] else active)
             next
      else active
  end.

(** The lines printed by [list_active_users], as the users they show. *)
Definition list_active_users (s : State) : list User :=
  sort_by (λ u, Z.of_nat (borrowed_count u)) (collect_active [] (user_list s)).

(** [search_by_title]: the book pointer of the node found, [None] inside for
    NULL; [None] outside when the descent reads a freed book. *)
Fixpoint search_by_title (tbl : list chain) (root : TreeNode) (t : string)
  : option (option addr) :=
  match root with
  | Leaf => Some None
  | Node q l r =>
      match deref tbl q with
      | None => None
      | Some b =>
          match strcmp t (title b) with
          | Eq => Some (Some q)
          | Lt => search_by_title tbl l t
          | Gt => search_by_title tbl r t
          end
      end
  end.

(** [inorder_traversal]: the books of the lines it prints, [None] when it
    reads a freed book. *)
Fixpoint inorder_traversal (tbl : list chain) (root : TreeNode) : option (list Book) :=
  match root with
  | Leaf => Some []
  | Node q l r =>
      ls ← inorder_traversal tbl l;
      b ← deref tbl q;
      rs ← inorder_traversal tbl r;
      Some (ls ++ b :: rs)
  end.

(** The lines printed by [list_all_books]. *)
Definition list_all_books (s : State) : option (list Book) :=
  root ← title_bst_root s; inorder_traversal (hash_table s) root.

(** [a] is not after [b] in the order of [strcmp]. *)
Definition title_le (a b : Book) : Prop := strcmp (title a) (title b) ≠ Gt.

(** ** Input *)

Definition nul : ascii := "000"%char.

(** What [strlen] and the other string functions see of an array of
    characters: the characters before the first NUL. *)
Fixpoint c_string (buffer : string) : string :=
  match buffer with
  | EmptyString => EmptyString
  | String c rest =>
      if Ascii.eqb c nul then EmptyString else String c (c_string rest)
  end.

(** The end of [read_string]: a newline in the last place is cut off. *)
Fixpoint strip_newline (buffer : string) : string :=
  match buffer with
  | EmptyString => EmptyString
  | String c EmptyString =>
      if Ascii.eqb c newline then EmptyString else buffer
  | String c rest => String c (strip_newline rest)
  end.

(** [read_string(buffer, length)] on the input [stdin]: the string left in
    the buffer and what is left of the input. [fgets] stores what it read,
    NUL bytes of the input included, and [strlen] then takes the buffer as
    the string before the first NUL. With [length] below 1, and at the end of
    the input, [fgets] stores nothing and the buffer, which the callers do
    not initialise, has no defined content: [None]. With [length] 1 it reads
    nothing and stores the empty string. *)
Definition read_string (length : Z) (stdin : string) : option (string * string) :=
  if length <=? 0 then None
  else if length =? 1 then Some (EmptyString, stdin)
  else
    '(buffer, rest) ← fgets (Z.to_nat length) stdin;
    Some (strip_newline (c_string buffer), rest).

(** ** Notions used by the further statements *)

(** The requests other than the removal of a book. *)
Definition keeps_books (o : Op) : bool :=
  match o with RemoveBook _ => false | _ => true end.

Definition is_add_user (o : Op) : bool :=
  match o with AddUser _ => true | _ => false end.

(** The number of users registered by a run. *)
Definition registrations (ops : list Op) : nat :=
  length (filter (λ o, Is_true (is_add_user o)) ops).

(** Two users, the newer of them holding the one book. *)
Definition pair_ops : list Op :=
  [AddBook 7%nat "111" "Go" "A" "Tech"; AddUser "Ann"; AddUser "Bob";
   Issue 1002 "111"].

Definition pair_store : State := default empty_store (run pair_ops empty_store).

(** One book and one user, nothing on loan. *)
Definition shelf_ops : list Op :=
  [AddBook 7%nat "111" "Go" "A" "Tech"; AddUser "Ann"].

Definition shelf_store : State := default empty_store (run shelf_ops empty_store).

(** ** The title index as a search tree *)

(** [node->book->title], when the book is live. *)
Definition title_at (tbl : list chain) (q : addr) : option string :=
  title <$> deref tbl q.

(** Every node reads a live book; titles in the left subtree compare below
    the node's, titles in the right subtree do not. *)
Fixpoint bst_ordered (tbl : list chain) (root : TreeNode) : Prop :=
  match root with
  | Leaf => True
  | Node q l r =>
      ∃ t, title_at tbl q = Some t ∧
        (∀ x, x ∈ inorder l → ∃ tx, title_at tbl x = Some tx ∧ strcmp tx t = Lt) ∧
        (∀ x, x ∈ inorder r → ∃ tx, title_at tbl x = Some tx ∧ strcmp tx t ≠ Lt) ∧
        bst_ordered tbl l ∧ bst_ordered tbl r
  end.

(** The index holds exactly the stored books and is a search tree. *)
Definition index_sound (s : State) : Prop :=
  ∃ root,
    title_bst_root s = Some root ∧
    inorder root ≡ₚ (all_nodes s).*1 ∧
    bst_ordered (hash_table s) root.

(** ** Files as the loaders read them *)

(** The lines that a loop of [fgets(line, size, file)] followed by
    [line[strcspn(line, "\n")] = 0] sees, in order. Each round takes at least
    one character when [size] is above 1, so [fuel] above the length of the
    file is never used up. *)
Fixpoint file_lines (fuel size : nat) (file : string) : list string :=
  match fuel with
  | O => []
  | S fuel' =>
      match fgets size file with
      | None => []
      | Some (line, rest) => chomp line :: file_lines fuel' size rest
      end
  end.

Definition lines_of (size : nat) (file : string) : list string :=
  file_lines (S (String.length file)) size file.

(** The records of the lines that parse; a line that lacks a field gives
    none. *)
Definition records {A} (parse : string → Parsed A) (lines : list string) : list A :=
  lines ≫= λ l, match parse l with Parsed_ok a => [a] | _ => [] end.

(** No line makes the parser leave defined behaviour. *)
Definition well_defined {A} (parse : string → Parsed A) (lines : list string) : Prop :=
  Forall (λ l, parse l ≠ Undefined) lines.

(** Every node is in the bucket its ISBN hashes to. *)
Definition bucketed (s : State) : Prop :=
  ∀ index c, hash_table s !! index = Some c →
    Forall (λ i, hash_function i = index) (chain_isbns c).

(** A books file with a line that lacks a field and an ISBN that comes
    twice, and a users file with a line that lacks a field. *)
Definition sample_books_file : string :=
  "111|Go|A|Tech|1|0" +:+ String newline
    ("oops" +:+ String newline
      ("222|Ada|B|Tech|0|3" +:+ String newline
        ("111|Go 2|A|Tech|1|5" +:+ String newline ""))).

Definition sample_users_file : string :=
  "1004|Ann|1|222" +:+ String newline
    ("1002" +:+ String newline
      ("1002|Bob|0" +:+ String newline "")).
(** * Properties *)

(** ** Tables and chains *)

Lemma bucket_lookup (tbl : list chain) index c :
  tbl !! index = Some c → bucket tbl index = c.
Proof. unfold bucket. by intros ->. Qed.

Lemma bucket_alter (g : chain → chain) (tbl : list chain) index j :
  g [] = [] →
  bucket (alter g index tbl) j = if decide (index = j) then g (bucket tbl j) else bucket tbl j.
Proof.
  intros Hg. unfold bucket. case_decide as Hj.
  - subst j. rewrite list_lookup_alter_eq. by destruct (tbl !! index).
  - by rewrite list_lookup_alter_ne.
Qed.

Lemma bucket_insert (tbl : list chain) index j c :
  (index < length tbl)%nat →
  bucket (<[index := c]> tbl) j = if decide (index = j) then c else bucket tbl j.
Proof.
  intros Hlt. unfold bucket. case_decide as Hj.
  - subst j. by rewrite list_lookup_insert_eq.
  - by rewrite list_lookup_insert_ne.
Qed.

Lemma hash_function_lt key : (hash_function key < HASH_TABLE_SIZE)%nat.
Proof.
  unfold hash_function, HASH_TABLE_SIZE.
  pose proof (Z.mod_pos_bound (hash_loop 0 key) (Z.of_nat 101)). lia.
Qed.

(** ** Issue: the order of the checks, and no effect on failure *)

(** C2. [issue_book] looks for the user, then for the book, then tests the
    book's availability, then the user's borrow count, each failure being
    reported only when the earlier tests passed; and every failure returns
    the store it was given. *)
Theorem issue_book_checks_then_mutates (uid : Z) (key : string) (s : State) :
  (find_user uid s = None → issue_book uid key s = (UserNotFound, s)) ∧
  (∀ ui u, find_user uid s = Some (ui, u) →
     (search_book_by_isbn key s = None →
        issue_book uid key s = (BookNotFound, s)) ∧
     (∀ bi p b, search_book_by_isbn key s = Some (bi, (p, b)) →
        (available b = 0 → issue_book uid key s = (BookUnavailable, s)) ∧
        (available b ≠ 0 → (MAX_BORROWED ≤ borrowed_count u)%nat →
           issue_book uid key s = (BorrowLimitReached, s)) ∧
        (available b ≠ 0 → (borrowed_count u < MAX_BORROWED)%nat →
           (issue_book uid key s).1 = Success))) ∧
  ((issue_book uid key s).1 ≠ Success → (issue_book uid key s).2 = s) ∧
  (return_code (issue_book uid key s).1 = 0 → (issue_book uid key s).2 = s).
Proof.
  unfold issue_book.
  destruct (find_user uid s) as [[ui u]|] eqn:Hu;
    [destruct (search_book_by_isbn key s) as [[bi [p b]]|] eqn:Hb;
      [destruct (Z.eqb_spec (available b) 0) as [Ha|Ha];
        [|destruct (decide (MAX_BORROWED ≤ borrowed_count u)%nat) as [Hc|Hc]]|]|];
    repeat first [split | intro]; simplify_eq/=; try done; try lia.
Qed.

Lemma find_user_lookup uid s ui u :
  find_user uid s = Some (ui, u) → user_list s !! ui = Some u ∧ user_id u = uid.
Proof. unfold find_user. rewrite list_find_Some. by intros (? & ? & _). Qed.

Lemma search_book_lookup key s bi n :
  search_book_by_isbn key s = Some (bi, n) →
  bucket (hash_table s) (hash_function key) !! bi = Some n ∧ isbn n.2 = key.
Proof.
  unfold search_book_by_isbn, chain_find. rewrite list_find_Some.
  by intros (? & ? & _).
Qed.

Lemma update_book_lookup f index k (tbl : list chain) j i :
  bucket (update_book f index k tbl) j !! i =
  if decide (index = j ∧ k = i)
  then (λ n : addr * Book, (n.1, f n.2)) <$> bucket tbl j !! i
  else bucket tbl j !! i.
Proof.
  unfold update_book. rewrite bucket_alter by done.
  destruct (decide (index = j)) as [->|Hj]; cbn.
  - destruct (decide (k = i)) as [->|Hi].
    + rewrite list_lookup_alter_eq. by rewrite decide_True.
    + rewrite list_lookup_alter_ne by done. rewrite decide_False; [done|].
      by intros [_ ?].
  - rewrite decide_False; [done|]. by intros [? _].
Qed.

Lemma update_book_addrs f index k (tbl : list chain) j :
  (bucket (update_book f index k tbl) j).*1 = (bucket tbl j).*1.
Proof.
  apply list_eq. intros i. rewrite !list_lookup_fmap, update_book_lookup.
  case_decide; [|done]. by destruct (bucket tbl j !! i).
Qed.

Lemma length_update_book f index k (tbl : list chain) :
  length (update_book f index k tbl) = length tbl.
Proof. apply length_alter. Qed.

(** ** Issue and return: what a success leaves alone *)

(** C10. A successful [issue_book] or [return_book] rewrites one user record,
    keeping its id and name, and one book record, keeping its ISBN, title,
    author and genre.  Every other user and every other book is as before, the
    chains hold the same nodes in the same order, and the title index and
    [next_user_id] are not touched. *)
Theorem issue_return_frame (uid : Z) (key : string) (s s' : State) :
  issue_book uid key s = (Success, s') ∨ return_book uid key s = (Success, s') →
  ∃ ui u bi p b u' b',
    find_user uid s = Some (ui, u) ∧
    search_book_by_isbn key s = Some (bi, (p, b)) ∧
    length (user_list s') = length (user_list s) ∧
    (∀ j, j ≠ ui → user_list s' !! j = user_list s !! j) ∧
    user_list s' !! ui = Some u' ∧
    user_id u' = user_id u ∧ user_name u' = user_name u ∧
    length (hash_table s') = length (hash_table s) ∧
    (∀ j, (bucket (hash_table s') j).*1 = (bucket (hash_table s) j).*1) ∧
    (∀ j i, (j, i) ≠ (hash_function key, bi) →
       bucket (hash_table s') j !! i = bucket (hash_table s) j !! i) ∧
    bucket (hash_table s') (hash_function key) !! bi = Some (p, b') ∧
    isbn b' = isbn b ∧ title b' = title b ∧
    author b' = author b ∧ genre b' = genre b ∧
    title_bst_root s' = title_bst_root s ∧
    next_user_id s' = next_user_id s.
Proof.
  intros H.
  assert (∃ ui u bi p b l f,
    find_user uid s = Some (ui, u) ∧
    search_book_by_isbn key s = Some (bi, (p, b)) ∧
    (f = book_issued ∨ f = book_returned) ∧
    s' = {| hash_table := update_book f (hash_function key) bi (hash_table s);
            user_list := alter (set_borrowed l) ui (user_list s);
            title_bst_root := title_bst_root s;
            next_user_id := next_user_id s |}) as Hs'.
  { destruct H as [H|H]; [unfold issue_book in H|unfold return_book in H];
      destruct (find_user uid s) as [[ui u]|]; try done;
      destruct (search_book_by_isbn key s) as [[bi [p b]]|]; try done.
    - repeat case_match; simplify_eq. eauto 12.
    - repeat case_match; simplify_eq. eauto 12. }
  destruct Hs' as (ui & u & bi & p & b & l & f & Hu & Hb & Hf & ->).
  destruct (find_user_lookup _ _ _ _ Hu) as [Hul _].
  destruct (search_book_lookup _ _ _ _ Hb) as [Hbl _].
  exists ui, u, bi, p, b, (set_borrowed l u), (f b). cbn [hash_table user_list title_bst_root next_user_id].
  split_and!; try done.
  - apply length_alter.
  - intros j Hj. by rewrite list_lookup_alter_ne.
  - by rewrite list_lookup_alter_eq, Hul.
  - apply length_update_book.
  - apply update_book_addrs.
  - intros j i Hji. rewrite update_book_lookup. rewrite decide_False; [done|].
    intros [<- <-]. by apply Hji.
  - rewrite update_book_lookup, decide_True by done. by rewrite Hbl.
  - by destruct Hf as [-> | ->].
  - by destruct Hf as [-> | ->].
  - by destruct Hf as [-> | ->].
  - by destruct Hf as [-> | ->].
Qed.

(** ** Searching after a record was rewritten in place *)

Lemma list_find_alter {A} (P : A → Prop) `{!∀ x, Decision (P x)}
    (g : A → A) k (l : list A) :
  (∀ x, P (g x) ↔ P x) →
  list_find P (alter g k l) =
  (λ r : nat * A, if decide (r.1 = k) then (r.1, g r.2) else r) <$> list_find P l.
Proof.
  intros Hg. revert k. induction l as [|x l IH]; intros k; [done|].
  destruct k as [|k]; cbn [alter list_alter list_find].
  - destruct (decide (P x)) as [Hx|Hx].
    + by rewrite decide_True by (by apply Hg).
    + rewrite decide_False by (by rewrite Hg).
      destruct (list_find P l) as [[j y]|]; [|done]. cbn. by rewrite decide_False.
  - destruct (decide (P x)) as [Hx|Hx]; [done|].
    change (list_alter g k l) with (alter g k l). rewrite IH.
    destruct (list_find P l) as [[j y]|]; [|done]. cbn.
    destruct (decide (j = k)) as [->|Hj].
    + by rewrite decide_True.
    + rewrite decide_False; [done|]. by intros [= ?].
Qed.

(** ** Searching a chain *)

Lemma chain_find_cons key n (c : chain) :
  chain_find key (n :: c) =
  if decide (isbn n.2 = key) then Some (0%nat, n)
  else prod_map S id <$> chain_find key c.
Proof. reflexivity. Qed.

Lemma chain_find_None key (c : chain) :
  chain_find key c = None ↔ key ∉ chain_isbns c.
Proof.
  induction c as [|n c IH].
  { split; [intros _; apply not_elem_of_nil|done]. }
  rewrite chain_find_cons. unfold chain_isbns in *. rewrite fmap_cons, not_elem_of_cons.
  case_decide as Hn.
  - split; [done|]. intros [? _]. congruence.
  - rewrite fmap_None, IH. split; [intros ?; split; [congruence|done]|by intros [_ ?]].
Qed.

Lemma chain_find_Some key (c : chain) k n :
  chain_find key c = Some (k, n) → c !! k = Some n ∧ isbn n.2 = key.
Proof. unfold chain_find. rewrite list_find_Some. by intros (? & ? & _). Qed.

Lemma chain_find_unique key (c : chain) k n :
  NoDup (chain_isbns c) → c !! k = Some n → isbn n.2 = key →
  chain_find key c = Some (k, n).
Proof.
  revert k. induction c as [|m c IH]; intros k Hnd Hk Hn; [done|].
  unfold chain_isbns in *. rewrite fmap_cons in Hnd. apply NoDup_cons in Hnd as [Hm Hnd].
  rewrite chain_find_cons. destruct k as [|k]; simplify_eq/=.
  - by rewrite decide_True.
  - rewrite decide_False.
    + by rewrite (IH k).
    + intros Heq. apply Hm. rewrite Heq. apply list_elem_of_fmap.
      exists n. split; [done|]. by eapply list_elem_of_lookup_2.
Qed.

Lemma chain_isbns_alter f k (c : chain) :
  (∀ b, isbn (f b) = isbn b) →
  chain_isbns (alter (λ n : addr * Book, (n.1, f n.2)) k c) = chain_isbns c.
Proof.
  intros Hf. unfold chain_isbns. apply list_eq. intros i.
  rewrite !list_lookup_fmap, list_lookup_alter.
  case_decide; [subst k|done]. destruct (c !! i); [|done]. cbn. by rewrite Hf.
Qed.

Lemma chain_find_alter f key k (c : chain) :
  (∀ b, isbn (f b) = isbn b) →
  chain_find key (alter (λ n : addr * Book, (n.1, f n.2)) k c) =
  (λ r : nat * (addr * Book),
     if decide (r.1 = k) then (r.1, (r.2.1, f r.2.2)) else r)
    <$> chain_find key c.
Proof.
  intros Hf. unfold chain_find. rewrite list_find_alter; [done|].
  intros n. cbn. by rewrite Hf.
Qed.

Lemma chain_find_delete key0 key k n (c : chain) :
  NoDup (chain_isbns c) →
  chain_find key0 c = Some (k, n) →
  snd <$> chain_find key (delete k c) =
  if decide (key = key0) then None else snd <$> chain_find key c.
Proof.
  revert k. induction c as [|m c IH]; intros k Hnd Hk; [done|].
  unfold chain_isbns in Hnd. rewrite fmap_cons in Hnd. apply NoDup_cons in Hnd as [Hm Hnd].
  rewrite chain_find_cons in Hk. case_decide as Hm0.
  - simplify_eq. cbn [delete list_delete].
    destruct (decide (key = isbn n.2)) as [->|Hk].
    + apply fmap_None, chain_find_None. done.
    + rewrite chain_find_cons, decide_False by done.
      rewrite <- option_fmap_compose.
      by destruct (chain_find key c) as [[? ?]|].
  - destruct (chain_find key0 c) as [[k' n']|] eqn:Hk0; simplify_eq/=.
    specialize (IH k' Hnd eq_refl).
    destruct (decide (isbn m.2 = key)) as [Hmk|Hmk].
    + rewrite decide_False; [done|]. congruence.
    + destruct (decide (key = key0)) as [->|Hkk].
      * apply fmap_None in IH. by rewrite IH.
      * destruct (chain_find key (delete k' c)) as [[? ?]|],
          (chain_find key c) as [[? ?]|]; simplify_eq/=; done.
Qed.

(** ** The shape of the table is kept *)

Lemma placed_bucket s index :
  placed s →
  NoDup (chain_isbns (bucket (hash_table s) index)) ∧
  Forall (λ i, hash_function i = index) (chain_isbns (bucket (hash_table s) index)).
Proof.
  intros [_ Hp]. unfold bucket.
  destruct (hash_table s !! index) as [c|] eqn:Hc; [by apply Hp|].
  split; [apply NoDup_nil_2|apply Forall_nil_2].
Qed.

Lemma placed_empty_store : placed empty_store.
Proof.
  split; [apply length_replicate|]. intros index c Hc.
  unfold empty_store in Hc. cbn [hash_table] in Hc.
  apply lookup_replicate in Hc as [-> _].
  split; [apply NoDup_nil_2|apply Forall_nil_2].
Qed.

Lemma placed_users s us root nid :
  placed s →
  placed {| hash_table := hash_table s; user_list := us;
            title_bst_root := root; next_user_id := nid |}.
Proof. done. Qed.

Lemma placed_update f index k s us root nid :
  (∀ b, isbn (f b) = isbn b) →
  placed s →
  placed {| hash_table := update_book f index k (hash_table s);
            user_list := us; title_bst_root := root; next_user_id := nid |}.
Proof.
  intros Hf [Hlen Hp]. split; cbn.
  { by rewrite length_update_book. }
  intros j c Hc. unfold update_book in Hc.
  rewrite list_lookup_alter in Hc. case_decide as Hj.
  - subst j. destruct (hash_table s !! index) as [c0|] eqn:Hc0; simplify_eq/=.
    rewrite chain_isbns_alter by done. by apply Hp.
  - by apply Hp.
Qed.

Lemma placed_insert p nb s root :
  placed s →
  chain_find (isbn nb) (bucket (hash_table s) (hash_function (isbn nb))) = None →
  placed {| hash_table :=
              <[hash_function (isbn nb) :=
                  (p, nb) :: bucket (hash_table s) (hash_function (isbn nb))]>
                (hash_table s);
            user_list := user_list s; title_bst_root := root;
            next_user_id := next_user_id s |}.
Proof.
  intros Hs Hnone. pose proof Hs as [Hlen Hp]. split; cbn.
  { by rewrite length_insert. }
  intros j c Hc. apply list_lookup_insert_Some in Hc as [(<- & <- & _)|[_ Hc]].
  - destruct (placed_bucket s (hash_function (isbn nb)) Hs) as [Hnd Hall].
    unfold chain_isbns in *. rewrite fmap_cons. split.
    + apply NoDup_cons. split; [|done]. by apply chain_find_None.
    + by apply Forall_cons.
  - by apply Hp.
Qed.

Lemma placed_delete key k s :
  placed s →
  placed {| hash_table :=
              <[hash_function key :=
                  delete k (bucket (hash_table s) (hash_function key))]>
                (hash_table s);
            user_list := user_list s; title_bst_root := title_bst_root s;
            next_user_id := next_user_id s |}.
Proof.
  intros Hs. pose proof Hs as [Hlen Hp]. split; cbn.
  { by rewrite length_insert. }
  intros j c Hc. apply list_lookup_insert_Some in Hc as [(<- & <- & _)|[_ Hc]].
  - destruct (placed_bucket s (hash_function key) Hs) as [Hnd Hall].
    unfold chain_isbns in *. rewrite list_fmap_delete. split.
    + eapply sublist_NoDup; [exact Hnd|apply sublist_delete].
    + by apply Forall_delete.
  - by apply Hp.
Qed.

(** ** What can be found after a change of the table *)

Lemma lookup_book_snd key s :
  lookup_book key s = snd <$> (snd <$> search_book_by_isbn key s).
Proof. unfold lookup_book. by destruct (search_book_by_isbn key s) as [[? [? ?]]|]. Qed.

Lemma lookup_book_users s us root nid key :
  lookup_book key {| hash_table := hash_table s; user_list := us;
                     title_bst_root := root; next_user_id := nid |}
  = lookup_book key s.
Proof. done. Qed.

Lemma lookup_book_insert p nb s root key :
  placed s →
  lookup_book key
    {| hash_table :=
         <[hash_function (isbn nb) :=
             (p, nb) :: bucket (hash_table s) (hash_function (isbn nb))]>
           (hash_table s);
       user_list := user_list s; title_bst_root := root;
       next_user_id := next_user_id s |}
  = if decide (key = isbn nb) then Some nb else lookup_book key s.
Proof.
  intros [Hlen _]. unfold lookup_book, search_book_by_isbn. cbn [hash_table].
  rewrite bucket_insert by (rewrite Hlen; apply hash_function_lt).
  destruct (decide (key = isbn nb)) as [->|Hk].
  - rewrite decide_True by done. by rewrite chain_find_cons, decide_True.
  - case_decide as Hh; [|done].
    rewrite chain_find_cons, decide_False by (cbn; congruence).
    rewrite <- Hh, <- option_fmap_compose.
    by destruct (chain_find key _) as [[? ?]|].
Qed.

Lemma lookup_book_delete key0 k n s key :
  placed s →
  chain_find key0 (bucket (hash_table s) (hash_function key0)) = Some (k, n) →
  lookup_book key
    {| hash_table :=
         <[hash_function key0 :=
             delete k (bucket (hash_table s) (hash_function key0))]>
           (hash_table s);
       user_list := user_list s; title_bst_root := title_bst_root s;
       next_user_id := next_user_id s |}
  = if decide (key = key0) then None else lookup_book key s.
Proof.
  intros Hs Hfind. pose proof Hs as [Hlen _].
  rewrite !lookup_book_snd. unfold search_book_by_isbn. cbn [hash_table].
  rewrite bucket_insert by (rewrite Hlen; apply hash_function_lt).
  case_decide as Hh.
  - rewrite <- Hh.
    rewrite (chain_find_delete key0 key k n) by (by apply placed_bucket || done).
    by case_decide.
  - rewrite decide_False; [done|]. by intros ->.
Qed.

Lemma lookup_book_update f key0 bi p b s us root nid key :
  (∀ b, isbn (f b) = isbn b) →
  search_book_by_isbn key0 s = Some (bi, (p, b)) →
  lookup_book key
    {| hash_table := update_book f (hash_function key0) bi (hash_table s);
       user_list := us; title_bst_root := root; next_user_id := nid |}
  = if decide (key = key0) then Some (f b) else lookup_book key s.
Proof.
  intros Hf Hfind. unfold lookup_book, search_book_by_isbn in *. cbn [hash_table].
  unfold update_book. rewrite bucket_alter by done.
  destruct (decide (key = key0)) as [->|Hk].
  - rewrite decide_True by done. rewrite chain_find_alter, Hfind by done.
    cbn. by rewrite decide_True.
  - case_decide as Hh; [|done]. rewrite chain_find_alter by done.
    rewrite <- Hh in *.
    destruct (chain_find key _) as [[j [q x]]|] eqn:Hkey; [|done].
    cbn. case_decide as Hj; [|done]. cbn in Hj. subst j.
    apply chain_find_Some in Hkey as [Hl1 Hi1].
    apply chain_find_Some in Hfind as [Hl2 Hi2]. simplify_eq/=.
Qed.

(** ** Counting loans *)

Lemma occurrences_cons key x l :
  occurrences key (x :: l) =
  ((if decide (x = key) then 1 else 0) + occurrences key l)%nat.
Proof. unfold occurrences. rewrite filter_cons. by case_decide. Qed.

Lemma occurrences_app key l1 l2 :
  occurrences key (l1 ++ l2) = (occurrences key l1 + occurrences key l2)%nat.
Proof. unfold occurrences. by rewrite filter_app, length_app. Qed.

Lemma occurrences_delete key l idx x :
  l !! idx = Some x →
  occurrences key l =
  ((if decide (x = key) then 1 else 0) + occurrences key (delete idx l))%nat.
Proof.
  revert idx. induction l as [|y l IH]; intros [|idx] Hx; simplify_eq/=.
  - by rewrite occurrences_cons.
  - rewrite !occurrences_cons, (IH idx Hx). lia.
Qed.

Lemma occurrences_elem key l : key ∈ l ↔ (0 < occurrences key l)%nat.
Proof.
  induction l as [|x l IH].
  - split; [by intros ?%elem_of_nil|cbn; lia].
  - rewrite elem_of_cons, occurrences_cons, IH.
    case_decide; split; intros; try lia; auto. destruct H0; [congruence|lia].
Qed.

Lemma loans_alter key l ui u (us : list User) :
  us !! ui = Some u →
  (occurrences key (alter (set_borrowed l) ui us ≫= borrowed_books)
   + occurrences key (borrowed_books u)
   = occurrences key (us ≫= borrowed_books) + occurrences key l)%nat.
Proof.
  revert ui. induction us as [|v us IH]; intros [|ui] Hu; simplify_eq/=.
  - rewrite !occurrences_app. lia.
  - rewrite !occurrences_app. specialize (IH ui Hu).
    change (list_alter (set_borrowed l) ui us) with (alter (set_borrowed l) ui us).
    lia.
Qed.

Lemma loans_delete k u (us : list User) :
  us !! k = Some u → borrowed_books u = [] →
  delete k us ≫= borrowed_books = us ≫= borrowed_books.
Proof.
  revert k. induction us as [|v us IH]; intros [|k] Hu Hb; simplify_eq/=.
  - by rewrite Hb.
  - f_equal. by apply IH.
Qed.

(** ** The second loop of [return_book] deletes one entry *)

Lemma shift_loop_spec steps i (a : list string) :
  (i + steps < length a)%nat →
  shift_loop steps i a = take i a ++ take steps (drop (S i) a) ++ drop (i + steps) a.
Proof.
  revert i a. induction steps as [|steps IH]; intros i a Hlen.
  - rewrite Nat.add_0_r, take_0. cbn [shift_loop app]. by rewrite take_drop.
  - cbn [shift_loop].
    destruct (a !! S i) as [x|] eqn:Hx.
    2: { apply lookup_ge_None in Hx. lia. }
    rewrite IH by (rewrite length_insert; lia).
    rewrite !drop_insert_lt by lia.
    rewrite (take_S_r (<[i:=x]> a) i x) by (apply list_lookup_insert_eq; lia).
    rewrite take_insert_ge by lia.
    rewrite (drop_S a x (S i)) by done. cbn [take].
    replace (i + S steps)%nat with (S i + steps)%nat by lia.
    by rewrite <- app_assoc.
Qed.

Lemma remove_borrowed_delete idx (a : list string) :
  (idx < length a)%nat → remove_borrowed idx a = delete idx a.
Proof.
  intros Hlt. unfold remove_borrowed.
  rewrite shift_loop_spec by lia.
  replace (idx + (length a - 1 - idx))%nat with (length a - 1)%nat by lia.
  rewrite (take_ge (drop (S idx) a)) by (rewrite length_drop; lia).
  rewrite app_assoc, take_app_le.
  2: { rewrite length_app, length_take, length_drop. lia. }
  rewrite take_ge by (rewrite length_app, length_take, length_drop; lia).
  by rewrite delete_take_drop.
Qed.

Lemma found_idx_Some key (l : list string) idx :
  found_idx key l = Some idx ↔
  l !! idx = Some key ∧ ∀ j, (j < idx)%nat → l !! j ≠ Some key.
Proof.
  unfold found_idx. split.
  - destruct (list_find _ l) as [[i x]|] eqn:Hf; [|done].
    intros [= <-]. apply list_find_Some in Hf as (Hi & -> & Hlt).
    split; [done|]. intros j Hj Hjk. by apply (Hlt j key).
  - intros [Hi Hlt].
    assert (list_find (λ x, x = key) l = Some (idx, key)) as ->; [|done].
    apply list_find_Some. split_and!; [done..|].
    intros j y Hy Hj ->. by apply (Hlt j).
Qed.

Lemma found_idx_None key (l : list string) :
  found_idx key l = None ↔ key ∉ l.
Proof.
  unfold found_idx. rewrite fmap_None, list_find_None, Forall_forall.
  split.
  - intros H Hin. by apply (H key).
  - intros H x Hx ->. done.
Qed.

(** ** The two outcomes of each operation *)

Lemma issue_book_cases uid key s :
  (issue_book uid key s).2 = s ∨
  ∃ ui u bi p b,
    find_user uid s = Some (ui, u) ∧
    search_book_by_isbn key s = Some (bi, (p, b)) ∧
    available b ≠ 0 ∧ (borrowed_count u < MAX_BORROWED)%nat ∧
    issue_book uid key s =
    (Success,
     {| hash_table := update_book book_issued (hash_function key) bi (hash_table s);
        user_list := alter (set_borrowed (borrowed_books u ++ [key])) ui (user_list s);
        title_bst_root := title_bst_root s;
        next_user_id := next_user_id s |}).
Proof.
  unfold issue_book.
  destruct (find_user uid s) as [[ui u]|]; [|by left].
  destruct (search_book_by_isbn key s) as [[bi [p b]]|]; [|by left].
  destruct (Z.eqb_spec (available b) 0); [by left|].
  case_decide; [by left|]. right. exists ui, u, bi, p, b.
  split_and!; try done. lia.
Qed.

Lemma return_book_cases uid key s :
  (return_book uid key s).2 = s ∨
  ∃ ui u bi p b idx,
    find_user uid s = Some (ui, u) ∧
    search_book_by_isbn key s = Some (bi, (p, b)) ∧
    found_idx key (borrowed_books u) = Some idx ∧
    return_book uid key s =
    (Success,
     {| hash_table := update_book book_returned (hash_function key) bi (hash_table s);
        user_list :=
          alter (set_borrowed (remove_borrowed idx (borrowed_books u))) ui (user_list s);
        title_bst_root := title_bst_root s;
        next_user_id := next_user_id s |}).
Proof.
  unfold return_book.
  destruct (find_user uid s) as [[ui u]|]; [|by left].
  destruct (search_book_by_isbn key s) as [[bi [p b]]|]; [|by left].
  destruct (found_idx key (borrowed_books u)) as [idx|] eqn:Hidx; [|by left].
  right. by exists ui, u, bi, p, b, idx.
Qed.

Lemma remove_book_cases key s :
  (remove_book key s).2 = s ∨
  ∃ k p b,
    chain_find key (bucket (hash_table s) (hash_function key)) = Some (k, (p, b)) ∧
    available b ≠ 0 ∧
    remove_book key s =
    (Success,
     {| hash_table :=
          <[hash_function key := delete k (bucket (hash_table s) (hash_function key))]>
            (hash_table s);
        user_list := user_list s;
        title_bst_root := title_bst_root s;
        next_user_id := next_user_id s |}).
Proof.
  unfold remove_book.
  destruct (chain_find key _) as [[k [p b]]|]; [|by left].
  destruct (Z.eqb_spec (available b) 0); [by left|].
  right. by exists k, p, b.
Qed.

Lemma remove_user_cases uid s :
  (remove_user uid s).2 = s ∨
  ∃ k u,
    find_user uid s = Some (k, u) ∧ borrowed_books u = [] ∧
    remove_user uid s =
    (Success,
     {| hash_table := hash_table s;
        user_list := delete k (user_list s);
        title_bst_root := title_bst_root s;
        next_user_id := next_user_id s |}).
Proof.
  unfold remove_user.
  destruct (find_user uid s) as [[k u]|]; [|by left].
  case_decide as Hc; [by left|]. right. exists k, u. split_and!; try done.
  unfold borrowed_count in Hc. destruct (borrowed_books u); [done|cbn in Hc; lia].
Qed.

Lemma insert_book_cases p nb s :
  insert_book p nb s = (DuplicateIsbn, s) ∨
  chain_find (isbn nb) (bucket (hash_table s) (hash_function (isbn nb))) = None ∧
  ∃ root,
    insert_book p nb s =
    (Success,
     {| hash_table :=
          <[hash_function (isbn nb) :=
              (p, nb) :: bucket (hash_table s) (hash_function (isbn nb))]>
            (hash_table s);
        user_list := user_list s;
        title_bst_root := root;
        next_user_id := next_user_id s |}).
Proof.
  unfold insert_book.
  destruct (chain_find (isbn nb) _); [by left|].
  right. split; [done|]. by eexists.
Qed.

(** ** The invariant of the runs *)

Lemma consistent_empty_store : consistent empty_store.
Proof.
  intros key. unfold lookup_book, search_book_by_isbn, bucket.
  unfold empty_store at 1. cbn [hash_table].
  destruct (replicate HASH_TABLE_SIZE [] !! hash_function key) as [c|] eqn:Hc.
  - apply lookup_replicate in Hc as [-> _]. done.
  - done.
Qed.

Lemma invariant_issue uid key s :
  placed s ∧ consistent s →
  placed (issue_book uid key s).2 ∧ consistent (issue_book uid key s).2.
Proof.
  intros [Hp Hc].
  destruct (issue_book_cases uid key s)
    as [->|(ui & u & bi & p & b & Hu & Hb & Ha & _ & ->)]; [done|].
  cbn [snd]. split; [by apply placed_update|].
  intros k. rewrite (lookup_book_update _ key bi p b) by done.
  unfold loans. cbn [user_list].
  apply find_user_lookup in Hu as [Hu _].
  pose proof (loans_alter k (borrowed_books u ++ [key]) ui u _ Hu) as Hl.
  rewrite occurrences_app, occurrences_cons in Hl. cbn in Hl.
  specialize (Hc k). unfold loans in Hc.
  destruct (decide (k = key)) as [->|Hk].
  - unfold lookup_book in Hc. rewrite Hb in Hc. cbn in Hc.
    rewrite decide_True in Hl by done. left. split; [done|]. lia.
  - rewrite decide_False in Hl by done.
    destruct (lookup_book k s);
      [destruct Hc as [[? ?]|[? ?]]; [left|right]; split; try done; lia|lia].
Qed.

Lemma invariant_return uid key s :
  placed s ∧ consistent s →
  placed (return_book uid key s).2 ∧ consistent (return_book uid key s).2.
Proof.
  intros [Hp Hc].
  destruct (return_book_cases uid key s)
    as [->|(ui & u & bi & p & b & idx & Hu & Hb & Hidx & ->)]; [done|].
  cbn [snd]. split; [by apply placed_update|].
  intros k. rewrite (lookup_book_update _ key bi p b) by done.
  unfold loans. cbn [user_list].
  apply find_user_lookup in Hu as [Hu _].
  apply found_idx_Some in Hidx as [Hidx _].
  rewrite remove_borrowed_delete by (by eapply lookup_lt_Some).
  pose proof (loans_alter k (delete idx (borrowed_books u)) ui u _ Hu) as Hl.
  rewrite (occurrences_delete k (borrowed_books u) idx key) in Hl by done.
  specialize (Hc k). unfold loans in Hc.
  destruct (decide (k = key)) as [->|Hk].
  - unfold lookup_book in Hc. rewrite Hb in Hc. cbn in Hc.
    rewrite decide_True in Hl by done. right. split; [done|]. lia.
  - rewrite decide_False in Hl by done.
    destruct (lookup_book k s);
      [destruct Hc as [[? ?]|[? ?]]; [left|right]; split; try done; lia|lia].
Qed.

Lemma invariant_remove_book key s :
  placed s ∧ consistent s →
  placed (remove_book key s).2 ∧ consistent (remove_book key s).2.
Proof.
  intros [Hp Hc].
  destruct (remove_book_cases key s) as [->|(k & p & b & Hf & Ha & ->)]; [done|].
  cbn [snd]. split; [by apply placed_delete|].
  intros k'. rewrite (lookup_book_delete key k (p, b)) by done.
  specialize (Hc k'). case_decide as Hk; [|done].
  subst k'. unfold lookup_book, search_book_by_isbn in Hc. rewrite Hf in Hc.
  cbn in Hc. unfold loans in *. cbn [user_list]. lia.
Qed.

Lemma invariant_remove_user uid s :
  placed s ∧ consistent s →
  placed (remove_user uid s).2 ∧ consistent (remove_user uid s).2.
Proof.
  intros [Hp Hc].
  destruct (remove_user_cases uid s) as [->|(k & u & Hu & Hb & ->)]; [done|].
  cbn [snd]. split; [by apply placed_users|].
  intros key. rewrite lookup_book_users. unfold loans. cbn [user_list].
  apply find_user_lookup in Hu as [Hu _].
  rewrite (loans_delete k u) by done. apply Hc.
Qed.

Lemma invariant_add_user n s :
  placed s ∧ consistent s →
  placed (add_user n s) ∧ consistent (add_user n s).
Proof.
  intros [Hp Hc]. split; [by apply placed_users|].
  intros key. unfold add_user. rewrite lookup_book_users. apply Hc.
Qed.

Lemma invariant_insert_book p nb s :
  available nb = 1 →
  placed s ∧ consistent s →
  placed (insert_book p nb s).2 ∧ consistent (insert_book p nb s).2.
Proof.
  intros Ha [Hp Hc].
  destruct (insert_book_cases p nb s) as [->|(Hnone & root & ->)]; [done|].
  cbn [snd]. split; [by apply placed_insert|].
  intros key. rewrite lookup_book_insert by done.
  specialize (Hc key). unfold loans in *. cbn [user_list].
  case_decide as Hk; [|done].
  subst key. unfold lookup_book, search_book_by_isbn in Hc. rewrite Hnone in Hc.
  right. by split.
Qed.

Lemma invariant_exec o s s' :
  exec o s = Some s' →
  placed s ∧ consistent s → placed s' ∧ consistent s'.
Proof.
  intros He Hs. destruct o; cbn in He.
  - case_decide; [|done]. simplify_eq. by apply invariant_insert_book.
  - simplify_eq. by apply invariant_remove_book.
  - simplify_eq. by apply invariant_add_user.
  - simplify_eq. by apply invariant_remove_user.
  - simplify_eq. by apply invariant_issue.
  - simplify_eq. by apply invariant_return.
Qed.

Lemma invariant_run ops s s' :
  run ops s = Some s' →
  placed s ∧ consistent s → placed s' ∧ consistent s'.
Proof.
  revert s. induction ops as [|o ops IH]; intros s Hr Hs; simplify_eq/=; [done|].
  destruct (exec o s) as [s1|] eqn:He; simplify_eq/=.
  eapply IH; [done|]. by eapply invariant_exec.
Qed.

Lemma reachable_invariant s : reachable s → placed s ∧ consistent s.
Proof.
  intros [ops Hr]. eapply invariant_run; [done|].
  split; [apply placed_empty_store|apply consistent_empty_store].
Qed.

(** ** Stored books, and who holds them *)

Lemma elem_of_all_nodes s n :
  n ∈ all_nodes s ↔ ∃ index c, hash_table s !! index = Some c ∧ n ∈ c.
Proof.
  unfold all_nodes. induction (hash_table s) as [|c0 tbl IH]; cbn [concat].
  - split; [by intros ?%elem_of_nil|by intros (? & ? & ? & _)].
  - rewrite elem_of_app, IH. split.
    + intros [Hn|(index & c & Hc & Hn)].
      * by exists 0%nat, c0.
      * by exists (S index), c.
    + intros ([|index] & c & Hc & Hn); simplify_eq/=; [by left|].
      right. by exists index, c.
Qed.

Lemma stored_search s n :
  placed s → n ∈ all_nodes s →
  ∃ k, search_book_by_isbn (isbn n.2) s = Some (k, n).
Proof.
  intros [_ Hp] (index & c & Hc & Hn)%elem_of_all_nodes.
  destruct (Hp index c Hc) as [Hnd Hall].
  apply list_elem_of_lookup_1 in Hn as [k Hk]. exists k.
  unfold search_book_by_isbn.
  assert (hash_function (isbn n.2) = index) as ->.
  { rewrite Forall_forall in Hall. apply Hall. unfold chain_isbns.
    apply list_elem_of_fmap. exists n. split; [done|].
    by eapply list_elem_of_lookup_2. }
  rewrite (bucket_lookup _ _ c) by done. by apply chain_find_unique.
Qed.

Lemma stored_lookup s n :
  placed s → n ∈ all_nodes s → lookup_book (isbn n.2) s = Some n.2.
Proof.
  intros Hp Hn. destruct (stored_search s n Hp Hn) as [k Hk].
  unfold lookup_book. by rewrite Hk.
Qed.

Lemma holders_nil key s :
  holders key s = [] ↔ occurrences key (loans s) = 0%nat.
Proof.
  unfold holders, loans. induction (user_list s) as [|u us IH]; [done|].
  rewrite bind_cons, occurrences_app, filter_cons.
  pose proof (occurrences_elem key (borrowed_books u)) as Hu.
  case_decide as Hk.
  - split; [done|]. apply Hu in Hk. lia.
  - rewrite IH. split; [|lia]. intros ->.
    destruct (occurrences key (borrowed_books u)) eqn:Ho; [done|].
    destruct Hk. apply Hu. lia.
Qed.

Lemma holders_one key s :
  occurrences key (loans s) = 1%nat → length (holders key s) = 1%nat.
Proof.
  destruct s as [tbl us root nid]. unfold holders, loans. cbn [user_list].
  induction us as [|u us IH]; [done|].
  rewrite bind_cons, occurrences_app, !filter_cons.
  pose proof (occurrences_elem key (borrowed_books u)) as Hu.
  pose proof (holders_nil key (mkState tbl us root nid)) as Hnil.
  unfold holders, loans in Hnil. cbn [user_list] in Hnil.
  case_decide as Hk; intros Hone.
  - apply Hu in Hk. cbn [length]. f_equal.
    apply length_zero_iff_nil, Hnil. lia.
  - destruct (occurrences key (borrowed_books u)) eqn:Ho.
    + by apply IH.
    + destruct Hk. apply Hu. lia.
Qed.

(** C1. In every store reached from the empty one by adding and removing
    books and users, issuing and returning, a stored book is unavailable
    exactly when one user's borrowed list contains its ISBN, and available
    exactly when no user's does. *)
Theorem availability_matches_loans (s : State) (n : addr * Book) :
  reachable s → n ∈ all_nodes s →
  (available n.2 = 0 ↔ length (holders (isbn n.2) s) = 1%nat) ∧
  (available n.2 ≠ 0 ↔ holders (isbn n.2) s = []).
Proof.
  intros [Hp Hc]%reachable_invariant Hn.
  specialize (Hc (isbn n.2)). rewrite (stored_lookup s n) in Hc by done.
  pose proof (holders_nil (isbn n.2) s) as Hnil.
  pose proof (holders_one (isbn n.2) s) as Hone.
  destruct Hc as [[Ha Ho]|[Ha Ho]]; rewrite Ha.
  - split; split; try done.
    + intros _. by apply Hone.
    + intros Hh. apply Hnil in Hh. lia.
  - apply Hnil in Ho. rewrite Ho. split; split; try done.
Qed.

(** ** The sample runs *)

Lemma loan_store_run : run loan_ops empty_store = Some loan_store.
Proof. vm_compute. reflexivity. Qed.

Lemma full_store_run : run full_ops empty_store = Some full_store.
Proof. vm_compute. reflexivity. Qed.

Lemma removed_store_run : run removed_ops empty_store = Some removed_store.
Proof. vm_compute. reflexivity. Qed.

Lemma loan_store_reachable : reachable loan_store.
Proof. exists loan_ops. apply loan_store_run. Qed.

Lemma full_store_reachable : reachable full_store.
Proof. exists full_ops. apply full_store_run. Qed.

(** The hash of an ISBN, by hand: ((49 * 31 + 49) * 31 + 49) mod 101. *)
Example hash_function_111 : hash_function "111" = 76%nat.
Proof. reflexivity. Qed.

(** A book is added and issued, returned, and returned once more. *)
Example loan_cycle :
  lookup_book "111" loan_store = Some (mkBook "111" "Go" "A" "Tech" 0 1) ∧
  (return_book 1001 "111" loan_store).1 = Success ∧
  lookup_book "111" (return_book 1001 "111" loan_store).2
    = Some (mkBook "111" "Go" "A" "Tech" 1 1) ∧
  (return_book 1001 "111" (return_book 1001 "111" loan_store).2).1
    = NotBorrowedByUser.
Proof. by vm_compute. Qed.

(** Each refusal of [issue_book], in the order of its tests. *)
Example issue_refusals :
  (issue_book 1002 "999" spare_store).1 = UserNotFound ∧
  (issue_book 1001 "999" spare_store).1 = BookNotFound ∧
  (issue_book 1001 "0" spare_store).1 = BookUnavailable ∧
  (issue_book 1001 "10" spare_store).1 = BorrowLimitReached.
Proof. by vm_compute. Qed.

Lemma availability_matches_loans_witness :
  (available (mkBook "111" "Go" "A" "Tech" 0 1) = 0 ↔
     length (holders "111" loan_store) = 1%nat) ∧
  (available (mkBook "111" "Go" "A" "Tech" 0 1) ≠ 0 ↔
     holders "111" loan_store = []).
Proof.
  apply (availability_matches_loans loan_store
           (7%nat, mkBook "111" "Go" "A" "Tech" 0 1)).
  - apply loan_store_reachable.
  - vm_compute. constructor.
Defined.

Lemma issue_return_frame_witness :
  ∃ ui u bi p b u' b',
    find_user 1001 loan_store = Some (ui, u) ∧
    search_book_by_isbn "111" loan_store = Some (bi, (p, b)) ∧
    length (user_list (return_book 1001 "111" loan_store).2) = length (user_list loan_store) ∧
    (∀ j, j ≠ ui →
       user_list (return_book 1001 "111" loan_store).2 !! j = user_list loan_store !! j) ∧
    user_list (return_book 1001 "111" loan_store).2 !! ui = Some u' ∧
    user_id u' = user_id u ∧ user_name u' = user_name u ∧
    length (hash_table (return_book 1001 "111" loan_store).2) = length (hash_table loan_store) ∧
    (∀ j, (bucket (hash_table (return_book 1001 "111" loan_store).2) j).*1
          = (bucket (hash_table loan_store) j).*1) ∧
    (∀ j i, (j, i) ≠ (hash_function "111", bi) →
       bucket (hash_table (return_book 1001 "111" loan_store).2) j !! i
       = bucket (hash_table loan_store) j !! i) ∧
    bucket (hash_table (return_book 1001 "111" loan_store).2) (hash_function "111") !! bi
      = Some (p, b') ∧
    isbn b' = isbn b ∧ title b' = title b ∧
    author b' = author b ∧ genre b' = genre b ∧
    title_bst_root (return_book 1001 "111" loan_store).2 = title_bst_root loan_store ∧
    next_user_id (return_book 1001 "111" loan_store).2 = next_user_id loan_store.
Proof.
  apply (issue_return_frame 1001 "111" loan_store).
  right. vm_compute. reflexivity.
Defined.

(** ** The user and the book after a success *)

Lemma find_user_alter uid l ui u s tbl root nid :
  find_user uid s = Some (ui, u) →
  find_user uid {| hash_table := tbl;
                   user_list := alter (set_borrowed l) ui (user_list s);
                   title_bst_root := root; next_user_id := nid |}
  = Some (ui, set_borrowed l u).
Proof.
  intros Hu. unfold find_user in *. cbn [user_list].
  rewrite list_find_alter by done. rewrite Hu. cbn. by rewrite decide_True.
Qed.

Lemma search_book_update f key bi p b s us root nid :
  (∀ b, isbn (f b) = isbn b) →
  search_book_by_isbn key s = Some (bi, (p, b)) →
  search_book_by_isbn key
    {| hash_table := update_book f (hash_function key) bi (hash_table s);
       user_list := us; title_bst_root := root; next_user_id := nid |}
  = Some (bi, (p, f b)).
Proof.
  intros Hf Hb. unfold search_book_by_isbn in *. cbn [hash_table].
  unfold update_book. rewrite bucket_alter, decide_True by done.
  rewrite chain_find_alter, Hb by done. cbn. by rewrite decide_True.
Qed.

Lemma occurrences_user key ui u (us : list User) :
  us !! ui = Some u →
  (occurrences key (borrowed_books u) ≤ occurrences key (us ≫= borrowed_books))%nat.
Proof.
  revert ui. induction us as [|v us IH]; intros [|ui] Hu; simplify_eq/=.
  - rewrite occurrences_app. lia.
  - rewrite occurrences_app. specialize (IH ui Hu). lia.
Qed.

(** ** Return *)



(** ** Adding a book whose ISBN is taken *)

(** C6. In a well-shaped table, [insert_book] of a record whose ISBN is that
    of a stored book reports the duplicate and returns the store it was
    given: no book is added, and no field of any record changes. *)
Theorem insert_book_duplicate_noop (p : addr) (new_book : Book) (s : State)
    (n : addr * Book) :
  placed s → n ∈ all_nodes s → isbn n.2 = isbn new_book →
  insert_book p new_book s = (DuplicateIsbn, s).
Proof.
  intros Hp Hn Heq. destruct (stored_search s n Hp Hn) as [k Hk].
  unfold insert_book. unfold search_book_by_isbn in Hk.
  rewrite <- Heq. by rewrite Hk.
Qed.

Lemma insert_book_duplicate_noop_witness :
  insert_book 8%nat (mkBook "111" "Other" "B" "Art" 1 0) loan_store
  = (DuplicateIsbn, loan_store).
Proof.
  apply (insert_book_duplicate_noop 8%nat (mkBook "111" "Other" "B" "Art" 1 0)
           loan_store (7%nat, mkBook "111" "Go" "A" "Tech" 0 1)).
  - apply reachable_invariant, loan_store_reachable.
  - vm_compute. constructor.
  - reflexivity.
Defined.

(** ** The borrow limit *)

Lemma borrow_limit_run ops s s' :
  run ops s = Some s' →
  Forall (λ u, (borrowed_count u ≤ MAX_BORROWED)%nat) (user_list s) →
  Forall (λ u, (borrowed_count u ≤ MAX_BORROWED)%nat) (user_list s').
Proof.
  revert s. induction ops as [|o ops IH]; intros s Hr Hs; simplify_eq/=; [done|].
  destruct (exec o s) as [s1|] eqn:He; simplify_eq/=.
  eapply IH; [done|]. clear IH Hr. destruct o; cbn in He.
  - case_decide; [|done]. simplify_eq. unfold add_book.
    by destruct (insert_book_cases p (mkBook i t a g 1 0) s) as [->|(_ & root & ->)].
  - simplify_eq.
    by destruct (remove_book_cases key s) as [->|(k & p & b & _ & _ & ->)].
  - simplify_eq. cbn. apply Forall_cons. split; [|done].
    unfold borrowed_count, MAX_BORROWED. cbn. lia.
  - simplify_eq.
    destruct (remove_user_cases uid s) as [->|(k & u & _ & _ & ->)]; [done|].
    by apply Forall_delete.
  - simplify_eq.
    destruct (issue_book_cases uid key s)
      as [->|(ui & u & bi & p & b & Hu & _ & _ & Hlt & ->)]; [done|].
    cbn. apply Forall_alter; [done|]. intros v _.
    unfold borrowed_count in *. cbn. rewrite length_app. cbn. lia.
  - simplify_eq.
    destruct (return_book_cases uid key s)
      as [->|(ui & u & bi & p & b & idx & Hu & _ & Hidx & ->)]; [done|].
    cbn. apply Forall_alter; [done|]. intros v _ _.
    apply find_user_lookup in Hu as [Hu _].
    apply found_idx_Some in Hidx as [Hidx _].
    rewrite Forall_forall in Hs.
    specialize (Hs u (list_elem_of_lookup_2 _ _ _ Hu)).
    unfold borrowed_count in *. cbn.
    rewrite remove_borrowed_delete by (by eapply lookup_lt_Some).
    rewrite length_delete by (by eexists). lia.
Qed.

Lemma reachable_borrow_limit s ui u :
  reachable s → user_list s !! ui = Some u →
  (borrowed_count u ≤ MAX_BORROWED)%nat.
Proof.
  intros [ops Hr] Hu.
  pose proof (borrow_limit_run ops empty_store s Hr (Forall_nil_2 _)) as Hall.
  rewrite Forall_forall in Hall. apply Hall. by eapply list_elem_of_lookup_2.
Qed.

(** C3, as the code has it. For an existing user and a stored book, in a
    store reached by the operations, [issue_book] reports the borrow limit
    exactly when the book is available and the user's borrowed list has
    length 10; when the book is not available it reports that the book is
    unavailable, whatever the length of the list, and returns the store
    unchanged. *)
Theorem issue_limit_reached_iff (uid : Z) (key : string) (s : State)
    (ui : nat) (u : User) (bi : nat) (p : addr) (b : Book) :
  reachable s →
  find_user uid s = Some (ui, u) →
  search_book_by_isbn key s = Some (bi, (p, b)) →
  ((issue_book uid key s).1 = BorrowLimitReached ↔
   available b ≠ 0 ∧ borrowed_count u = MAX_BORROWED) ∧
  (available b = 0 → issue_book uid key s = (BookUnavailable, s)).
Proof.
  intros Hr Hu Hb.
  pose proof (reachable_borrow_limit s ui u Hr (proj1 (find_user_lookup _ _ _ _ Hu))).
  unfold issue_book. rewrite Hu, Hb.
  destruct (Z.eqb_spec (available b) 0) as [Ha|Ha].
  - split; [|done]. split; [done|]. by intros [? _].
  - split; [|done]. case_decide; cbn.
    + split; [|done]. intros _. split; [done|lia].
    + split; [done|]. intros [_ ?]. lia.
Qed.

Lemma spare_store_reachable : reachable spare_store.
Proof. exists spare_ops. vm_compute. reflexivity. Qed.

Lemma issue_limit_reached_iff_witness :
  (((issue_book 1001 "10" spare_store).1 = BorrowLimitReached ↔
    available (mkBook "10" "T" "A" "G" 1 0) ≠ 0 ∧
    borrowed_count (mkUser 1001 "Ann" ten_isbns) = MAX_BORROWED) ∧
   (available (mkBook "10" "T" "A" "G" 1 0) = 0 →
    issue_book 1001 "10" spare_store = (BookUnavailable, spare_store))) ∧
  (((issue_book 1001 "0" full_store).1 = BorrowLimitReached ↔
    available (mkBook "0" "T" "A" "G" 0 1) ≠ 0 ∧
    borrowed_count (mkUser 1001 "Ann" ten_isbns) = MAX_BORROWED) ∧
   (available (mkBook "0" "T" "A" "G" 0 1) = 0 →
    issue_book 1001 "0" full_store = (BookUnavailable, full_store))).
Proof.
  split.
  - apply (issue_limit_reached_iff 1001 "10" spare_store 0%nat
             (mkUser 1001 "Ann" ten_isbns) 0%nat 10%nat (mkBook "10" "T" "A" "G" 1 0)).
    + apply spare_store_reachable.
    + vm_compute. reflexivity.
    + vm_compute. reflexivity.
  - apply (issue_limit_reached_iff 1001 "0" full_store 0%nat
             (mkUser 1001 "Ann" ten_isbns) 0%nat 0%nat (mkBook "0" "T" "A" "G" 0 1)).
    + apply full_store_reachable.
    + vm_compute. reflexivity.
    + vm_compute. reflexivity.
Defined.

(** C3 as stated fails: a user holding ten books who asks for a book that is
    out is told that the book is not available, not that the limit is
    reached. *)
Lemma issue_limit_regardless_counterexample :
  ¬ (∀ uid key s ui u bi p b,
       reachable s →
       find_user uid s = Some (ui, u) →
       search_book_by_isbn key s = Some (bi, (p, b)) →
       ((issue_book uid key s).1 = BorrowLimitReached ↔
        borrowed_count u = MAX_BORROWED)).
Proof.
  intros H.
  specialize (H 1001 "0" full_store 0%nat (mkUser 1001 "Ann" ten_isbns)
                0%nat 0%nat (mkBook "0" "T" "A" "G" 0 1) full_store_reachable).
  destruct H as [_ H]; [by vm_compute..|].
  specialize (H eq_refl). vm_compute in H. discriminate.
Qed.

(** ** The title index after a removal *)

(** C5 fails on the code. [remove_book] never touches the title index, so
    after a book is added and removed the table is empty while the tree
    still holds a node for the freed record. *)
Theorem remove_book_leaves_title_index :
  (∀ key s, title_bst_root (remove_book key s).2 = title_bst_root s) ∧
  run removed_ops empty_store = Some removed_store ∧
  all_nodes removed_store = [] ∧
  title_bst_root removed_store = Some (Node 7%nat Leaf Leaf) ∧
  deref (hash_table removed_store) 7%nat = None.
Proof.
  split.
  { intros key s.
    by destruct (remove_book_cases key s) as [->|(k & p & b & _ & _ & ->)]. }
  by vm_compute.
Qed.

(** ** The most-borrowed report *)

Lemma swap_if_less_cons j a (l : list Book) :
  swap_if_less (S j) (a :: l) = a :: swap_if_less j l.
Proof.
  unfold swap_if_less. cbn [lookup list_lookup].
  change (list_lookup j l) with (l !! j).
  change (list_lookup (S j) l) with (l !! S j).
  destruct (l !! j) as [x|]; [|done]. destruct (l !! S j) as [y|]; [|done].
  by case_match.
Qed.

Lemma bubble_steps_shift a (l : list Book) js :
  foldl (λ bs j, swap_if_less j bs) (a :: l) (S <$> js)
  = a :: foldl (λ bs j, swap_if_less j bs) l js.
Proof.
  revert l. induction js as [|j js IH]; intros l; [done|].
  cbn [fmap list_fmap foldl]. rewrite swap_if_less_cons. apply IH.
Qed.

Lemma bubble_pass_0 (l : list Book) : bubble_pass 0 l = l.
Proof. done. Qed.

Lemma bubble_pass_S k x y (t : list Book) :
  bubble_pass (S k) (x :: y :: t) =
  if borrow_count x <? borrow_count y
  then y :: bubble_pass k (x :: t)
  else x :: bubble_pass k (y :: t).
Proof.
  unfold bubble_pass. cbn [seq foldl]. rewrite <- fmap_S_seq.
  unfold swap_if_less at 2. cbn [lookup list_lookup].
  case_match; cbn [insert list_insert]; apply bubble_steps_shift.
Qed.

Lemma bubble_pass_short k (l : list Book) :
  (length l ≤ 1)%nat → bubble_pass k l = l.
Proof.
  intros Hlen. unfold bubble_pass. induction (seq 0 k) as [|j js IH]; [done|].
  cbn [foldl]. unfold swap_if_less at 2.
  rewrite (lookup_ge_None_2 l (S j)) by lia. by destruct (l !! j).
Qed.

Lemma bubble_pass_perm k (l : list Book) : bubble_pass k l ≡ₚ l.
Proof.
  revert l. induction k as [|k IH]; intros l; [done|].
  destruct l as [|x [|y t]]; [by rewrite bubble_pass_short by (cbn; lia)..|].
  rewrite bubble_pass_S. case_match.
  - rewrite IH. apply perm_swap.
  - by rewrite IH.
Qed.

Lemma bubble_pass_min k (l : list Book) :
  length l = S k →
  ∃ init m,
    bubble_pass k l = init ++ [m] ∧
    ∀ x, x ∈ l → borrow_count m <= borrow_count x.
Proof.
  revert l. induction k as [|k IH]; intros l Hlen.
  - destruct l as [|x [|? ?]]; simplify_eq/=. exists [], x. split; [done|].
    intros y ->%list_elem_of_singleton. lia.
  - destruct l as [|x [|y t]]; simplify_eq/=.
    rewrite bubble_pass_S. case_match eqn:Hxy.
    + apply Z.ltb_lt in Hxy.
      destruct (IH (x :: t)) as (init & m & -> & Hm); [done|].
      exists (y :: init), m. split; [done|].
      intros z [->|[->|Hz]%elem_of_cons]%elem_of_cons.
      * apply Hm, list_elem_of_here.
      * specialize (Hm x (list_elem_of_here _ _)). lia.
      * by apply Hm, list_elem_of_further.
    + apply Z.ltb_ge in Hxy.
      destruct (IH (y :: t)) as (init & m & -> & Hm); [done|].
      exists (x :: init), m. split; [done|].
      intros z [->|[->|Hz]%elem_of_cons]%elem_of_cons.
      * specialize (Hm y (list_elem_of_here _ _)). lia.
      * apply Hm, list_elem_of_here.
      * by apply Hm, list_elem_of_further.
Qed.

Lemma bubble_pass_app k (pre suf : list Book) :
  length pre = S k → bubble_pass k (pre ++ suf) = bubble_pass k pre ++ suf.
Proof.
  revert pre. induction k as [|k IH]; intros pre Hlen; [done|].
  destruct pre as [|x [|y t]]; [done..|].
  cbn [length] in Hlen. injection Hlen as Hlen.
  rewrite <- !app_comm_cons, !bubble_pass_S. case_match.
  - rewrite (app_comm_cons t suf x), IH; [done|]. cbn. by f_equal.
  - rewrite (app_comm_cons t suf y), IH; [done|]. cbn. by f_equal.
Qed.

Lemma length_bubble_pass k (l : list Book) : length (bubble_pass k l) = length l.
Proof. by rewrite bubble_pass_perm. Qed.

(** After [m] rounds of the outer loop the last [m] places are in their
    final order and hold the [m] least borrowed books. *)
Lemma bubble_rounds n m (l : list Book) :
  length l = n → (m ≤ n - 1)%nat →
  ∃ pre suf,
    foldl (λ bs i, bubble_pass (n - i - 1) bs) l (seq 0 m) = pre ++ suf ∧
    length pre = (n - m)%nat ∧
    pre ++ suf ≡ₚ l ∧
    StronglySorted more_borrowed suf ∧
    ∀ x y, x ∈ pre → y ∈ suf → borrow_count y <= borrow_count x.
Proof.
  intros Hn. induction m as [|m IH]; intros Hm.
  - exists l, []. rewrite app_nil_r. split_and!; try done.
    + lia.
    + constructor.
    + by intros x y _ ?%elem_of_nil.
  - destruct IH as (pre & suf & Hfold & Hlen & Hperm & Hsorted & Hle); [lia|].
    rewrite seq_S, foldl_app. cbn [foldl Nat.add]. rewrite Hfold.
    rewrite bubble_pass_app by lia.
    destruct (bubble_pass_min (n - m - 1) pre) as (init & mn & Hpass & Hmin); [lia|].
    pose proof (bubble_pass_perm (n - m - 1) pre) as Hpp. rewrite Hpass in Hpp.
    rewrite Hpass. exists init, (mn :: suf).
    assert (mn ∈ pre) as Hmn.
    { rewrite <- Hpp. apply elem_of_app. right. apply list_elem_of_here. }
    split_and!.
    + by rewrite <- app_assoc.
    + apply (f_equal length) in Hpass.
      rewrite length_bubble_pass, length_app in Hpass. cbn in Hpass. lia.
    + rewrite <- Hperm, <- Hpp. by rewrite <- app_assoc.
    + constructor; [done|]. apply Forall_forall. intros y Hy. by apply Hle.
    + intros x y Hx [->|Hy]%elem_of_cons.
      * apply Hmin. rewrite <- Hpp. apply elem_of_app. by left.
      * apply Hle; [|done]. rewrite <- Hpp. apply elem_of_app. by left.
Qed.

Lemma bubble_sort_sorted (l : list Book) :
  StronglySorted more_borrowed (bubble_sort l) ∧ bubble_sort l ≡ₚ l.
Proof.
  unfold bubble_sort.
  destruct (bubble_rounds (length l) (length l - 1) l)
    as (pre & suf & -> & Hlen & Hperm & Hsorted & Hle); [done..|].
  split; [|done]. destruct pre as [|x [|? ?]].
  - done.
  - constructor; [done|]. apply Forall_forall. intros y Hy.
    apply Hle; [apply list_elem_of_here|done].
  - apply Permutation_length in Hperm. rewrite length_app in Hperm.
    cbn in Hlen, Hperm. lia.
Qed.

Lemma StronglySorted_sublist {A} (R : relation A) (l1 l2 : list A) :
  l1 `sublist_of` l2 → StronglySorted R l2 → StronglySorted R l1.
Proof.
  intros Hsub Hs. revert l1 Hsub. induction Hs as [|x l2 Hs IH Hall]; intros l1 Hsub.
  - apply sublist_nil_r in Hsub as ->. constructor.
  - apply sublist_cons_r in Hsub as [Hsub|(l1' & -> & Hsub)]; [by apply IH|].
    constructor; [by apply IH|].
    rewrite Forall_forall in *. intros y Hy. apply Hall.
    by eapply elem_of_sublist.
Qed.

(** C9. The most-borrowed report shows at most ten books, each with a
    positive borrow count, in non-increasing order of borrow count. *)
Theorem most_borrowed_report (s : State) :
  (length (list_most_borrowed_books s) ≤ 10)%nat ∧
  Forall (λ b, 0 < borrow_count b) (list_most_borrowed_books s) ∧
  StronglySorted more_borrowed (list_most_borrowed_books s).
Proof.
  unfold list_most_borrowed_books.
  destruct (collect_books (hash_table s)) as [|b0 books] eqn:Hcollect.
  { split_and!; [cbn; lia|constructor|constructor]. }
  set (all := b0 :: books).
  set (limit := if decide (length all < 10)%nat then length all else 10%nat).
  cbn zeta. split_and!.
  - etransitivity; [apply length_filter|]. rewrite length_take.
    subst limit. case_decide; lia.
  - apply Forall_forall. by intros b [? _]%list_elem_of_filter.
  - eapply StronglySorted_sublist; [|apply (bubble_sort_sorted all)].
    etransitivity; [apply sublist_filter|apply sublist_take].
Qed.

(** ** Text: strings and characters *)

Lemma string_app_cons c (s t : string) : String c s +:+ t = String c (s +:+ t).
Proof. reflexivity. Qed.

Lemma string_app_nil_l (t : string) : "" +:+ t = t.
Proof. reflexivity. Qed.

Lemma string_app_nil_r (s : string) : s +:+ "" = s.
Proof. induction s as [|c s IH]; [done|]. by rewrite string_app_cons, IH. Qed.

Lemma string_app_assoc (s t u : string) : (s +:+ t) +:+ u = s +:+ (t +:+ u).
Proof. induction s as [|c s IH]; [done|]. by rewrite !string_app_cons, IH. Qed.

Lemma string_length_app (s t : string) :
  String.length (s +:+ t) = (String.length s + String.length t)%nat.
Proof. induction s as [|c s IH]; [done|]. rewrite string_app_cons. cbn. by rewrite IH. Qed.

Lemma all_chars_app P (s t : string) :
  all_chars P (s +:+ t) = all_chars P s && all_chars P t.
Proof.
  induction s as [|c s IH]; [done|]. rewrite string_app_cons. cbn.
  by rewrite IH, andb_assoc.
Qed.

Lemma all_chars_impl (P Q : ascii → bool) (s : string) :
  (∀ c, P c = true → Q c = true) → all_chars P s = true → all_chars Q s = true.
Proof.
  intros HPQ. induction s as [|c s IH]; [done|]. cbn.
  intros [Hc Hs]%andb_true_iff. by rewrite (HPQ c Hc), IH.
Qed.

Lemma clean_no_pipe (f : string) : clean f = true → all_chars (not_char pipe) f = true.
Proof. apply all_chars_impl. by intros c [? _]%andb_true_iff. Qed.

Lemma clean_no_newline (f : string) :
  clean f = true → all_chars (not_char newline) f = true.
Proof. apply all_chars_impl. by intros c [_ ?]%andb_true_iff. Qed.

(** ** Text: reading a line *)

Lemma fgets_chars_line n (body rest : string) :
  all_chars (not_char newline) body = true →
  (String.length body < n)%nat →
  fgets_chars n (body +:+ String newline rest) = (body +:+ String newline "", rest).
Proof.
  revert n. induction body as [|c body IH]; intros n Hnl Hlen.
  - destruct n as [|n]; [cbn in Hlen; lia|]. done.
  - destruct n as [|n]; [cbn in Hlen; lia|].
    cbn in Hnl. apply andb_true_iff in Hnl as [Hc Hnl].
    rewrite !string_app_cons. cbn [fgets_chars].
    unfold not_char in Hc. apply negb_true_iff in Hc. rewrite Hc.
    rewrite IH by (done || cbn in Hlen; lia). done.
Qed.

Lemma fgets_line size (body rest : string) :
  all_chars (not_char newline) body = true →
  (String.length body + 1 < size)%nat →
  fgets size ((body +:+ String newline "") +:+ rest)
  = Some (body +:+ String newline "", rest).
Proof.
  intros Hnl Hlen. rewrite string_app_assoc, string_app_cons, string_app_nil_l.
  unfold fgets.
  destruct (body +:+ String newline rest) as [|c x] eqn:Hx.
  { destruct body; done. }
  rewrite <- Hx. f_equal. apply fgets_chars_line; [done|lia].
Qed.

Lemma chomp_line (body : string) :
  all_chars (not_char newline) body = true →
  chomp (body +:+ String newline "") = body.
Proof.
  induction body as [|c body IH]; [done|]. cbn [all_chars].
  intros [Hc Hnl]%andb_true_iff. rewrite string_app_cons. cbn [chomp].
  unfold not_char in Hc. apply negb_true_iff in Hc. rewrite Hc.
  by rewrite IH.
Qed.

(** ** Text: tokens *)

Lemma span_token_end (tok : string) :
  all_chars (not_char pipe) tok = true → span_token tok = (tok, "").
Proof.
  induction tok as [|c tok IH]; [done|]. cbn [all_chars].
  intros [Hc Hnp]%andb_true_iff. cbn [span_token].
  unfold not_char in Hc. apply negb_true_iff in Hc. rewrite Hc.
  by rewrite IH.
Qed.

Lemma span_token_pipe (tok rest : string) :
  all_chars (not_char pipe) tok = true →
  span_token (tok +:+ String pipe rest) = (tok, rest).
Proof.
  induction tok as [|c tok IH]; [done|]. cbn [all_chars].
  intros [Hc Hnp]%andb_true_iff. rewrite string_app_cons. cbn [span_token].
  unfold not_char in Hc. apply negb_true_iff in Hc. rewrite Hc.
  by rewrite IH.
Qed.

Lemma strtok_end (tok : string) :
  tok ≠ "" → all_chars (not_char pipe) tok = true → strtok tok = Some (tok, "").
Proof.
  intros Hne Hnp. destruct tok as [|c tok]; [done|].
  unfold strtok. pose proof Hnp as Hnp'. cbn [all_chars] in Hnp.
  apply andb_true_iff in Hnp as [Hc _].
  unfold not_char in Hc. apply negb_true_iff in Hc.
  cbn [skip_delims]. rewrite Hc. by rewrite span_token_end.
Qed.

Lemma strtok_pipe (tok rest : string) :
  tok ≠ "" → all_chars (not_char pipe) tok = true →
  strtok (tok +:+ String pipe rest) = Some (tok, rest).
Proof.
  intros Hne Hnp. destruct tok as [|c tok]; [done|].
  unfold strtok. pose proof Hnp as Hnp'. cbn [all_chars] in Hnp.
  apply andb_true_iff in Hnp as [Hc _].
  unfold not_char in Hc. apply negb_true_iff in Hc.
  rewrite string_app_cons. cbn [skip_delims]. rewrite Hc.
  rewrite <- string_app_cons. by rewrite span_token_pipe.
Qed.

(** ** Text: integers *)

Lemma digit_char_spec d :
  0 <= d <= 9 → is_digit (digit_char d) = true ∧ digit_val (digit_char d) = d.
Proof.
  intros Hd.
  assert (d = 0 ∨ d = 1 ∨ d = 2 ∨ d = 3 ∨ d = 4 ∨ d = 5 ∨ d = 6 ∨ d = 7
          ∨ d = 8 ∨ d = 9) as Hcases by lia.
  destruct_or!; subst d; by vm_compute.
Qed.

Lemma is_digit_plain c :
  is_digit c = true →
  not_char pipe c = true ∧ not_char newline c = true ∧ is_space c = false
  ∧ Ascii.eqb c minus = false ∧ Ascii.eqb c plus = false.
Proof.
  destruct c as [[] [] [] [] [] [] [] []]; vm_compute; intros H;
    first [discriminate H | repeat split].
Qed.

Lemma wrap_int_id z : in_int z → wrap_int z = z.
Proof.
  unfold in_int, INT_MIN, INT_MAX, wrap_int. intros Hz.
  rewrite Z.mod_small by lia. lia.
Qed.

Lemma print_digits_chars (P : ascii → bool) fuel n acc :
  (∀ d, 0 <= d <= 9 → P (digit_char d) = true) →
  all_chars P acc = true → all_chars P (print_digits fuel n acc) = true.
Proof.
  intros HP. revert n acc. induction fuel as [|fuel IH]; intros n acc Hacc; [done|].
  cbn [print_digits].
  assert (all_chars P (String (digit_char (n mod 10)) acc) = true) as Hacc'.
  { cbn. rewrite Hacc, HP; [done|]. pose proof (Z.mod_pos_bound n 10). lia. }
  case_match; [done|]. by apply IH.
Qed.

Lemma print_digits_length fuel n acc :
  (String.length (print_digits fuel n acc) ≤ fuel + String.length acc)%nat.
Proof.
  revert n acc. induction fuel as [|fuel IH]; intros n acc; [done|].
  cbn [print_digits]. case_match; [cbn; lia|].
  etransitivity; [apply IH|]. cbn. lia.
Qed.

Lemma print_digits_head fuel n acc c rest :
  is_digit c = true → acc = String c rest →
  ∃ c' rest', print_digits fuel n acc = String c' rest' ∧ is_digit c' = true.
Proof.
  revert n acc c rest. induction fuel as [|fuel IH]; intros n acc c rest Hc ->.
  { by exists c, rest. }
  cbn [print_digits].
  assert (is_digit (digit_char (n mod 10)) = true) as Hd.
  { apply digit_char_spec. pose proof (Z.mod_pos_bound n 10). lia. }
  case_match; [by eexists _, _|]. by eapply IH.
Qed.

Lemma print_digits_S_head fuel n acc :
  ∃ c rest, print_digits (S fuel) n acc = String c rest ∧ is_digit c = true.
Proof.
  cbn [print_digits].
  assert (is_digit (digit_char (n mod 10)) = true) as Hd.
  { apply digit_char_spec. pose proof (Z.mod_pos_bound n 10). lia. }
  case_match; [by eexists _, _|]. by eapply print_digits_head.
Qed.

Lemma atoi_print_digits fuel n acc M v :
  0 <= n < 10 ^ Z.of_nat fuel →
  (∀ a, atoi_digits a acc = a * M + v) →
  atoi_digits 0 (print_digits fuel n acc) = n * M + v.
Proof.
  revert n acc M v. induction fuel as [|fuel IH]; intros n acc M v Hn Hacc.
  { cbn in *. rewrite Hacc. assert (n = 0) as -> by lia. done. }
  cbn [print_digits].
  pose proof (Z.mod_pos_bound n 10) as Hmod.
  destruct (digit_char_spec (n mod 10)) as [Hd Hv]; [lia|].
  assert (∀ a, atoi_digits a (String (digit_char (n mod 10)) acc)
               = a * (10 * M) + (n mod 10 * M + v)) as Hacc'.
  { intros a. cbn [atoi_digits]. rewrite Hd, Hv, Hacc. lia. }
  pose proof (Z.div_mod n 10) as Hdm.
  destruct (Z.ltb_spec n 10) as [Hlt|Hge].
  - rewrite Hacc'. rewrite Z.mod_small by lia. lia.
  - rewrite (IH (n / 10) _ (10 * M) (n mod 10 * M + v)); [lia| |done].
    rewrite Nat2Z.inj_succ, Z.pow_succ_r in Hn by lia.
    split; [apply Z.div_pos; lia|]. apply Z.div_lt_upper_bound; lia.
Qed.

Lemma atoi_value_print_int z : in_int z → atoi_value (print_int z) = z.
Proof.
  intros Hz. pose proof Hz as Hz'. unfold in_int, INT_MIN, INT_MAX in Hz'.
  unfold print_int. destruct (Z.ltb_spec z 0) as [Hneg|Hpos].
  - unfold atoi_value. cbn [skip_spaces].
    change (is_space minus) with false. cbn match.
    change (Ascii.eqb minus minus) with true. cbn match.
    rewrite (atoi_print_digits 10 (- z) "" 1 0).
    + lia.
    + change (10 ^ Z.of_nat 10) with 10000000000. lia.
    + intros a. cbn. lia.
  - destruct (print_digits_S_head 9 z "") as (c & rest & Hp & Hc).
    pose proof (atoi_print_digits 10 z "" 1 0) as Hv.
    rewrite Hp in *. destruct (is_digit_plain c Hc) as (_ & _ & Hs & Hm & Hpl).
    unfold atoi_value. cbn [skip_spaces]. rewrite Hs, Hm, Hpl, Hv.
    + lia.
    + change (10 ^ Z.of_nat 10) with 10000000000. lia.
    + intros a. cbn. lia.
Qed.

Lemma atoi_print_int z : in_int z → atoi (print_int z) = Some z.
Proof.
  intros Hz. unfold atoi. rewrite atoi_value_print_int by done. cbn zeta.
  unfold in_int in Hz.
  destruct (Z.leb_spec INT_MIN z), (Z.leb_spec z INT_MAX); [done|lia..].
Qed.

Lemma print_int_nonempty z : print_int z ≠ "".
Proof.
  unfold print_int. case_match; [done|].
  by destruct (print_digits_S_head 9 z "") as (c & rest & -> & _).
Qed.

Lemma print_int_clean z : clean (print_int z) = true.
Proof.
  unfold print_int, clean. case_match.
  - cbn [all_chars]. change (not_char pipe minus && not_char newline minus) with true.
    cbn [andb]. apply print_digits_chars; [|done].
    intros d Hd. destruct (digit_char_spec d Hd) as [Hdig _].
    by destruct (is_digit_plain _ Hdig) as (-> & -> & _).
  - apply print_digits_chars; [|done].
    intros d Hd. destruct (digit_char_spec d Hd) as [Hdig _].
    by destruct (is_digit_plain _ Hdig) as (-> & -> & _).
Qed.

Lemma print_int_length z : (String.length (print_int z) ≤ 11)%nat.
Proof.
  unfold print_int. case_match.
  - cbn [String.length]. pose proof (print_digits_length 10 (- z) ""). cbn in *. lia.
  - pose proof (print_digits_length 10 z ""). cbn in *. lia.
Qed.

(** ** Reading back one record *)

Example print_int_samples :
  print_int 0 = "0" ∧ print_int 1002 = "1002" ∧
  print_int (-2147483648) = "-2147483648" ∧ atoi "  -12x" = Some (-12) ∧
  atoi "99999999999" = None.
Proof. by vm_compute. Qed.

(** Two adjacent delimiters are one: the line has five tokens, not six. *)
Example blank_genre_line :
  book_fields (mkBook "111" "Go" "A" "" 1 0) = "111|Go|A||1|0" ∧
  parse_book "111|Go|A||1|0" = Malformed ∧
  parse_book "111|Go|A|Tech|1|0" = Parsed_ok (mkBook "111" "Go" "A" "Tech" 1 0).
Proof. by vm_compute. Qed.

Lemma field_ok_spec cap f :
  field_ok cap f = true →
  f ≠ "" ∧ (String.length f < cap)%nat ∧ clean f = true.
Proof.
  unfold field_ok. destruct f as [|c f]; [done|].
  intros [Hlen Hclean]%andb_true_iff. apply Nat.ltb_lt in Hlen. done.
Qed.

Lemma int_ok_spec z : int_ok z = true → in_int z.
Proof. unfold int_ok, in_int. intros [?%Z.leb_le ?%Z.leb_le]%andb_true_iff. lia. Qed.

Lemma next_field_pipe cap f rest :
  field_ok cap f = true →
  next_field cap (f +:+ String pipe rest) = Parsed_ok (f, rest).
Proof.
  intros (Hne & Hlen & Hclean)%field_ok_spec. unfold next_field.
  rewrite strtok_pipe by (done || by apply clean_no_pipe).
  by rewrite decide_True.
Qed.

Lemma next_int_pipe z rest :
  in_int z → next_int (print_int z +:+ String pipe rest) = Parsed_ok (z, rest).
Proof.
  intros Hz. unfold next_int.
  rewrite strtok_pipe
    by (apply print_int_nonempty || apply clean_no_pipe, print_int_clean).
  by rewrite atoi_print_int.
Qed.

Lemma next_int_end z :
  in_int z → next_int (print_int z) = Parsed_ok (z, "").
Proof.
  intros Hz. unfold next_int.
  rewrite strtok_end
    by (apply print_int_nonempty || apply clean_no_pipe, print_int_clean).
  by rewrite atoi_print_int.
Qed.

Lemma parse_book_fields b : book_ok b = true → parse_book (book_fields b) = Parsed_ok b.
Proof.
  unfold book_ok. rewrite !andb_true_iff.
  intros [[[[[Hi Ht] Ha] Hg] Hav%int_ok_spec] Hbc%int_ok_spec].
  unfold parse_book, book_fields.
  rewrite (next_field_pipe _ _ _ Hi). cbn [mbind Parsed_bind].
  rewrite (next_field_pipe _ _ _ Ht). cbn [mbind Parsed_bind].
  rewrite (next_field_pipe _ _ _ Ha). cbn [mbind Parsed_bind].
  rewrite (next_field_pipe _ _ _ Hg). cbn [mbind Parsed_bind].
  rewrite (next_int_pipe _ _ Hav). cbn [mbind Parsed_bind].
  rewrite (next_int_end _ Hbc). cbn [mbind Parsed_bind].
  by destruct b.
Qed.

Lemma book_fields_no_newline b :
  book_ok b = true → all_chars (not_char newline) (book_fields b) = true.
Proof.
  unfold book_ok. rewrite !andb_true_iff.
  intros [[[[[Hi Ht] Ha] Hg] _] _].
  apply field_ok_spec in Hi as (_ & _ & Hi), Ht as (_ & _ & Ht),
    Ha as (_ & _ & Ha), Hg as (_ & _ & Hg).
  unfold book_fields.
  repeat (rewrite all_chars_app; cbn [all_chars];
          change (not_char newline pipe) with true; cbn [andb]).
  rewrite !clean_no_newline by (done || apply print_int_clean). done.
Qed.

Lemma book_fields_length b :
  book_ok b = true → (String.length (book_fields b) + 1 < 512)%nat.
Proof.
  unfold book_ok. rewrite !andb_true_iff.
  intros [[[[[Hi Ht] Ha] Hg] _] _].
  apply field_ok_spec in Hi as (_ & Hi & _), Ht as (_ & Ht & _),
    Ha as (_ & Ha & _), Hg as (_ & Hg & _).
  unfold book_fields.
  repeat (rewrite string_length_app; cbn [String.length]).
  pose proof (print_int_length (available b)).
  pose proof (print_int_length (borrow_count b)).
  unfold MAX_ISBN_LENGTH, MAX_TITLE_LENGTH, MAX_AUTHOR_LENGTH, MAX_GENRE_LENGTH in *.
  lia.
Qed.

Lemma strtok_borrowed tok l :
  tok ≠ "" → all_chars (not_char pipe) tok = true →
  strtok (tok +:+ borrowed_fields l) = Some (tok, borrowed_rest l).
Proof.
  intros Hne Hnp. destruct l as [|i l]; cbn [borrowed_fields foldr borrowed_rest].
  - rewrite string_app_nil_r. by apply strtok_end.
  - by apply strtok_pipe.
Qed.

Lemma parse_borrowed_rest l :
  forallb (field_ok MAX_ISBN_LENGTH) l = true →
  parse_borrowed (length l) (borrowed_rest l) = Parsed_ok l.
Proof.
  induction l as [|i l IH]; [done|]. cbn [forallb length].
  intros [(Hne & Hlen & Hclean)%field_ok_spec Hl]%andb_true_iff.
  cbn [parse_borrowed borrowed_rest].
  rewrite strtok_borrowed by (done || by apply clean_no_pipe).
  rewrite decide_True by done. by rewrite IH.
Qed.

Lemma parse_user_fields u : user_ok u = true → parse_user (user_fields u) = Parsed_ok u.
Proof.
  unfold user_ok. rewrite !andb_true_iff.
  intros [[[Hid%int_ok_spec Hn] Hcnt%Nat.leb_le] Hl].
  unfold parse_user, user_fields.
  rewrite (next_int_pipe _ _ Hid). cbn [mbind Parsed_bind].
  rewrite (next_field_pipe _ _ _ Hn). cbn [mbind Parsed_bind].
  unfold next_int.
  rewrite strtok_borrowed
    by (apply print_int_nonempty || apply clean_no_pipe, print_int_clean).
  unfold MAX_BORROWED in *.
  rewrite atoi_print_int by (unfold in_int, INT_MIN, INT_MAX; lia).
  cbn [mbind Parsed_bind]. rewrite decide_True by lia.
  rewrite Nat2Z.id. unfold borrowed_count. rewrite parse_borrowed_rest by done.
  by destruct u.
Qed.

Lemma borrowed_fields_no_newline l :
  forallb (field_ok MAX_ISBN_LENGTH) l = true →
  all_chars (not_char newline) (borrowed_fields l) = true.
Proof.
  induction l as [|i l IH]; [done|]. cbn [forallb].
  intros [(_ & _ & Hclean)%field_ok_spec Hl]%andb_true_iff.
  cbn [borrowed_fields foldr all_chars].
  change (not_char newline pipe) with true. cbn [andb].
  rewrite all_chars_app, (clean_no_newline _ Hclean). by apply IH.
Qed.

Lemma borrowed_fields_length l :
  forallb (field_ok MAX_ISBN_LENGTH) l = true →
  (String.length (borrowed_fields l) ≤ 20 * length l)%nat.
Proof.
  induction l as [|i l IH]; [done|]. cbn [forallb].
  intros [(_ & Hlen & _)%field_ok_spec Hl]%andb_true_iff.
  cbn [borrowed_fields foldr String.length length].
  rewrite string_length_app. specialize (IH Hl).
  unfold MAX_ISBN_LENGTH, borrowed_fields in *. lia.
Qed.

Lemma user_fields_no_newline u :
  user_ok u = true → all_chars (not_char newline) (user_fields u) = true.
Proof.
  unfold user_ok. rewrite !andb_true_iff.
  intros [[[_ (_ & _ & Hn)%field_ok_spec] _] Hl].
  unfold user_fields.
  repeat (rewrite all_chars_app; cbn [all_chars];
          change (not_char newline pipe) with true; cbn [andb]).
  rewrite ?all_chars_app.
  rewrite !clean_no_newline by (done || apply print_int_clean).
  by rewrite borrowed_fields_no_newline.
Qed.

Lemma user_fields_length u :
  user_ok u = true → (String.length (user_fields u) + 1 < 1024)%nat.
Proof.
  unfold user_ok. rewrite !andb_true_iff.
  intros [[[_ (_ & Hn & _)%field_ok_spec] Hcnt%Nat.leb_le] Hl].
  unfold user_fields.
  repeat (rewrite string_length_app; cbn [String.length]).
  pose proof (print_int_length (user_id u)).
  pose proof (print_int_length (Z.of_nat (borrowed_count u))).
  pose proof (borrowed_fields_length _ Hl).
  unfold MAX_NAME_LENGTH, MAX_BORROWED, borrowed_count in *. lia.
Qed.

(** ** Reading back the users file *)

Lemma users_file_length (us : list User) :
  (length us ≤ String.length (foldr (λ u file, user_line u +:+ file) "" us))%nat.
Proof.
  induction us as [|u us IH]; [done|]. cbn [foldr length].
  unfold user_line at 1. rewrite !string_length_app. cbn [String.length]. lia.
Qed.

Lemma load_users_loop_saved (us : list User) fuel temp mx :
  forallb user_ok us = true → (length us < fuel)%nat →
  ∃ mx',
    load_users_loop fuel (foldr (λ u file, user_line u +:+ file) "" us) temp mx
    = Some (reverse us ++ temp, mx').
Proof.
  revert fuel temp mx. induction us as [|u us IH]; intros fuel temp mx Hok Hfuel.
  - destruct fuel as [|fuel]; [cbn in Hfuel; lia|]. by exists mx.
  - destruct fuel as [|fuel]; [cbn in Hfuel; lia|].
    cbn [forallb] in Hok. apply andb_true_iff in Hok as [Hu Hus].
    cbn [foldr load_users_loop]. unfold user_line at 1.
    rewrite fgets_line by (by apply user_fields_no_newline || by apply user_fields_length).
    rewrite chomp_line by (by apply user_fields_no_newline).
    rewrite parse_user_fields by done.
    destruct (IH fuel (u :: temp)
                (if user_id u >? mx then user_id u else mx) Hus) as [mx' ->].
    { cbn in Hfuel. lia. }
    exists mx'. by rewrite reverse_cons, <- app_assoc.
Qed.

Lemma load_users_saved (s s0 : State) :
  forallb user_ok (user_list s) = true →
  ∃ s',
    load_users_from_file (Some (save_users_to_file s)) s0 = Some s' ∧
    user_list s' = user_list s ∧
    hash_table s' = hash_table s0 ∧
    title_bst_root s' = title_bst_root s0.
Proof.
  intros Hok. unfold load_users_from_file, save_users_to_file.
  destruct (load_users_loop_saved (user_list s)
              (S (String.length (foldr (λ u file, user_line u +:+ file) ""
                                   (user_list s)))) [] 1000 Hok) as [mx' ->].
  { pose proof (users_file_length (user_list s)). lia. }
  cbn. eexists. split; [done|]. cbn. split; [|done].
  rewrite app_nil_r. change (rev_append ?l []) with (reverse l).
  apply reverse_involutive.
Qed.

(** ** Reading back the books file *)

Lemma concat_insert_cons (tbl : list chain) index x :
  (index < length tbl)%nat →
  concat (<[index := x :: bucket tbl index]> tbl) ≡ₚ x :: concat tbl.
Proof.
  revert index. induction tbl as [|c tbl IH]; intros index Hlt; [cbn in Hlt; lia|].
  destruct index as [|index]; [done|].
  cbn [insert list_insert concat]. change (bucket (c :: tbl) (S index)) with (bucket tbl index).
  change (list_insert index ?y tbl) with (<[index := y]> tbl).
  rewrite IH by (cbn in Hlt; lia). by rewrite Permutation_middle.
Qed.

Lemma deref_is_Some (tbl : list chain) q :
  is_Some (deref tbl q) ↔ q ∈ (concat tbl).*1.
Proof.
  unfold deref. rewrite !fmap_is_Some. split.
  - intros [[k n] (Hk & <- & _)%list_find_Some].
    apply list_elem_of_fmap. exists n. split; [done|].
    by eapply list_elem_of_lookup_2.
  - intros (n & -> & Hn)%list_elem_of_fmap.
    by eapply list_find_elem_of.
Qed.

Lemma bst_insert_live (tbl : list chain) p t root :
  Forall (λ q, is_Some (deref tbl q)) (inorder root) →
  ∃ root', bst_insert tbl p t root = Some root' ∧ inorder root' ≡ₚ p :: inorder root.
Proof.
  induction root as [|q l IHl r IHr]; intros Hlive.
  { by exists (Node p Leaf Leaf). }
  cbn [inorder] in Hlive. apply Forall_app in Hlive as [Hl Hqr].
  apply Forall_cons in Hqr as [[b Hq] Hr].
  cbn [bst_insert]. rewrite Hq.
  destruct (IHl Hl) as (l' & Hl' & Hpl). destruct (IHr Hr) as (r' & Hr' & Hpr).
  destruct (strcmp t (title b)).
  - rewrite Hr'. eexists. split; [done|]. cbn [inorder].
    rewrite Hpr, <- !Permutation_middle. apply perm_swap.
  - rewrite Hl'. eexists. split; [done|]. cbn [inorder]. by rewrite Hpl.
  - rewrite Hr'. eexists. split; [done|]. cbn [inorder].
    rewrite Hpr, <- !Permutation_middle. apply perm_swap.
Qed.

Lemma link_book_nodes p b s :
  length (hash_table s) = HASH_TABLE_SIZE →
  all_nodes (link_book p b s) ≡ₚ (p, b) :: all_nodes s ∧
  length (hash_table (link_book p b s)) = HASH_TABLE_SIZE.
Proof.
  intros Hlen. unfold link_book, all_nodes. cbn [hash_table]. split.
  - apply concat_insert_cons. rewrite Hlen. apply hash_function_lt.
  - by rewrite length_insert.
Qed.

Lemma link_book_live p b s :
  length (hash_table s) = HASH_TABLE_SIZE → index_live s →
  index_live (link_book p b s).
Proof.
  intros Hlen (root & Hroot & Hlive).
  destruct (link_book_nodes p b s Hlen) as [Hperm _].
  unfold all_nodes in Hperm. unfold link_book, index_live in *.
  cbn [hash_table title_bst_root] in *.
  set (tbl := <[hash_function (isbn b) :=
                  (p, b) :: bucket (hash_table s) (hash_function (isbn b))]>
                (hash_table s)) in *.
  assert (∀ q, is_Some (deref (hash_table s) q) → is_Some (deref tbl q)) as Hmono.
  { intros q. rewrite !deref_is_Some, Hperm, fmap_cons. apply list_elem_of_further. }
  destruct (bst_insert_live tbl p (title b) root) as (root' & Hins & Hperm').
  { eapply Forall_impl; [exact Hlive|]. done. }
  exists root'. rewrite Hroot. split; [done|].
  rewrite Hperm'. apply Forall_cons. split.
  - rewrite deref_is_Some, Hperm, fmap_cons. apply list_elem_of_here.
  - eapply Forall_impl; [exact Hlive|]. done.
Qed.

Lemma books_file_length (nodes : chain) :
  (length nodes
   ≤ String.length (foldr (λ n file, book_line n.2 +:+ file) "" nodes))%nat.
Proof.
  induction nodes as [|n nodes IH]; [done|]. cbn [foldr length].
  unfold book_line at 1. rewrite !string_length_app. cbn [String.length]. lia.
Qed.

Lemma load_books_loop_saved alloc (nodes : chain) fuel k s :
  forallb book_ok nodes.*2 = true → (length nodes < fuel)%nat →
  length (hash_table s) = HASH_TABLE_SIZE →
  ∃ s',
    load_books_loop fuel alloc k
      (foldr (λ n file, book_line n.2 +:+ file) "" nodes) s = Some s' ∧
    all_books s' ≡ₚ nodes.*2 ++ all_books s ∧
    (index_live s → index_live s').
Proof.
  revert fuel k s. induction nodes as [|n nodes IH]; intros fuel k s Hok Hfuel Hlen.
  - destruct fuel as [|fuel]; [cbn in Hfuel; lia|]. by exists s.
  - destruct fuel as [|fuel]; [cbn in Hfuel; lia|].
    cbn [fmap list_fmap forallb] in Hok. apply andb_true_iff in Hok as [Hn Hnodes].
    cbn [foldr load_books_loop]. unfold book_line at 1.
    rewrite fgets_line by (by apply book_fields_no_newline || by apply book_fields_length).
    rewrite chomp_line by (by apply book_fields_no_newline).
    rewrite parse_book_fields by done.
    destruct (link_book_nodes (alloc k) n.2 s Hlen) as [Hperm1 Hlen1].
    destruct (IH fuel (S k) (link_book (alloc k) n.2 s) Hnodes)
      as (s' & -> & Hperm & Hlive); [cbn in Hfuel; lia|done|].
    exists s'. split; [done|]. split.
    + rewrite Hperm. unfold all_books at 1. rewrite Hperm1.
      rewrite !fmap_cons. cbn [snd].
      change ((all_nodes s).*2) with (all_books s).
      by rewrite <- Permutation_middle.
    + intros Hs. by apply Hlive, link_book_live.
Qed.

Lemma index_live_empty_store : index_live empty_store.
Proof. exists Leaf. split; [done|constructor]. Qed.

Lemma all_books_empty_store : all_books empty_store = [].
Proof. by vm_compute. Qed.

(** ** Saving and reloading *)

(** C7, as the code has it. When every text field of the store is non-empty,
    fits its buffer and holds neither [|] nor a newline, every number is an
    [int], and no user holds more than ten books, saving both files and
    loading them into the empty store gives the same books, as a collection
    of records, and the same users, in the same order. *)
Theorem save_reload_round_trip (alloc : nat → addr) (s : State) :
  storable s →
  ∃ s',
    save_and_reload alloc s = Some s' ∧
    all_books s' ≡ₚ all_books s ∧
    user_list s' = user_list s.
Proof.
  intros [Hbooks Husers]. unfold save_and_reload, load_books_from_file.
  unfold save_books_to_file.
  destruct (load_books_loop_saved alloc (all_nodes s)
              (S (String.length (foldr (λ n file, book_line n.2 +:+ file) ""
                                   (all_nodes s)))) 0 empty_store)
    as (s1 & -> & Hperm & _).
  - done.
  - pose proof (books_file_length (all_nodes s)). lia.
  - apply placed_empty_store.
  - cbn [mbind option_bind].
    destruct (load_users_saved s s1 Husers) as (s' & -> & Hu & Htbl & _).
    exists s'. split; [done|]. split; [|done].
    unfold all_books, all_nodes in *. rewrite Htbl, Hperm.
    change (concat (hash_table empty_store)) with (all_nodes empty_store).
    change ((all_nodes empty_store).*2) with (all_books empty_store).
    by rewrite all_books_empty_store, app_nil_r.
Qed.

Lemma save_reload_round_trip_witness :
  ∃ s',
    save_and_reload sample_alloc loan_store = Some s' ∧
    all_books s' ≡ₚ all_books loan_store ∧
    user_list s' = user_list loan_store.
Proof.
  apply (save_reload_round_trip sample_alloc loan_store).
  split; by vm_compute.
Defined.

(** C7 as stated fails: a book whose genre is empty is written with two
    adjacent delimiters, which are read as one, so its line lacks a field
    and the book is dropped on reload. *)
Lemma save_reload_blank_field_counterexample :
  ¬ (∀ alloc s,
       reachable s →
       ∃ s',
         save_and_reload alloc s = Some s' ∧
         all_books s' ≡ₚ all_books s ∧
         user_list s' ≡ₚ user_list s).
Proof.
  intros H.
  destruct (H sample_alloc blank_genre_store) as (s' & Hs' & Hperm & _).
  { exists blank_genre_ops. by vm_compute. }
  vm_compute in Hs'. injection Hs' as <-.
  apply Permutation_length in Hperm. vm_compute in Hperm. discriminate.
Qed.

(** ** The order of the users *)

Lemma add_users_names names s :
  user_name <$> user_list (add_users names s)
  = reverse names ++ (user_name <$> user_list s).
Proof.
  revert s. induction names as [|n names IH]; intros s; [done|].
  cbn [add_users foldl]. fold (add_users names (add_user n s)).
  rewrite IH, reverse_cons, <- app_assoc. done.
Qed.

(** C8, as the code has it. Users are listed newest first: registering
    [names] one after the other puts them in front of the list in reverse
    order. When every user record is one that the text format carries (an
    [int] id, a name that is not empty, fits its buffer and holds neither
    [|] nor a newline, at most ten borrowed ISBNs of the same kind), saving
    the users and loading the file gives the list back in the order it was
    saved in, so the newest user is still first. *)
Theorem reload_keeps_newest_first (names : list string) (s s0 : State) :
  user_name <$> user_list (add_users names s)
    = reverse names ++ (user_name <$> user_list s) ∧
  (forallb user_ok (user_list (add_users names s)) = true →
   ∃ s',
     load_users_from_file (Some (save_users_to_file (add_users names s))) s0
       = Some s' ∧
     user_list s' = user_list (add_users names s)).
Proof.
  split; [apply add_users_names|]. intros Hok.
  destruct (load_users_saved (add_users names s) s0 Hok) as (s' & Hs' & Hu & _).
  by exists s'.
Qed.

Lemma reload_keeps_newest_first_witness :
  user_name <$> user_list (add_users ["Ann"; "Bob"] empty_store)
    = reverse ["Ann"; "Bob"] ++ (user_name <$> user_list empty_store) ∧
  ∃ s',
    load_users_from_file
      (Some (save_users_to_file (add_users ["Ann"; "Bob"] empty_store))) empty_store
      = Some s' ∧
    user_list s' = user_list (add_users ["Ann"; "Bob"] empty_store).
Proof.
  destruct (reload_keeps_newest_first ["Ann"; "Bob"] empty_store empty_store)
    as [Horder Hreload].
  split; [exact Horder|]. apply Hreload. by vm_compute.
Defined.

(** C8 as stated fails: after Ann and then Bob are registered, saved and
    reloaded, the list starts with Bob, not with Ann. *)
Lemma reload_creation_order_counterexample :
  ¬ (∀ names s',
       load_users_from_file
         (Some (save_users_to_file (add_users names empty_store))) empty_store
         = Some s' →
       user_name <$> user_list s' = names).
Proof.
  intros H. pose proof (H ["Ann"; "Bob"]) as H'.
  vm_compute in H'. specialize (H' _ eq_refl). discriminate.
Qed.

(** * Further properties *)

(** ** The table: bounds, search, insertion, removal *)

Lemma bucket_lookup_Some (tbl : list chain) index k n :
  bucket tbl index !! k = Some n → ∃ c, tbl !! index = Some c ∧ c !! k = Some n.
Proof.
  unfold bucket. destruct (tbl !! index) as [c|]; [|done]. intros Hk. by exists c.
Qed.

(** X1. In every store reached by the operations the table has its 101
    buckets, so the index computed by [hash_function] for any key, which is
    below 101, always selects a bucket of the array. *)
Theorem bucket_index_in_bounds (s : State) (key : string) :
  reachable s →
  (hash_function key < HASH_TABLE_SIZE)%nat ∧
  length (hash_table s) = HASH_TABLE_SIZE ∧
  is_Some (hash_table s !! hash_function key).
Proof.
  intros [[Hlen _] _]%reachable_invariant.
  pose proof (hash_function_lt key) as Hlt.
  split_and!; [done..|]. apply lookup_lt_is_Some. by rewrite Hlen.
Qed.

Lemma bucket_index_in_bounds_witness :
  (hash_function "111" < HASH_TABLE_SIZE)%nat ∧
  length (hash_table loan_store) = HASH_TABLE_SIZE ∧
  is_Some (hash_table loan_store !! hash_function "111").
Proof. apply (bucket_index_in_bounds loan_store "111"), loan_store_reachable. Defined.

Lemma lookup_book_stored (s : State) (key : string) (b : Book) :
  placed s →
  lookup_book key s = Some b ↔ b ∈ all_books s ∧ isbn b = key.
Proof.
  intros Hp. split.
  - unfold lookup_book. destruct (search_book_by_isbn key s) as [[k [p x]]|] eqn:Hs; [|done].
    intros [= <-]. apply search_book_lookup in Hs as [Hk Hi].
    split; [|done]. apply bucket_lookup_Some in Hk as (c & Hc & Hk).
    apply list_elem_of_fmap. exists (p, x). split; [done|].
    apply elem_of_all_nodes. exists (hash_function key), c.
    split; [done|]. by eapply list_elem_of_lookup_2.
  - intros [(n & -> & Hn)%list_elem_of_fmap <-]. by apply stored_lookup.
Qed.

(** X2. In a well-shaped table [search_book_by_isbn] finds exactly the
    stored books: it returns a book for a key precisely when that book is
    stored and has this ISBN, so it returns nothing precisely when no stored
    book has it. *)
Theorem search_finds_stored (s : State) (key : string) (b : Book) :
  placed s →
  (lookup_book key s = Some b ↔ b ∈ all_books s ∧ isbn b = key) ∧
  (lookup_book key s = None ↔ ∀ b', b' ∈ all_books s → isbn b' ≠ key).
Proof.
  intros Hp. split; [by apply lookup_book_stored|]. split.
  - intros Hnone b' Hb' Hi.
    assert (lookup_book key s = Some b') as Hb by (by apply lookup_book_stored).
    congruence.
  - intros Hall. destruct (lookup_book key s) as [b0|] eqn:Hb; [|done].
    exfalso. apply lookup_book_stored in Hb as [Hb0 Hi]; [|done].
    by apply (Hall b0).
Qed.

Lemma search_finds_stored_witness :
  (lookup_book "111" loan_store = Some (mkBook "111" "Go" "A" "Tech" 0 1) ↔
     mkBook "111" "Go" "A" "Tech" 0 1 ∈ all_books loan_store
     ∧ isbn (mkBook "111" "Go" "A" "Tech" 0 1) = "111") ∧
  (lookup_book "111" loan_store = None ↔
     ∀ b', b' ∈ all_books loan_store → isbn b' ≠ "111").
Proof.
  apply (search_finds_stored loan_store "111" (mkBook "111" "Go" "A" "Tech" 0 1)).
  apply reachable_invariant, loan_store_reachable.
Defined.

(** X3. In a table of 101 buckets, [insert_book] of a record whose ISBN
    search does not find succeeds: the record is then found under its ISBN at
    the head of its chain, every other ISBN finds what it found before, the
    stored books are the old ones and the new one, and the users and
    [next_user_id] are as before. *)
Theorem insert_book_then_search (p : addr) (new_book : Book) (s : State) :
  length (hash_table s) = HASH_TABLE_SIZE →
  search_book_by_isbn (isbn new_book) s = None →
  (insert_book p new_book s).1 = Success ∧
  search_book_by_isbn (isbn new_book) (insert_book p new_book s).2
    = Some (0%nat, (p, new_book)) ∧
  (∀ key, key ≠ isbn new_book →
     lookup_book key (insert_book p new_book s).2 = lookup_book key s) ∧
  all_nodes (insert_book p new_book s).2 ≡ₚ (p, new_book) :: all_nodes s ∧
  user_list (insert_book p new_book s).2 = user_list s ∧
  next_user_id (insert_book p new_book s).2 = next_user_id s.
Proof.
  intros Hlen Hnone. unfold search_book_by_isbn in Hnone.
  assert (hash_function (isbn new_book) < length (hash_table s))%nat as Hlt.
  { rewrite Hlen. apply hash_function_lt. }
  unfold insert_book. rewrite Hnone. cbn [fst snd].
  split_and!; try done.
  - unfold search_book_by_isbn. cbn [hash_table].
    rewrite bucket_insert, decide_True by done.
    by rewrite chain_find_cons, decide_True.
  - intros key Hkey. unfold lookup_book, search_book_by_isbn. cbn [hash_table].
    rewrite bucket_insert by done. case_decide as Hh; [|done].
    rewrite chain_find_cons, decide_False by (cbn; congruence).
    rewrite <- Hh, <- option_fmap_compose.
    by destruct (chain_find key _) as [[? ?]|].
  - unfold all_nodes. cbn [hash_table]. by apply concat_insert_cons.
Qed.

Lemma insert_book_then_search_witness :
  (insert_book 8%nat (mkBook "222" "Rust" "B" "Tech" 1 0) loan_store).1 = Success ∧
  search_book_by_isbn "222"
    (insert_book 8%nat (mkBook "222" "Rust" "B" "Tech" 1 0) loan_store).2
    = Some (0%nat, (8%nat, mkBook "222" "Rust" "B" "Tech" 1 0)) ∧
  (∀ key, key ≠ "222" →
     lookup_book key (insert_book 8%nat (mkBook "222" "Rust" "B" "Tech" 1 0) loan_store).2
     = lookup_book key loan_store) ∧
  all_nodes (insert_book 8%nat (mkBook "222" "Rust" "B" "Tech" 1 0) loan_store).2
    ≡ₚ (8%nat, mkBook "222" "Rust" "B" "Tech" 1 0) :: all_nodes loan_store ∧
  user_list (insert_book 8%nat (mkBook "222" "Rust" "B" "Tech" 1 0) loan_store).2
    = user_list loan_store ∧
  next_user_id (insert_book 8%nat (mkBook "222" "Rust" "B" "Tech" 1 0) loan_store).2
    = next_user_id loan_store.
Proof.
  apply (insert_book_then_search 8%nat (mkBook "222" "Rust" "B" "Tech" 1 0) loan_store).
  - by vm_compute.
  - by vm_compute.
Defined.

Lemma concat_insert_delete (tbl : list chain) index k x :
  bucket tbl index !! k = Some x →
  x :: concat (<[index := delete k (bucket tbl index)]> tbl) ≡ₚ concat tbl.
Proof.
  revert index. induction tbl as [|c tbl IH]; intros index Hk.
  { unfold bucket in Hk. by rewrite lookup_nil in Hk. }
  destruct index as [|index].
  - change (bucket (c :: tbl) 0) with c in *. cbn [insert list_insert concat].
    rewrite app_comm_cons. f_equiv.
    rewrite delete_take_drop. rewrite <- (take_drop_middle c k x) at 3 by done.
    by rewrite <- Permutation_middle.
  - change (bucket (c :: tbl) (S index)) with (bucket tbl index) in *.
    cbn [insert list_insert concat].
    change (list_insert index ?y tbl) with (<[index := y]> tbl).
    rewrite Permutation_middle. f_equiv. by apply IH.
Qed.

(** X4. In a well-shaped table [remove_book] reports that the book is not
    found exactly when search finds nothing, refuses a book whose [available]
    is zero, and otherwise removes it: the key is no longer found, every
    other ISBN finds what it found before, the stored books are the old ones
    without the removed one, and the users, the title index and
    [next_user_id] are left as they were. Every refusal returns the store
    unchanged. *)
Theorem remove_book_outcome (key : string) (s : State) :
  placed s →
  match lookup_book key s with
  | None => remove_book key s = (BookNotFound, s)
  | Some b =>
      if available b =? 0 then remove_book key s = (BookBorrowed, s)
      else
        (remove_book key s).1 = Success ∧
        lookup_book key (remove_book key s).2 = None ∧
        (∀ k, k ≠ key →
           lookup_book k (remove_book key s).2 = lookup_book k s) ∧
        b :: all_books (remove_book key s).2 ≡ₚ all_books s ∧
        user_list (remove_book key s).2 = user_list s ∧
        title_bst_root (remove_book key s).2 = title_bst_root s ∧
        next_user_id (remove_book key s).2 = next_user_id s
  end.
Proof.
  intros Hp.
  destruct (chain_find key (bucket (hash_table s) (hash_function key)))
    as [[k [p b]]|] eqn:Hfind.
  2: { unfold lookup_book, search_book_by_isbn, remove_book. by rewrite Hfind. }
  assert (lookup_book key s = Some b) as ->.
  { unfold lookup_book, search_book_by_isbn. by rewrite Hfind. }
  destruct (available b =? 0) eqn:Ha.
  { unfold remove_book. by rewrite Hfind, Ha. }
  assert (remove_book key s =
    (Success,
     {| hash_table :=
          <[hash_function key := delete k (bucket (hash_table s) (hash_function key))]>
            (hash_table s);
        user_list := user_list s; title_bst_root := title_bst_root s;
        next_user_id := next_user_id s |})) as ->.
  { unfold remove_book. by rewrite Hfind, Ha. }
  cbn [fst snd]. split_and!; try done.
  - rewrite (lookup_book_delete key k (p, b)) by done. by rewrite decide_True.
  - intros k' Hk'. rewrite (lookup_book_delete key k (p, b)) by done.
    by rewrite decide_False.
  - unfold all_books, all_nodes. cbn [hash_table].
    apply chain_find_Some in Hfind as [Hk _].
    rewrite <- (concat_insert_delete (hash_table s) (hash_function key) k (p, b) Hk).
    by rewrite fmap_cons.
Qed.

Lemma remove_book_outcome_witness :
  match lookup_book "10" spare_store with
  | None => remove_book "10" spare_store = (BookNotFound, spare_store)
  | Some b =>
      if available b =? 0 then remove_book "10" spare_store = (BookBorrowed, spare_store)
      else
        (remove_book "10" spare_store).1 = Success ∧
        lookup_book "10" (remove_book "10" spare_store).2 = None ∧
        (∀ k, k ≠ "10" →
           lookup_book k (remove_book "10" spare_store).2 = lookup_book k spare_store) ∧
        b :: all_books (remove_book "10" spare_store).2 ≡ₚ all_books spare_store ∧
        user_list (remove_book "10" spare_store).2 = user_list spare_store ∧
        title_bst_root (remove_book "10" spare_store).2 = title_bst_root spare_store ∧
        next_user_id (remove_book "10" spare_store).2 = next_user_id spare_store
  end.
Proof.
  apply (remove_book_outcome "10" spare_store).
  apply reachable_invariant, spare_store_reachable.
Defined.

(** ** Users: removal and identifiers *)

Lemma list_find_key_cons {A B} `{EqDecision B} (f : A → B) b x (l : list A) :
  list_find (λ y, f y = b) (x :: l) =
  if decide (f x = b) then Some (0%nat, x)
  else prod_map S id <$> list_find (λ y, f y = b) l.
Proof. reflexivity. Qed.

Lemma list_find_key_None {A B} `{EqDecision B} (f : A → B) b (l : list A) :
  list_find (λ y, f y = b) l = None ↔ b ∉ f <$> l.
Proof.
  rewrite list_find_None, Forall_forall, list_elem_of_fmap. split.
  - intros Hall (y & -> & Hy). by apply (Hall y).
  - intros Hno y Hy Hb. apply Hno. by exists y.
Qed.

Lemma list_find_key_delete {A B} `{EqDecision B} (f : A → B) b0 b k x (l : list A) :
  NoDup (f <$> l) →
  list_find (λ y, f y = b0) l = Some (k, x) →
  snd <$> list_find (λ y, f y = b) (delete k l) =
  if decide (b = b0) then None else snd <$> list_find (λ y, f y = b) l.
Proof.
  revert k. induction l as [|m l IH]; intros k Hnd Hk; [done|].
  rewrite fmap_cons in Hnd. apply NoDup_cons in Hnd as [Hm Hnd].
  rewrite list_find_key_cons in Hk. case_decide as Hm0.
  - simplify_eq. cbn [delete list_delete].
    destruct (decide (b = f x)) as [->|Hb].
    + by apply fmap_None, list_find_key_None.
    + rewrite list_find_key_cons, decide_False by done.
      rewrite <- option_fmap_compose.
      by destruct (list_find _ l) as [[? ?]|].
  - destruct (list_find (λ y, f y = b0) l) as [[k' n']|] eqn:Hk0; simplify_eq/=.
    specialize (IH k' Hnd eq_refl).
    destruct (decide (f m = b)) as [Hmb|Hmb].
    + rewrite decide_False; [done|]. congruence.
    + destruct (decide (b = b0)) as [->|Hbb].
      * apply fmap_None in IH. by rewrite IH.
      * destruct (list_find (λ y, f y = b) (delete k' l)) as [[? ?]|],
          (list_find (λ y, f y = b) l) as [[? ?]|]; simplify_eq/=; done.
Qed.

(** X5. [remove_user] reports an unknown identifier exactly when
    [find_user] finds nobody, refuses a user who still has borrowed books,
    and otherwise unlinks that one user and nothing else: the table, the
    title index and [next_user_id] are as before. Every refusal returns the
    store unchanged. When the identifiers in the list are distinct, the
    removed identifier is no longer found afterwards and every other
    identifier finds the user it found before. *)
Theorem remove_user_outcome (uid : Z) (s : State) :
  match find_user uid s with
  | None => remove_user uid s = (UserNotFound, s)
  | Some (k, u) =>
      if decide (borrowed_books u = []) then
        (remove_user uid s).1 = Success ∧
        user_list (remove_user uid s).2 = delete k (user_list s) ∧
        hash_table (remove_user uid s).2 = hash_table s ∧
        title_bst_root (remove_user uid s).2 = title_bst_root s ∧
        next_user_id (remove_user uid s).2 = next_user_id s ∧
        (NoDup (user_id <$> user_list s) →
         find_user uid (remove_user uid s).2 = None ∧
         ∀ v, v ≠ uid →
           snd <$> find_user v (remove_user uid s).2 = snd <$> find_user v s)
      else remove_user uid s = (HasBorrowedBooks, s)
  end.
Proof.
  unfold remove_user.
  destruct (find_user uid s) as [[k u]|] eqn:Hfind; [|done].
  unfold borrowed_count. destruct (borrowed_books u) as [|i l] eqn:Hb.
  2: { rewrite (decide_True (P := (0 < _)%nat)) by (cbn; lia). by rewrite decide_False. }
  rewrite (decide_False (P := (0 < _)%nat)) by (cbn; lia). rewrite decide_True by done.
  cbn [fst snd user_list hash_table title_bst_root next_user_id].
  split_and!; try done. intros Hnd. split.
  - unfold find_user in *. cbn [user_list].
    pose proof (list_find_key_delete user_id uid uid k u (user_list s) Hnd Hfind) as Hd.
    rewrite decide_True in Hd by done. by apply fmap_None in Hd.
  - intros v Hv. unfold find_user in *. cbn [user_list].
    rewrite (list_find_key_delete user_id uid v k u (user_list s) Hnd Hfind).
    by rewrite decide_False.
Qed.

Lemma pair_store_find_ann :
  find_user 1001 pair_store = Some (1%nat, mkUser 1001 "Ann" []).
Proof. by vm_compute. Qed.

Lemma pair_store_find_bob :
  find_user 1002 pair_store = Some (0%nat, mkUser 1002 "Bob" ["111"]).
Proof. by vm_compute. Qed.

Lemma remove_user_outcome_witness :
  ((remove_user 1001 pair_store).1 = Success ∧
   user_list (remove_user 1001 pair_store).2 = delete 1%nat (user_list pair_store) ∧
   hash_table (remove_user 1001 pair_store).2 = hash_table pair_store ∧
   title_bst_root (remove_user 1001 pair_store).2 = title_bst_root pair_store ∧
   next_user_id (remove_user 1001 pair_store).2 = next_user_id pair_store ∧
   find_user 1001 (remove_user 1001 pair_store).2 = None ∧
   ∀ v, v ≠ 1001 →
     snd <$> find_user v (remove_user 1001 pair_store).2 = snd <$> find_user v pair_store) ∧
  remove_user 1002 pair_store = (HasBorrowedBooks, pair_store) ∧
  remove_user 1003 pair_store = (UserNotFound, pair_store).
Proof.
  split; [|split].
  - pose proof (remove_user_outcome 1001 pair_store) as H.
    rewrite pair_store_find_ann in H. cbv beta iota in H. cbn [borrowed_books] in H.
    rewrite (decide_True (P := [] = [])) in H by reflexivity.
    destruct H as (H1 & H2 & H3 & H4 & H5 & H6).
    assert (NoDup (user_id <$> user_list pair_store)) as Hnd.
    { vm_compute. apply (bool_decide_unpack _). vm_compute. exact I. }
    destruct (H6 Hnd) as [H7 H8].
    exact (conj H1 (conj H2 (conj H3 (conj H4 (conj H5 (conj H7 H8)))))).
  - pose proof (remove_user_outcome 1002 pair_store) as H.
    rewrite pair_store_find_bob in H. cbv beta iota in H. cbn [borrowed_books] in H.
    rewrite (decide_False (P := ["111"] = [])) in H by discriminate. exact H.
  - pose proof (remove_user_outcome 1003 pair_store) as H.
    assert (find_user 1003 pair_store = None) as Hnone by (vm_compute; reflexivity).
    rewrite Hnone in H. exact H.
Defined.

(** ** What every reachable store satisfies *)

Lemma elem_of_concat {A} (x : A) (ls : list (list A)) :
  x ∈ concat ls ↔ ∃ i l, ls !! i = Some l ∧ x ∈ l.
Proof.
  induction ls as [|l0 ls IH]; cbn [concat].
  - split; [by intros ?%elem_of_nil|by intros (? & ? & ? & _)].
  - rewrite elem_of_app, IH. split.
    + intros [Hx|(i & l & Hl & Hx)]; [by exists 0%nat, l0|by exists (S i), l].
    + intros ([|i] & l & Hl & Hx); simplify_eq/=; [by left|].
      right. by exists i, l.
Qed.

Lemma NoDup_concat_indexed {A} (f : A → nat) (ls : list (list A)) (start : nat) :
  (∀ i l, ls !! i = Some l → NoDup l ∧ Forall (λ x, f x = (start + i)%nat) l) →
  NoDup (concat ls).
Proof.
  revert start. induction ls as [|l ls IH]; intros start Hls; [apply NoDup_nil_2|].
  cbn [concat]. apply NoDup_app. split_and!.
  - by apply (Hls 0%nat l).
  - intros x Hx (i & l' & Hi & Hin)%elem_of_concat.
    destruct (Hls 0%nat l eq_refl) as [_ H0]. destruct (Hls (S i) l' Hi) as [_ HS].
    rewrite Forall_forall in H0, HS. specialize (H0 x Hx). specialize (HS x Hin). lia.
  - apply (IH (S start)). intros i l' Hi. destruct (Hls (S i) l' Hi) as [Hnd Hall].
    split; [done|]. eapply Forall_impl; [done|]. cbn. intros. lia.
Qed.

Lemma isbns_concat (tbl : list chain) :
  isbn <$> (concat tbl).*2 = concat (chain_isbns <$> tbl).
Proof.
  rewrite <- list_fmap_compose. induction tbl as [|c tbl IH]; [done|].
  cbn [concat fmap list_fmap]. rewrite fmap_app. by f_equal.
Qed.

Lemma placed_isbns_distinct s : placed s → NoDup (isbn <$> all_books s).
Proof.
  intros [_ Hp]. unfold all_books, all_nodes. rewrite isbns_concat.
  apply (NoDup_concat_indexed hash_function _ 0). intros i l Hl.
  rewrite list_lookup_fmap in Hl. destruct (hash_table s !! i) as [c|] eqn:Hc; simplify_eq/=.
  by apply Hp.
Qed.

Lemma alter_out_of_range {A} (g : A → A) k (l : list A) :
  (length l ≤ k)%nat → alter g k l = l.
Proof.
  intros Hk. apply list_eq. intros i. rewrite list_lookup_alter.
  case_decide; [subst k|done]. by rewrite lookup_ge_None_2.
Qed.

Lemma concat_update_book f index k (tbl : list chain) :
  ∃ j, concat (update_book f index k tbl)
       = alter (λ n : addr * Book, (n.1, f n.2)) j (concat tbl).
Proof.
  unfold update_book. revert index. induction tbl as [|c tbl IH]; intros index.
  { by exists 0%nat. }
  destruct index as [|index]; cbn [alter list_alter concat].
  - destruct (decide (k < length c)%nat) as [Hk|Hk].
    + exists k. symmetry. by apply alter_app_l.
    + exists (length (c ++ concat tbl)).
      change (list_alter ?g k c) with (alter g k c).
      rewrite (alter_out_of_range _ k c) by lia. by rewrite alter_out_of_range.
  - destruct (IH index) as [j Hj]. exists (length c + j)%nat.
    change (list_alter ?g index tbl) with (alter g index tbl).
    rewrite Hj. symmetry. apply alter_app_r.
Qed.

Lemma update_book_all_addrs f index k (tbl : list chain) :
  (concat (update_book f index k tbl)).*1 = (concat tbl).*1.
Proof.
  destruct (concat_update_book f index k tbl) as [j ->].
  apply list_eq. intros i. rewrite !list_lookup_fmap, list_lookup_alter.
  case_decide; [subst j|done]. by destruct (concat tbl !! i).
Qed.

Lemma addrs_exec o s s' :
  exec o s = Some s' → placed s →
  NoDup (all_nodes s).*1 → NoDup (all_nodes s').*1.
Proof.
  intros He [Hlen _] Hnd. destruct o; cbn in He.
  - case_decide as Hfresh; [|done]. simplify_eq. unfold add_book.
    destruct (insert_book_cases p
                {| isbn := i; title := t; author := a; genre := g;
                   available := 1; borrow_count := 0 |} s) as [->|(_ & root & ->)];
      [done|].
    unfold all_nodes. cbn [snd hash_table isbn].
    rewrite concat_insert_cons by (rewrite Hlen; apply hash_function_lt).
    rewrite fmap_cons. by apply NoDup_cons.
  - simplify_eq. destruct (remove_book_cases key s) as [->|(k & p & b & Hf & _ & ->)]; [done|].
    unfold all_nodes. cbn [snd hash_table].
    apply chain_find_Some in Hf as [Hk _].
    pose proof (concat_insert_delete _ _ _ _ Hk) as Hperm.
    unfold all_nodes in Hnd. rewrite <- Hperm, fmap_cons in Hnd.
    by apply NoDup_cons in Hnd as [_ ?].
  - by simplify_eq.
  - simplify_eq. by destruct (remove_user_cases uid s) as [->|(k & u & _ & _ & ->)].
  - simplify_eq.
    destruct (issue_book_cases uid key s)
      as [->|(ui & u & bi & p & b & _ & _ & _ & _ & ->)]; [done|].
    unfold all_nodes in *. cbn [snd hash_table]. by rewrite update_book_all_addrs.
  - simplify_eq.
    destruct (return_book_cases uid key s)
      as [->|(ui & u & bi & p & b & idx & _ & _ & _ & ->)]; [done|].
    unfold all_nodes in *. cbn [snd hash_table]. by rewrite update_book_all_addrs.
Qed.

Lemma addrs_run ops s s' :
  run ops s = Some s' → placed s ∧ consistent s →
  NoDup (all_nodes s).*1 → NoDup (all_nodes s').*1.
Proof.
  revert s. induction ops as [|o ops IH]; intros s Hr Hs Hnd; simplify_eq/=; [done|].
  destruct (exec o s) as [s1|] eqn:He; simplify_eq/=.
  eapply IH; [done|by eapply invariant_exec|]. eapply addrs_exec; [done|apply Hs|done].
Qed.

Lemma reachable_addrs s : reachable s → NoDup (all_nodes s).*1.
Proof.
  intros [ops Hr]. eapply addrs_run; [done| |].
  - split; [apply placed_empty_store|apply consistent_empty_store].
  - unfold all_nodes, empty_store. cbn [hash_table].
    assert (concat (replicate HASH_TABLE_SIZE ([] : chain)) = []) as ->; [|apply NoDup_nil_2].
    induction HASH_TABLE_SIZE; [done|]. by cbn.
Qed.

(** X6. In every store reached by the operations no two stored books have
    the same ISBN, in the whole table and not only within one chain, and no
    two stored books share an address. *)
Theorem reachable_books_distinct (s : State) :
  reachable s →
  NoDup (isbn <$> all_books s) ∧ NoDup (all_nodes s).*1.
Proof.
  intros Hr. split.
  - by apply placed_isbns_distinct, reachable_invariant.
  - by apply reachable_addrs.
Qed.

Lemma reachable_books_distinct_witness :
  NoDup (isbn <$> all_books spare_store) ∧ NoDup (all_nodes spare_store).*1.
Proof. apply (reachable_books_distinct spare_store), spare_store_reachable. Defined.

Lemma consistent_loans_distinct s : consistent s → NoDup (loans s).
Proof.
  intros Hc.
  assert (∀ key, (occurrences key (loans s) ≤ 1)%nat) as Hocc.
  { intros key. specialize (Hc key). destruct (lookup_book key s); lia. }
  revert Hocc. clear. induction (loans s) as [|x l IH]; intros Hocc; [apply NoDup_nil_2|].
  apply NoDup_cons. split.
  - intros Hx%occurrences_elem. specialize (Hocc x).
    rewrite occurrences_cons, decide_True in Hocc by done. lia.
  - apply IH. intros key. specialize (Hocc key). rewrite occurrences_cons in Hocc.
    case_decide; lia.
Qed.

(** X7. In every store reached by the operations each user holds at most
    [MAX_BORROWED] books, each stored book's [available] is 0 or 1, and every
    ISBN in a borrowed list is that of a stored book whose [available] is 0
    and occurs in no other place of any borrowed list. *)
Theorem reachable_loans_bounded (s : State) :
  reachable s →
  Forall (λ u, (borrowed_count u ≤ MAX_BORROWED)%nat) (user_list s) ∧
  Forall (λ b, available b = 0 ∨ available b = 1) (all_books s) ∧
  NoDup (loans s) ∧
  ∀ key, key ∈ loans s → ∃ b, lookup_book key s = Some b ∧ available b = 0.
Proof.
  intros Hr. pose proof (reachable_invariant s Hr) as [Hp Hc]. split_and!.
  - destruct Hr as [ops Hr]. by apply (borrow_limit_run ops empty_store s Hr).
  - apply Forall_forall. intros b (n & -> & Hn)%list_elem_of_fmap.
    specialize (Hc (isbn n.2)). rewrite (stored_lookup s n Hp Hn) in Hc. tauto.
  - by apply consistent_loans_distinct.
  - intros key Hk%occurrences_elem. specialize (Hc key).
    destruct (lookup_book key s) as [b|]; [|lia]. exists b. split; [done|]. lia.
Qed.

Lemma reachable_loans_bounded_witness :
  Forall (λ u, (borrowed_count u ≤ MAX_BORROWED)%nat) (user_list full_store) ∧
  Forall (λ b, available b = 0 ∨ available b = 1) (all_books full_store) ∧
  NoDup (loans full_store) ∧
  ∀ key, key ∈ loans full_store →
    ∃ b, lookup_book key full_store = Some b ∧ available b = 0.
Proof. apply (reachable_loans_bounded full_store), full_store_reachable. Defined.

(** ** User identifiers *)

Lemma user_ids_alter l ui (us : list User) :
  user_id <$> alter (set_borrowed l) ui us = user_id <$> us.
Proof.
  apply list_eq. intros i. rewrite !list_lookup_fmap, list_lookup_alter.
  case_decide; [subst ui|done]. by destruct (us !! i).
Qed.

Lemma user_ids_exec o s s' :
  exec o s = Some s' → is_add_user o = false →
  sublist (user_id <$> user_list s') (user_id <$> user_list s) ∧
  next_user_id s' = next_user_id s.
Proof.
  intros He Ho. destruct o; cbn in He; try done.
  - case_decide; [|done]. simplify_eq. unfold add_book.
    by destruct (insert_book_cases p
                {| isbn := i; title := t; author := a; genre := g;
                   available := 1; borrow_count := 0 |} s) as [->|(_ & root & ->)].
  - simplify_eq.
    by destruct (remove_book_cases key s) as [->|(k & p & b & _ & _ & ->)].
  - simplify_eq. destruct (remove_user_cases uid s) as [->|(k & u & _ & _ & ->)]; [done|].
    cbn [snd user_list next_user_id]. split; [|done].
    apply fmap_sublist, sublist_delete.
  - simplify_eq.
    destruct (issue_book_cases uid key s)
      as [->|(ui & u & bi & p & b & _ & _ & _ & _ & ->)]; [done|].
    cbn [snd user_list next_user_id]. by rewrite user_ids_alter.
  - simplify_eq.
    destruct (return_book_cases uid key s)
      as [->|(ui & u & bi & p & b & idx & _ & _ & _ & ->)]; [done|].
    cbn [snd user_list next_user_id]. by rewrite user_ids_alter.
Qed.

Lemma user_ids_run ops s s' :
  run ops s = Some s' →
  in_int (next_user_id s) →
  next_user_id s + Z.of_nat (registrations ops) <= INT_MAX →
  NoDup (user_id <$> user_list s) →
  Forall (λ u, 1001 <= user_id u < next_user_id s) (user_list s) →
  1001 <= next_user_id s →
  next_user_id s' = next_user_id s + Z.of_nat (registrations ops) ∧
  NoDup (user_id <$> user_list s') ∧
  Forall (λ u, 1001 <= user_id u < next_user_id s') (user_list s').
Proof.
  revert s. induction ops as [|o ops IH]; intros s Hr Hint Hmax Hnd Hall Hlo; simplify_eq/=.
  { split; [unfold registrations; cbn; lia|done]. }
  destruct (exec o s) as [s1|] eqn:He; simplify_eq/=.
  destruct (is_add_user o) eqn:Ho.
  - destruct o; try done. cbn in He. simplify_eq.
    assert (registrations (AddUser n :: ops) = S (registrations ops)) as Hreg.
    { unfold registrations. by rewrite filter_cons_True. }
    rewrite Hreg in *.
    assert (wrap_int (next_user_id s + 1) = next_user_id s + 1) as Hw.
    { apply wrap_int_id. unfold in_int in *. lia. }
    destruct (IH (add_user n s) Hr) as (Hn & Hnd' & Hall').
    + cbn. rewrite Hw. unfold in_int in *. lia.
    + cbn. rewrite Hw. lia.
    + cbn. apply NoDup_cons. split; [|done].
      intros (u & Hu & Hin)%list_elem_of_fmap.
      rewrite Forall_forall in Hall. specialize (Hall u Hin). lia.
    + cbn. rewrite Hw. apply Forall_cons. split; [cbn; lia|].
      eapply Forall_impl; [done|]. cbn. intros. lia.
    + cbn. rewrite Hw. lia.
    + split; [|done]. rewrite Hn. cbn. rewrite Hw. lia.
  - destruct (user_ids_exec o s s1 He Ho) as [Hsub Hnext].
    assert (registrations (o :: ops) = registrations ops) as Hreg.
    { unfold registrations. rewrite filter_cons_False; [done|]. cbn. rewrite Ho. by intros []. }
    rewrite Hreg in *. rewrite <- Hnext.
    apply IH; rewrite ?Hnext; try done.
    + by eapply sublist_NoDup.
    + apply Forall_forall. intros u Hu.
      assert (user_id u ∈ user_id <$> user_list s) as (v & Hv & Hin)%list_elem_of_fmap.
      { eapply elem_of_sublist; [|done]. by apply list_elem_of_fmap_2. }
      rewrite Forall_forall in Hall. rewrite Hv. by apply Hall.
Qed.

(** X8. Starting from the empty store, as long as the run registers fewer
    users than [next_user_id] can count without overflowing, the identifiers
    in the user list are pairwise distinct, each is at least 1001 and below
    [next_user_id], and [next_user_id] is 1001 plus the number of
    registrations made so far, whatever was removed in between. *)
Theorem user_ids_distinct (ops : list Op) (s : State) :
  run ops empty_store = Some s →
  1001 + Z.of_nat (registrations ops) <= INT_MAX →
  next_user_id s = 1001 + Z.of_nat (registrations ops) ∧
  NoDup (user_id <$> user_list s) ∧
  Forall (λ u, 1001 <= user_id u < next_user_id s) (user_list s).
Proof.
  intros Hr Hmax. apply (user_ids_run ops empty_store s Hr); try done.
  - apply NoDup_nil_2.
Qed.

Lemma user_ids_distinct_witness :
  next_user_id loan_store = 1001 + Z.of_nat (registrations loan_ops) ∧
  NoDup (user_id <$> user_list loan_store) ∧
  Forall (λ u, 1001 <= user_id u < next_user_id loan_store) (user_list loan_store).
Proof.
  apply (user_ids_distinct loan_ops loan_store).
  - by vm_compute.
  - by vm_compute.
Defined.

(** ** Issue followed by return *)

(** X9. In a store reached by the operations, a successful [issue_book]
    followed by [return_book] with the same user and ISBN succeeds and undoes
    the loan: the user list is again exactly what it was, the book is found
    with [available] 1 and its other fields as before except that
    [borrow_count] has been incremented (in [int]), and every other ISBN finds
    what it found before; the title index and [next_user_id] are untouched. *)
Theorem issue_then_return (uid : Z) (key : string) (s s1 : State) :
  reachable s →
  issue_book uid key s = (Success, s1) →
  ∃ b s2,
    lookup_book key s = Some b ∧
    return_book uid key s1 = (Success, s2) ∧
    user_list s2 = user_list s ∧
    lookup_book key s2 =
      Some {| isbn := isbn b; title := title b; author := author b; genre := genre b;
              available := 1; borrow_count := wrap_int (borrow_count b + 1) |} ∧
    (∀ k, k ≠ key → lookup_book k s2 = lookup_book k s) ∧
    title_bst_root s2 = title_bst_root s ∧
    next_user_id s2 = next_user_id s.
Proof.
  intros [Hp Hc]%reachable_invariant Hissue. unfold issue_book in Hissue.
  destruct (find_user uid s) as [[ui u]|] eqn:Hu; [|done].
  destruct (search_book_by_isbn key s) as [[bi [p b]]|] eqn:Hb; [|done].
  destruct (available b =? 0) eqn:Ha; [done|]. apply Z.eqb_neq in Ha.
  case_decide as Hfull; [done|]. injection Hissue as <-.
  assert (lookup_book key s = Some b) as Hlook.
  { unfold lookup_book. by rewrite Hb. }
  assert (key ∉ borrowed_books u) as Hnot.
  { intros Hin%occurrences_elem. specialize (Hc key). rewrite Hlook in Hc.
    apply find_user_lookup in Hu as [Hu _].
    pose proof (occurrences_user key ui u (user_list s) Hu) as Hle.
    unfold loans in Hc. lia. }
  set (s1 := {| hash_table := update_book book_issued (hash_function key) bi (hash_table s);
                user_list := alter (set_borrowed (borrowed_books u ++ [key])) ui (user_list s);
                title_bst_root := title_bst_root s;
                next_user_id := next_user_id s |}).
  assert (find_user uid s1 = Some (ui, set_borrowed (borrowed_books u ++ [key]) u)) as Hu1.
  { by apply find_user_alter. }
  assert (search_book_by_isbn key s1 = Some (bi, (p, book_issued b))) as Hb1.
  { by apply search_book_update. }
  assert (found_idx key (borrowed_books u ++ [key]) = Some (length (borrowed_books u)))
    as Hidx.
  { apply found_idx_Some. split.
    - by rewrite lookup_app_r, Nat.sub_diag by lia.
    - intros j Hj Hjk. rewrite lookup_app_l in Hjk by done.
      apply Hnot. by eapply list_elem_of_lookup_2. }
  exists b. eexists. split; [done|]. split.
  { unfold return_book. rewrite Hu1, Hb1. cbn [borrowed_books set_borrowed].
    rewrite Hidx. reflexivity. }
  cbn [user_list title_bst_root next_user_id]. split_and!; try done.
  - rewrite remove_borrowed_delete by (rewrite length_app; cbn; lia).
    assert (delete (length (borrowed_books u)) (borrowed_books u ++ [key])
            = borrowed_books u) as ->.
    { rewrite delete_take_drop, take_app_length.
      rewrite drop_ge by (rewrite length_app; cbn; lia). apply app_nil_r. }
    apply find_user_lookup in Hu as [Hu _].
    unfold s1. cbn [user_list].
    apply list_eq. intros j.
    destruct (decide (ui = j)) as [<-|Hj].
    + rewrite !list_lookup_alter_eq, Hu. cbn. by destruct u.
    + by rewrite !list_lookup_alter_ne.
  - rewrite (lookup_book_update book_returned key bi p (book_issued b) s1) by done.
    by rewrite decide_True.
  - intros k Hk.
    rewrite (lookup_book_update book_returned key bi p (book_issued b) s1) by done.
    rewrite decide_False by done.
    unfold s1. rewrite (lookup_book_update book_issued key bi p b s) by done.
    by rewrite decide_False.
Qed.

Lemma issue_then_return_witness :
  ∃ b s2,
    lookup_book "111" shelf_store = Some b ∧
    return_book 1001 "111" loan_store = (Success, s2) ∧
    user_list s2 = user_list shelf_store ∧
    lookup_book "111" s2 =
      Some {| isbn := isbn b; title := title b; author := author b; genre := genre b;
              available := 1; borrow_count := wrap_int (borrow_count b + 1) |} ∧
    (∀ k, k ≠ "111" → lookup_book k s2 = lookup_book k shelf_store) ∧
    title_bst_root s2 = title_bst_root shelf_store ∧
    next_user_id s2 = next_user_id shelf_store.
Proof.
  apply (issue_then_return 1001 "111" shelf_store loan_store).
  - exists shelf_ops. by vm_compute.
  - by vm_compute.
Defined.

(** ** The exchange sort, for any key *)

Section ExchangeSortProofs.
Context {A : Type} (key : A → Z).

Lemma swap_by_cons j a (l : list A) :
  swap_by key (S j) (a :: l) = a :: swap_by key j l.
Proof.
  unfold swap_by. cbn [lookup list_lookup].
  change (list_lookup j l) with (l !! j).
  change (list_lookup (S j) l) with (l !! S j).
  destruct (l !! j) as [x|]; [|done]. destruct (l !! S j) as [y|]; [|done].
  by case_match.
Qed.

Lemma swap_steps_shift a (l : list A) js :
  foldl (λ bs j, swap_by key j bs) (a :: l) (S <$> js)
  = a :: foldl (λ bs j, swap_by key j bs) l js.
Proof.
  revert l. induction js as [|j js IH]; intros l; [done|].
  cbn [fmap list_fmap foldl]. rewrite swap_by_cons. apply IH.
Qed.

Lemma pass_by_S k x y (t : list A) :
  pass_by key (S k) (x :: y :: t) =
  if key x <? key y
  then y :: pass_by key k (x :: t)
  else x :: pass_by key k (y :: t).
Proof.
  unfold pass_by. cbn [seq foldl]. rewrite <- fmap_S_seq.
  unfold swap_by at 2. cbn [lookup list_lookup].
  case_match; cbn [insert list_insert]; apply swap_steps_shift.
Qed.

Lemma pass_by_short k (l : list A) :
  (length l ≤ 1)%nat → pass_by key k l = l.
Proof.
  intros Hlen. unfold pass_by. induction (seq 0 k) as [|j js IH]; [done|].
  cbn [foldl]. unfold swap_by at 2.
  rewrite (lookup_ge_None_2 l (S j)) by lia. by destruct (l !! j).
Qed.

Lemma pass_by_perm k (l : list A) : pass_by key k l ≡ₚ l.
Proof.
  revert l. induction k as [|k IH]; intros l; [done|].
  destruct l as [|x [|y t]]; [by rewrite pass_by_short by (cbn; lia)..|].
  rewrite pass_by_S. case_match.
  - rewrite IH. apply perm_swap.
  - by rewrite IH.
Qed.

Lemma pass_by_min k (l : list A) :
  length l = S k →
  ∃ init m,
    pass_by key k l = init ++ [m] ∧
    ∀ x, x ∈ l → key m <= key x.
Proof.
  revert l. induction k as [|k IH]; intros l Hlen.
  - destruct l as [|x [|? ?]]; simplify_eq/=. exists [], x. split; [done|].
    intros y ->%list_elem_of_singleton. lia.
  - destruct l as [|x [|y t]]; simplify_eq/=.
    rewrite pass_by_S. case_match eqn:Hxy.
    + apply Z.ltb_lt in Hxy.
      destruct (IH (x :: t)) as (init & m & -> & Hm); [done|].
      exists (y :: init), m. split; [done|].
      intros z [->|[->|Hz]%elem_of_cons]%elem_of_cons.
      * apply Hm, list_elem_of_here.
      * specialize (Hm x (list_elem_of_here _ _)). lia.
      * by apply Hm, list_elem_of_further.
    + apply Z.ltb_ge in Hxy.
      destruct (IH (y :: t)) as (init & m & -> & Hm); [done|].
      exists (x :: init), m. split; [done|].
      intros z [->|[->|Hz]%elem_of_cons]%elem_of_cons.
      * specialize (Hm y (list_elem_of_here _ _)). lia.
      * apply Hm, list_elem_of_here.
      * by apply Hm, list_elem_of_further.
Qed.

Lemma pass_by_app k (pre suf : list A) :
  length pre = S k → pass_by key k (pre ++ suf) = pass_by key k pre ++ suf.
Proof.
  revert pre. induction k as [|k IH]; intros pre Hlen; [done|].
  destruct pre as [|x [|y t]]; [done..|].
  cbn [length] in Hlen. injection Hlen as Hlen.
  rewrite <- !app_comm_cons, !pass_by_S. case_match.
  - rewrite (app_comm_cons t suf x), IH; [done|]. cbn. by f_equal.
  - rewrite (app_comm_cons t suf y), IH; [done|]. cbn. by f_equal.
Qed.

Lemma sort_by_rounds n m (l : list A) :
  length l = n → (m ≤ n - 1)%nat →
  ∃ pre suf,
    foldl (λ bs i, pass_by key (n - i - 1) bs) l (seq 0 m) = pre ++ suf ∧
    length pre = (n - m)%nat ∧
    pre ++ suf ≡ₚ l ∧
    StronglySorted (λ x y, key y <= key x) suf ∧
    ∀ x y, x ∈ pre → y ∈ suf → key y <= key x.
Proof.
  intros Hn. induction m as [|m IH]; intros Hm.
  - exists l, []. rewrite app_nil_r. split_and!; try done.
    + lia.
    + constructor.
    + by intros x y _ ?%elem_of_nil.
  - destruct IH as (pre & suf & Hfold & Hlen & Hperm & Hsorted & Hle); [lia|].
    rewrite seq_S, foldl_app. cbn [foldl Nat.add]. rewrite Hfold.
    rewrite pass_by_app by lia.
    destruct (pass_by_min (n - m - 1) pre) as (init & mn & Hpass & Hmin); [lia|].
    pose proof (pass_by_perm (n - m - 1) pre) as Hpp. rewrite Hpass in Hpp.
    rewrite Hpass. exists init, (mn :: suf).
    assert (mn ∈ pre) as Hmn.
    { rewrite <- Hpp. apply elem_of_app. right. apply list_elem_of_here. }
    split_and!.
    + by rewrite <- app_assoc.
    + apply Permutation_length in Hpp. rewrite length_app in Hpp. cbn in Hpp. lia.
    + rewrite <- Hperm, <- Hpp. by rewrite <- app_assoc.
    + constructor; [done|]. apply Forall_forall. intros y Hy. by apply Hle.
    + intros x y Hx [->|Hy]%elem_of_cons.
      * apply Hmin. rewrite <- Hpp. apply elem_of_app. by left.
      * apply Hle; [|done]. rewrite <- Hpp. apply elem_of_app. by left.
Qed.

Lemma sort_by_sorted (l : list A) :
  StronglySorted (λ x y, key y <= key x) (sort_by key l) ∧ sort_by key l ≡ₚ l.
Proof.
  unfold sort_by.
  destruct (sort_by_rounds (length l) (length l - 1) l)
    as (pre & suf & -> & Hlen & Hperm & Hsorted & Hle); [done..|].
  split; [|done]. destruct pre as [|x [|? ?]].
  - done.
  - constructor; [done|]. apply Forall_forall. intros y Hy.
    apply Hle; [apply list_elem_of_here|done].
  - apply Permutation_length in Hperm. rewrite length_app in Hperm.
    cbn in Hlen, Hperm. lia.
Qed.

End ExchangeSortProofs.

(** ** The reports *)

Lemma StronglySorted_app_elem {A} (R : relation A) (l1 l2 : list A) x y :
  StronglySorted R (l1 ++ l2) → x ∈ l1 → y ∈ l2 → R x y.
Proof.
  induction l1 as [|a l1 IH]; intros Hs Hx Hy; [by apply elem_of_nil in Hx|].
  cbn in Hs. apply StronglySorted_inv in Hs as [Hs Hall].
  apply elem_of_cons in Hx as [->|Hx]; [|by apply IH].
  rewrite Forall_forall in Hall. apply Hall, elem_of_app. by right.
Qed.

Lemma filter_all {A} (P : A → Prop) `{!∀ x, Decision (P x)} (l : list A) :
  Forall P l → filter P l = l.
Proof.
  induction 1 as [|x l Hx Hl IH]; [done|]. rewrite filter_cons_True by done. by f_equal.
Qed.

Lemma StronglySorted_weaken {A} (R1 R2 : relation A) (l : list A) :
  (∀ x y, R1 x y → R2 x y) → StronglySorted R1 l → StronglySorted R2 l.
Proof.
  intros HR. induction 1 as [|x l Hs IH Hall]; constructor; [done|].
  eapply Forall_impl; [done|]. intros y. apply HR.
Qed.

Lemma take_take_app {A} n (l k : list A) :
  take n (take n l ++ k) = take n (l ++ k).
Proof.
  destruct (decide (n ≤ length l)%nat) as [Hn|Hn].
  - rewrite !take_app_le by (rewrite ?length_take; lia).
    rewrite take_take. f_equal. lia.
  - by rewrite (take_ge l) by lia.
Qed.

Lemma collect_chain_take (books : list Book) (current : chain) :
  (length books ≤ MAX_BOOKS)%nat →
  collect_chain books current = take MAX_BOOKS (books ++ current.*2).
Proof.
  revert books. induction current as [|n next IH]; intros books Hlen.
  - cbn. rewrite app_nil_r. by rewrite take_ge.
  - cbn [collect_chain]. case_decide as Hroom.
    + rewrite IH by (rewrite length_app; cbn; lia).
      by rewrite <- app_assoc.
    + rewrite take_app_le by lia. by rewrite take_ge by lia.
Qed.

Lemma collect_books_take (tbl : list chain) :
  collect_books tbl = take MAX_BOOKS (concat tbl).*2.
Proof.
  unfold collect_books.
  assert (∀ books, (length books ≤ MAX_BOOKS)%nat →
    foldl collect_chain books tbl = take MAX_BOOKS (books ++ (concat tbl).*2)) as Hgen.
  { induction tbl as [|c tbl IH]; intros books Hlen.
    - cbn. rewrite app_nil_r. by rewrite take_ge.
    - cbn [foldl concat]. rewrite collect_chain_take by done.
      rewrite IH by (rewrite length_take; lia).
      by rewrite take_take_app, fmap_app, app_assoc. }
  apply (Hgen []). cbn. lia.
Qed.

(** X10. The most-borrowed report shows only stored books, and it misses
    no book it should show: of the first [MAX_BOOKS] stored books in table
    order, one that has been borrowed is either shown, or the report already
    has its ten lines and each of them has been borrowed at least as often. *)
Theorem most_borrowed_complete (s : State) (b : Book) :
  b ∈ take MAX_BOOKS (all_books s) →
  0 < borrow_count b →
  list_most_borrowed_books s ⊆ all_books s ∧
  (b ∈ list_most_borrowed_books s ∨
   length (list_most_borrowed_books s) = 10%nat ∧
   Forall (λ x, borrow_count b <= borrow_count x) (list_most_borrowed_books s)).
Proof.
  intros Hb Hpos. unfold list_most_borrowed_books.
  rewrite collect_books_take. fold (all_nodes s). fold (all_books s).
  destruct (take MAX_BOOKS (all_books s)) as [|b0 books] eqn:Hcollect.
  { by apply elem_of_nil in Hb. }
  set (all := b0 :: books) in *.
  destruct (bubble_sort_sorted all) as [Hsorted Hperm].
  assert (take (if decide (length all < 10)%nat then length all else 10%nat)
               (bubble_sort all) = take 10 (bubble_sort all)) as ->.
  { case_decide; [|done]. rewrite !take_ge; [done|rewrite Hperm; lia..]. }
  cbn zeta. split.
  - intros x [_ Hx]%list_elem_of_filter.
    apply (elem_of_sublist _ (bubble_sort all)) in Hx; [|apply sublist_take].
    rewrite Hperm in Hx. subst all. rewrite <- Hcollect in Hx.
    eapply elem_of_sublist; [done|apply sublist_take].
  - rewrite <- Hperm in Hb. rewrite <- (take_drop 10 (bubble_sort all)) in Hb, Hsorted.
    apply elem_of_app in Hb as [Hb|Hb].
    + left. by apply list_elem_of_filter.
    + right.
      assert (Forall (λ x, borrow_count b <= borrow_count x) (take 10 (bubble_sort all)))
        as Hall.
      { apply Forall_forall. intros x Hx.
        apply (StronglySorted_app_elem _ _ _ x b Hsorted Hx Hb). }
      assert (filter (λ x, 0 < borrow_count x) (take 10 (bubble_sort all))
              = take 10 (bubble_sort all)) as ->.
      { apply filter_all. eapply Forall_impl; [done|]. cbn. intros. lia. }
      split; [|done]. apply length_take_le.
      destruct (decide (10 ≤ length (bubble_sort all))%nat); [done|].
      rewrite drop_ge in Hb by lia. by apply elem_of_nil in Hb.
Qed.

Lemma most_borrowed_complete_witness :
  list_most_borrowed_books loan_store ⊆ all_books loan_store ∧
  (mkBook "111" "Go" "A" "Tech" 0 1 ∈ list_most_borrowed_books loan_store ∨
   length (list_most_borrowed_books loan_store) = 10%nat ∧
   Forall (λ x, borrow_count (mkBook "111" "Go" "A" "Tech" 0 1) <= borrow_count x)
     (list_most_borrowed_books loan_store)).
Proof.
  apply (most_borrowed_complete loan_store (mkBook "111" "Go" "A" "Tech" 0 1)).
  - vm_compute. apply list_elem_of_here.
  - reflexivity.
Defined.

Lemma collect_active_take (active current : list User) :
  (length active ≤ MAX_USERS)%nat →
  collect_active active current
  = take MAX_USERS (active ++ filter (λ u, (0 < borrowed_count u)%nat) current).
Proof.
  revert active. induction current as [|u next IH]; intros active Hlen.
  - cbn. rewrite app_nil_r. by rewrite take_ge.
  - cbn [collect_active]. case_decide as Hroom.
    + destruct (decide (0 < borrowed_count u)%nat) as [Hu|Hu].
      * rewrite IH by (rewrite length_app; cbn; lia).
        rewrite filter_cons_True by done. by rewrite <- app_assoc.
      * rewrite IH by done. by rewrite filter_cons_False.
    + rewrite take_app_le by lia. by rewrite take_ge by lia.
Qed.

(** X11. The active-users report lists the first [MAX_USERS] users of the
    list who hold at least one book, each exactly once, ordered by the number
    of books held, largest first; a user who holds nothing is never listed. *)
Theorem active_users_report (s : State) :
  list_active_users s
    ≡ₚ take MAX_USERS (filter (λ u, (0 < borrowed_count u)%nat) (user_list s)) ∧
  StronglySorted (λ x y, (borrowed_count y ≤ borrowed_count x)%nat) (list_active_users s) ∧
  Forall (λ u, u ∈ user_list s ∧ (0 < borrowed_count u)%nat) (list_active_users s).
Proof.
  unfold list_active_users.
  rewrite collect_active_take by (cbn; lia). cbn [app].
  set (active := take MAX_USERS _).
  destruct (sort_by_sorted (λ u, Z.of_nat (borrowed_count u)) active) as [Hsorted Hperm].
  split_and!.
  - done.
  - eapply StronglySorted_weaken; [|done]. cbn. intros. lia.
  - rewrite Hperm. apply Forall_forall. intros u Hu.
    assert (u ∈ filter (λ u, (0 < borrowed_count u)%nat) (user_list s)) as Hu'.
    { eapply elem_of_sublist; [exact Hu|apply sublist_take]. }
    apply list_elem_of_filter in Hu' as [? ?]. done.
Qed.

(** ** The available and borrowed reports *)

Lemma omap_cons_Some {A B} (f : A → option B) x (l : list A) y :
  f x = Some y → omap f (x :: l) = y :: omap f l.
Proof. intros Hx. cbn. by rewrite Hx. Qed.

Lemma borrowed_lines_isbns (s : State) (u : User) (l : list string) :
  placed s →
  (∀ i, i ∈ l → is_Some (lookup_book i s)) →
  isbn <$> (omap (λ i, (λ b, (b, u)) <$> lookup_book i s) l).*1 = l.
Proof.
  intros Hp. induction l as [|i l IH]; intros Hl; [done|].
  destruct (Hl i (list_elem_of_here _ _)) as [b Hb].
  rewrite (omap_cons_Some _ i l (b, u)) by (by rewrite Hb).
  rewrite !fmap_cons. cbn [fst].
  f_equal.
  - unfold lookup_book in Hb.
    destruct (search_book_by_isbn i s) as [[k n]|] eqn:Hs; simplify_eq/=.
    by apply search_book_lookup in Hs as [_ ?].
  - apply IH. intros j Hj. by apply Hl, list_elem_of_further.
Qed.

Lemma borrowed_report_isbns (s : State) :
  placed s →
  (∀ i, i ∈ loans s → is_Some (lookup_book i s)) →
  isbn <$> (list_borrowed_books s).*1 = loans s.
Proof.
  intros Hp. unfold list_borrowed_books, loans.
  induction (user_list s) as [|u us IH]; intros Hl; [done|].
  rewrite !bind_cons, !fmap_app. f_equal.
  - apply borrowed_lines_isbns; [done|]. intros i Hi. apply Hl.
    cbn. apply elem_of_app. by left.
  - apply IH. intros i Hi. apply Hl. cbn. apply elem_of_app. by right.
Qed.

Lemma elem_of_borrowed_report (s : State) (b : Book) (u : User) :
  (b, u) ∈ list_borrowed_books s ↔
  u ∈ user_list s ∧ ∃ i, i ∈ borrowed_books u ∧ lookup_book i s = Some b.
Proof.
  unfold list_borrowed_books. rewrite list_elem_of_bind. split.
  - intros (v & (i & Hi & Hb)%list_elem_of_omap & Hv).
    destruct (lookup_book i s) as [b'|] eqn:Hlook; simplify_eq/=.
    split; [done|]. by exists i.
  - intros (Hu & i & Hi & Hb). exists u. split; [|done].
    apply list_elem_of_omap. exists i. split; [done|]. by rewrite Hb.
Qed.

(** X12. In every store reached by the operations the borrowed-books
    report prints one line for every entry of every borrowed list (each
    lookup it makes succeeds), pairing the book with a user whose list holds
    its ISBN; the books it shows are exactly the stored books whose
    [available] is 0, each once; and together with the books of the
    available-books report they are all the stored books, each once. *)
Theorem borrowed_report_complete (s : State) :
  reachable s →
  isbn <$> (list_borrowed_books s).*1 = loans s ∧
  (∀ b u, (b, u) ∈ list_borrowed_books s →
     u ∈ user_list s ∧ isbn b ∈ borrowed_books u ∧ b ∈ all_books s) ∧
  (list_borrowed_books s).*1 ≡ₚ filter (λ b, ¬ available b ≠ 0) (all_books s) ∧
  list_available_books s ++ (list_borrowed_books s).*1 ≡ₚ all_books s.
Proof.
  intros Hr. pose proof (reachable_invariant s Hr) as [Hp Hc].
  assert (∀ i, i ∈ loans s → ∃ b, lookup_book i s = Some b ∧ available b = 0) as Hloan.
  { intros i Hi%occurrences_elem. specialize (Hc i).
    destruct (lookup_book i s) as [b|]; [|lia]. exists b. split; [done|]. lia. }
  assert (isbn <$> (list_borrowed_books s).*1 = loans s) as Hisbns.
  { apply borrowed_report_isbns; [done|]. intros i Hi.
    destruct (Hloan i Hi) as (b & -> & _). by eexists. }
  assert (NoDup (loans s)) as Hnd.
  { by apply consistent_loans_distinct. }
  assert (∀ b u, (b, u) ∈ list_borrowed_books s →
     u ∈ user_list s ∧ isbn b ∈ borrowed_books u ∧ b ∈ all_books s) as Hlines.
  { intros b u (Hu & i & Hi & Hb)%elem_of_borrowed_report.
    apply (lookup_book_stored s i b Hp) in Hb as [Hb <-]. done. }
  assert ((list_borrowed_books s).*1 ≡ₚ filter (λ b, ¬ available b ≠ 0) (all_books s))
    as Hperm.
  { apply NoDup_Permutation.
    - apply (NoDup_fmap_1 isbn). by rewrite Hisbns.
    - apply NoDup_filter. apply (NoDup_fmap_1 isbn). by apply placed_isbns_distinct.
    - intros b. rewrite list_elem_of_filter, list_elem_of_fmap. split.
      + intros ([b' u] & -> & (Hu & i & Hi & Hb)%elem_of_borrowed_report). cbn [fst].
        assert (i ∈ loans s) as Hin.
        { unfold loans. apply list_elem_of_bind. by exists u. }
        destruct (Hloan i Hin) as (b0 & Hb0 & Ha). simplify_eq.
        split; [lia|]. by apply (lookup_book_stored s i b' Hp).
      + intros [Ha Hb].
        assert (lookup_book (isbn b) s = Some b) as Hlook.
        { by apply (lookup_book_stored s (isbn b) b Hp). }
        pose proof (Hc (isbn b)) as Hcb. rewrite Hlook in Hcb.
        assert (isbn b ∈ loans s) as (u & Hi & Hu)%list_elem_of_bind.
        { apply occurrences_elem. lia. }
        exists (b, u). split; [done|]. apply elem_of_borrowed_report.
        split; [done|]. by exists (isbn b). }
  split_and!; try done.
  unfold list_available_books. rewrite Hperm. apply filter_app_complement.
Qed.

Lemma borrowed_report_complete_witness :
  isbn <$> (list_borrowed_books full_store).*1 = loans full_store ∧
  (∀ b u, (b, u) ∈ list_borrowed_books full_store →
     u ∈ user_list full_store ∧ isbn b ∈ borrowed_books u ∧ b ∈ all_books full_store) ∧
  (list_borrowed_books full_store).*1
    ≡ₚ filter (λ b, ¬ available b ≠ 0) (all_books full_store) ∧
  list_available_books full_store ++ (list_borrowed_books full_store).*1
    ≡ₚ all_books full_store.
Proof. apply (borrowed_report_complete full_store), full_store_reachable. Defined.

(** ** The title index *)

Lemma deref_cons_eq (l : chain) q n :
  snd <$> (snd <$> list_find (λ m : addr * Book, m.1 = q) (n :: l)) =
  if decide (n.1 = q) then Some n.2
  else snd <$> (snd <$> list_find (λ m : addr * Book, m.1 = q) l).
Proof.
  cbn [list_find]. case_decide; [done|].
  by destruct (list_find _ l) as [[? ?]|].
Qed.

Lemma deref_app_cons (l1 l2 : chain) x q :
  x.1 ∉ l1.*1 →
  snd <$> (snd <$> list_find (λ m : addr * Book, m.1 = q) (l1 ++ x :: l2)) =
  if decide (q = x.1) then Some x.2
  else snd <$> (snd <$> list_find (λ m : addr * Book, m.1 = q) (l1 ++ l2)).
Proof.
  induction l1 as [|n l1 IH]; intros Hx.
  - cbn [app]. rewrite deref_cons_eq. by repeat case_decide.
  - rewrite fmap_cons, not_elem_of_cons in Hx. destruct Hx as [Hn Hx].
    cbn [app]. rewrite !deref_cons_eq, IH by done.
    destruct (decide (n.1 = q)) as [<-|Hq]; [by rewrite decide_False|done].
Qed.

Lemma concat_insert_split (tbl : list chain) index x :
  (index < length tbl)%nat →
  ∃ l1 l2, concat tbl = l1 ++ l2 ∧
           concat (<[index := x :: bucket tbl index]> tbl) = l1 ++ x :: l2.
Proof.
  revert index. induction tbl as [|c tbl IH]; intros index Hlt; [cbn in Hlt; lia|].
  destruct index as [|index].
  - by exists [], (c ++ concat tbl).
  - change (bucket (c :: tbl) (S index)) with (bucket tbl index).
    destruct (IH index) as (l1 & l2 & H1 & H2); [cbn in Hlt; lia|].
    exists (c ++ l1), l2. cbn [insert list_insert concat].
    change (list_insert index ?y tbl) with (<[index := y]> tbl).
    split; [by rewrite H1, app_assoc|].
    etransitivity; [apply (f_equal (app c)), H2|]. by rewrite app_assoc.
Qed.

Lemma deref_insert_fresh (tbl : list chain) index p b q :
  (index < length tbl)%nat → p ∉ (concat tbl).*1 →
  deref (<[index := (p, b) :: bucket tbl index]> tbl) q =
  if decide (q = p) then Some b else deref tbl q.
Proof.
  intros Hlt Hp. unfold deref.
  destruct (concat_insert_split tbl index (p, b) Hlt) as (l1 & l2 & H1 & ->).
  rewrite H1 in *. rewrite deref_app_cons; [done|].
  rewrite fmap_app, not_elem_of_app in Hp. by destruct Hp.
Qed.

Lemma title_at_update f index k (tbl : list chain) q :
  (∀ b, title (f b) = title b) →
  title_at (update_book f index k tbl) q = title_at tbl q.
Proof.
  intros Hf. unfold title_at, deref.
  destruct (concat_update_book f index k tbl) as [j ->].
  rewrite list_find_alter by done.
  destruct (list_find _ (concat tbl)) as [[i [a b]]|]; [|done]. cbn.
  case_decide; cbn; [by rewrite Hf|done].
Qed.

Lemma bst_ordered_ext (tbl tbl' : list chain) root :
  (∀ q, q ∈ inorder root → title_at tbl' q = title_at tbl q) →
  bst_ordered tbl root → bst_ordered tbl' root.
Proof.
  induction root as [|q l IHl r IHr]; intros Hext Hord; [done|].
  cbn [bst_ordered inorder] in *.
  destruct Hord as (t & Hq & Hl & Hr & Hol & Hor).
  assert (∀ x, x ∈ inorder l → x ∈ inorder l ++ q :: inorder r) as Hinl.
  { intros x Hx. apply elem_of_app. by left. }
  assert (∀ x, x ∈ inorder r → x ∈ inorder l ++ q :: inorder r) as Hinr.
  { intros x Hx. apply elem_of_app. right. by apply list_elem_of_further. }
  exists t. split_and!.
  - rewrite Hext; [done|]. apply elem_of_app. right. apply list_elem_of_here.
  - intros x Hx. rewrite Hext by auto. by apply Hl.
  - intros x Hx. rewrite Hext by auto. by apply Hr.
  - apply IHl; [|done]. intros x Hx. by apply Hext, Hinl.
  - apply IHr; [|done]. intros x Hx. by apply Hext, Hinr.
Qed.

Lemma bst_insert_ordered (tbl : list chain) p t root :
  bst_ordered tbl root → title_at tbl p = Some t →
  ∃ root', bst_insert tbl p t root = Some root' ∧
           inorder root' ≡ₚ p :: inorder root ∧
           bst_ordered tbl root'.
Proof.
  intros Hord Hp. induction root as [|q l IHl r IHr].
  { exists (Node p Leaf Leaf). split_and!; [done..|].
    exists t. split_and!; try done; by intros x ?%elem_of_nil. }
  cbn [bst_ordered] in Hord. destruct Hord as (tq & Hq & Hl & Hr & Hol & Hor).
  cbn [bst_insert]. unfold title_at in Hq.
  destruct (deref tbl q) as [b|] eqn:Hb; simplify_eq/=.
  destruct (IHl Hol) as (l' & Hl' & Hpl & Hol').
  destruct (IHr Hor) as (r' & Hr' & Hpr & Hor').
  assert (title_at tbl q = Some (title b)) as Hq.
  { unfold title_at. by rewrite Hb. }
  destruct (strcmp t (title b)) eqn:Hcmp.
  - rewrite Hr'. eexists. split; [done|]. cbn [inorder bst_ordered]. split.
    + rewrite Hpr, <- !Permutation_middle. apply perm_swap.
    + exists (title b). split_and!; try done.
      intros x Hx. rewrite Hpr in Hx. apply elem_of_cons in Hx as [->|Hx]; [|by apply Hr].
      exists t. split; [done|]. by rewrite Hcmp.
  - rewrite Hl'. eexists. split; [done|]. cbn [inorder bst_ordered]. split.
    + by rewrite Hpl.
    + exists (title b). split_and!; try done.
      intros x Hx. rewrite Hpl in Hx. apply elem_of_cons in Hx as [->|Hx]; [|by apply Hl].
      by exists t.
  - rewrite Hr'. eexists. split; [done|]. cbn [inorder bst_ordered]. split.
    + rewrite Hpr, <- !Permutation_middle. apply perm_swap.
    + exists (title b). split_and!; try done.
      intros x Hx. rewrite Hpr in Hx. apply elem_of_cons in Hx as [->|Hx]; [|by apply Hr].
      exists t. split; [done|]. by rewrite Hcmp.
Qed.

Lemma link_book_index p b s :
  length (hash_table s) = HASH_TABLE_SIZE → fresh p s →
  index_sound s → index_sound (link_book p b s).
Proof.
  intros Hlen Hfresh (root & Hroot & Hperm & Hord).
  assert (hash_function (isbn b) < length (hash_table s))%nat as Hlt.
  { rewrite Hlen. apply hash_function_lt. }
  unfold index_sound, link_book, all_nodes. cbn [hash_table title_bst_root].
  set (tbl := <[hash_function (isbn b) :=
                  (p, b) :: bucket (hash_table s) (hash_function (isbn b))]>
                (hash_table s)).
  assert (∀ q, title_at tbl q = if decide (q = p) then Some (title b)
                                else title_at (hash_table s) q) as Hat.
  { intros q. unfold title_at, tbl. rewrite deref_insert_fresh by done.
    by case_decide. }
  assert (bst_ordered tbl root) as Hord'.
  { eapply bst_ordered_ext; [|done]. intros q Hq. rewrite Hat, decide_False; [done|].
    intros ->. apply Hfresh. by rewrite <- Hperm. }
  destruct (bst_insert_ordered tbl p (title b) root Hord') as (root' & Hins & Hp' & Ho').
  { by rewrite Hat, decide_True. }
  exists root'. rewrite Hroot. cbn. unfold insert_into_bst. split; [done|].
  split; [|done]. rewrite Hp', Hperm. unfold tbl.
  rewrite concat_insert_cons by done. by rewrite fmap_cons.
Qed.

Lemma index_exec o s s' :
  exec o s = Some s' → keeps_books o = true →
  length (hash_table s) = HASH_TABLE_SIZE →
  index_sound s → index_sound s'.
Proof.
  intros He Ho Hlen Hs. destruct o; cbn in He; try done.
  - case_decide as Hfresh; [|done]. simplify_eq. unfold add_book, insert_book.
    destruct (chain_find _ _); [done|]. cbn [snd]. by apply (link_book_index p _ s).
  - by simplify_eq.
  - simplify_eq. by destruct (remove_user_cases uid s) as [->|(k & u & _ & _ & ->)].
  - simplify_eq.
    destruct (issue_book_cases uid key s)
      as [->|(ui & u & bi & p & b & _ & _ & _ & _ & ->)]; [done|].
    destruct Hs as (root & Hroot & Hperm & Hord). exists root.
    unfold all_nodes in *. cbn [snd hash_table title_bst_root].
    rewrite update_book_all_addrs. split_and!; [done..|].
    eapply bst_ordered_ext; [|done]. intros q _. by apply title_at_update.
  - simplify_eq.
    destruct (return_book_cases uid key s)
      as [->|(ui & u & bi & p & b & idx & _ & _ & _ & ->)]; [done|].
    destruct Hs as (root & Hroot & Hperm & Hord). exists root.
    unfold all_nodes in *. cbn [snd hash_table title_bst_root].
    rewrite update_book_all_addrs. split_and!; [done..|].
    eapply bst_ordered_ext; [|done]. intros q _. by apply title_at_update.
Qed.

Lemma index_run ops s s' :
  run ops s = Some s' → forallb keeps_books ops = true →
  placed s ∧ consistent s → index_sound s → index_sound s'.
Proof.
  revert s. induction ops as [|o ops IH]; intros s Hr Hk Hs Hi; simplify_eq/=; [done|].
  destruct (exec o s) as [s1|] eqn:He; simplify_eq/=.
  apply andb_true_iff in Hk as [Ho Hk].
  eapply IH; [done|done|by eapply invariant_exec|].
  eapply index_exec; [done|done|apply Hs|done].
Qed.

Lemma index_sound_empty_store : index_sound empty_store.
Proof.
  exists Leaf. split_and!; [done| |done].
  unfold all_nodes, empty_store. cbn [hash_table inorder].
  assert (concat (replicate HASH_TABLE_SIZE ([] : chain)) = []) as ->; [|done].
  induction HASH_TABLE_SIZE; [done|]. by cbn.
Qed.

Lemma strcmp_refl a : strcmp a a = Eq.
Proof.
  unfold strcmp. pose proof (String.compare_antisym a a) as H.
  by destruct (String.compare a a).
Qed.

Lemma strcmp_lt_le a b : strcmp a b = Lt → String.le a b.
Proof. unfold strcmp, String.le, String.leb. by intros ->. Qed.

Lemma strcmp_ge_le a b : strcmp a b ≠ Lt → String.le b a.
Proof.
  unfold strcmp, String.le, String.leb. rewrite (String.compare_antisym a b).
  by destruct (String.compare b a).
Qed.

Lemma title_le_le a b : title_le a b ↔ String.le (title a) (title b).
Proof.
  unfold title_le, strcmp, String.le, String.leb.
  by destruct (String.compare (title a) (title b)).
Qed.

Lemma title_at_deref tbl q t :
  title_at tbl q = Some t ↔ ∃ b, deref tbl q = Some b ∧ title b = t.
Proof.
  unfold title_at. destruct (deref tbl q) as [b|]; cbn.
  - split; [intros [= <-]; by exists b|by intros (? & [= <-] & <-)].
  - split; [done|by intros (? & ? & _)].
Qed.

Lemma inorder_traversal_omap tbl root :
  bst_ordered tbl root →
  inorder_traversal tbl root = Some (omap (deref tbl) (inorder root)) ∧
  StronglySorted title_le (omap (deref tbl) (inorder root)).
Proof.
  induction root as [|q l IHl r IHr]; intros Hord.
  { split; [done|constructor]. }
  cbn [bst_ordered] in Hord. destruct Hord as (t & Hq & Hl & Hr & Hol & Hor).
  destruct (IHl Hol) as [Htl Hsl]. destruct (IHr Hor) as [Htr Hsr].
  apply title_at_deref in Hq as (b & Hb & <-).
  cbn [inorder_traversal inorder]. rewrite Htl, Hb, Htr. cbn.
  rewrite omap_app, (omap_cons_Some _ q _ b) by done. split; [done|].
  assert (∀ y, y ∈ omap (deref tbl) (inorder r) → title_le b y) as Hby.
  { intros y (x & Hx & Hy)%list_elem_of_omap.
    destruct (Hr x Hx) as (tx & (bx & Hbx & <-)%title_at_deref & Hcmp). simplify_eq.
    by apply title_le_le, strcmp_ge_le. }
  apply StronglySorted_app_2; [|done|].
  - intros x1 x2 (x & Hx & Hy)%list_elem_of_omap Hx2.
    destruct (Hl x Hx) as (tx & (bx & Hbx & <-)%title_at_deref & Hcmp). simplify_eq.
    apply strcmp_lt_le in Hcmp.
    apply elem_of_cons in Hx2 as [->|Hx2]; [by apply title_le_le|].
    apply title_le_le. etrans; [done|]. by apply title_le_le, Hby.
  - constructor; [done|]. by apply Forall_forall.
Qed.

Lemma deref_stored (l : chain) q b :
  NoDup l.*1 → (q, b) ∈ l →
  snd <$> (snd <$> list_find (λ m : addr * Book, m.1 = q) l) = Some b.
Proof.
  induction l as [|n l IH]; intros Hnd Hin; [by apply elem_of_nil in Hin|].
  rewrite fmap_cons in Hnd. apply NoDup_cons in Hnd as [Hn Hnd].
  rewrite deref_cons_eq. apply elem_of_cons in Hin as [<-|Hin].
  - by rewrite decide_True.
  - rewrite decide_False; [by apply IH|]. intros Heq. apply Hn. rewrite Heq.
    by apply (list_elem_of_fmap_2 fst) in Hin.
Qed.

Lemma omap_deref_stored (tbl : list chain) :
  NoDup (concat tbl).*1 →
  omap (deref tbl) (concat tbl).*1 = (concat tbl).*2.
Proof.
  intros Hnd. unfold deref.
  assert (∀ sub : chain, (∀ n, n ∈ sub → n ∈ concat tbl) →
    omap (λ q, snd <$> (snd <$> list_find (λ m : addr * Book, m.1 = q) (concat tbl)))
      sub.*1 = sub.*2) as Hsub.
  { induction sub as [|[q b] sub IH]; intros Hin; [done|].
    rewrite !fmap_cons. cbn [fst snd].
    rewrite (omap_cons_Some _ q _ b).
    - f_equal. apply IH. intros n Hn. by apply Hin, list_elem_of_further.
    - apply deref_stored; [done|]. apply Hin, list_elem_of_here. }
  by apply Hsub.
Qed.

Lemma search_by_title_ordered tbl root t :
  bst_ordered tbl root →
  ∃ r, search_by_title tbl root t = Some r ∧
       match r with
       | Some q => q ∈ inorder root ∧ title_at tbl q = Some t
       | None => ∀ q, q ∈ inorder root → title_at tbl q ≠ Some t
       end.
Proof.
  induction root as [|q l IHl r IHr]; intros Hord.
  { exists None. split; [done|]. by intros q ?%elem_of_nil. }
  cbn [bst_ordered] in Hord. destruct Hord as (tq & Hq & Hl & Hr & Hol & Hor).
  pose proof Hq as (b & Hb & <-)%title_at_deref.
  cbn [search_by_title inorder]. rewrite Hb.
  destruct (strcmp t (title b)) eqn:Hcmp.
  - exists (Some q). split; [done|]. split.
    + apply elem_of_app. right. apply list_elem_of_here.
    + apply String.compare_eq_iff in Hcmp. by rewrite Hcmp.
  - destruct (IHl Hol) as (res & -> & Hres). exists res. split; [done|].
    destruct res as [q'|].
    + destruct Hres as [Hin Ht]. split; [|done]. apply elem_of_app. by left.
    + intros x [Hx|[->|Hx]%elem_of_cons]%elem_of_app.
      * by apply Hres.
      * rewrite Hq. intros [= Heq]. rewrite Heq, strcmp_refl in Hcmp. done.
      * destruct (Hr x Hx) as (tx & -> & Hge). intros [= ->]. done.
  - destruct (IHr Hor) as (res & -> & Hres). exists res. split; [done|].
    destruct res as [q'|].
    + destruct Hres as [Hin Ht]. split; [|done].
      apply elem_of_app. right. by apply list_elem_of_further.
    + intros x [Hx|[->|Hx]%elem_of_cons]%elem_of_app.
      * destruct (Hl x Hx) as (tx & -> & Hlt). intros [= ->]. congruence.
      * rewrite Hq. intros [= Heq]. rewrite Heq, strcmp_refl in Hcmp. done.
      * by apply Hres.
Qed.

Lemma index_sound_list s :
  NoDup (all_nodes s).*1 → index_sound s →
  ∃ books, list_all_books s = Some books ∧
           books ≡ₚ all_books s ∧ StronglySorted title_le books.
Proof.
  intros Hnd (root & Hroot & Hperm & Hord).
  destruct (inorder_traversal_omap _ _ Hord) as [Htrav Hsorted].
  exists (omap (deref (hash_table s)) (inorder root)). split_and!; [|..|done].
  - unfold list_all_books. rewrite Hroot. done.
  - rewrite Hperm. unfold all_books, all_nodes in *. by rewrite omap_deref_stored.
Qed.

Lemma index_sound_search s t :
  NoDup (all_nodes s).*1 → index_sound s →
  ∃ root r,
    title_bst_root s = Some root ∧
    search_by_title (hash_table s) root t = Some r ∧
    match r with
    | Some q => ∃ b, (q, b) ∈ all_nodes s ∧ title b = t
    | None => ∀ b, b ∈ all_books s → title b ≠ t
    end.
Proof.
  intros Hnd (root & Hroot & Hperm & Hord).
  destruct (search_by_title_ordered _ _ t Hord) as (r & Hsearch & Hr).
  exists root, r. split_and!; [done..|]. destruct r as [q|].
  - destruct Hr as [_ (b & Hb & Ht)%title_at_deref]. exists b. split; [|done].
    unfold deref in Hb. destruct (list_find _ _) as [[i [a b']]|] eqn:Hf; simplify_eq/=.
    apply list_find_Some in Hf as (Hi & Ha & _). cbn in Ha. subst a.
    by eapply list_elem_of_lookup_2.
  - intros b ([q b'] & -> & Hin)%list_elem_of_fmap. cbn [snd]. intros Ht.
    apply (Hr q).
    + rewrite Hperm. by apply (list_elem_of_fmap_2 fst) in Hin.
    + apply title_at_deref. exists b'. split; [|done].
      unfold deref. by apply deref_stored.
Qed.

(** X13. After a run from the empty store that never calls [remove_book],
    [list_all_books] reads only live books and prints every stored book
    exactly once, in non-decreasing order of title as [strcmp] orders
    them. *)
Theorem list_all_books_sorted (ops : list Op) (s : State) :
  run ops empty_store = Some s →
  forallb keeps_books ops = true →
  ∃ books, list_all_books s = Some books ∧
           books ≡ₚ all_books s ∧ StronglySorted title_le books.
Proof.
  intros Hr Hk. apply index_sound_list.
  - apply reachable_addrs. by exists ops.
  - eapply index_run; [done|done| |apply index_sound_empty_store].
    split; [apply placed_empty_store|apply consistent_empty_store].
Qed.

Lemma list_all_books_sorted_witness :
  ∃ books, list_all_books full_store = Some books ∧
           books ≡ₚ all_books full_store ∧ StronglySorted title_le books.
Proof.
  apply (list_all_books_sorted full_ops full_store).
  - by vm_compute.
  - by vm_compute.
Defined.

(** X14. After a run from the empty store that never calls [remove_book],
    [search_by_title] reads only live books; it returns a stored book whose
    title is the one asked for whenever some stored book has that title, and
    it returns nothing only when no stored book has it. *)
Theorem search_by_title_finds (ops : list Op) (s : State) (t : string) :
  run ops empty_store = Some s →
  forallb keeps_books ops = true →
  ∃ root r,
    title_bst_root s = Some root ∧
    search_by_title (hash_table s) root t = Some r ∧
    match r with
    | Some q => ∃ b, (q, b) ∈ all_nodes s ∧ title b = t
    | None => ∀ b, b ∈ all_books s → title b ≠ t
    end.
Proof.
  intros Hr Hk. apply index_sound_search.
  - apply reachable_addrs. by exists ops.
  - eapply index_run; [done|done| |apply index_sound_empty_store].
    split; [apply placed_empty_store|apply consistent_empty_store].
Qed.

Lemma search_by_title_finds_witness :
  ∃ root r,
    title_bst_root loan_store = Some root ∧
    search_by_title (hash_table loan_store) root "Go" = Some r ∧
    match r with
    | Some q => ∃ b, (q, b) ∈ all_nodes loan_store ∧ title b = "Go"
    | None => ∀ b, b ∈ all_books loan_store → title b ≠ "Go"
    end.
Proof.
  apply (search_by_title_finds loan_ops loan_store "Go").
  - by vm_compute.
  - by vm_compute.
Defined.

(** ** Reading a line of input *)

Lemma fgets_chars_spec n (file l rest : string) :
  fgets_chars n file = (l, rest) →
  ∃ body,
    all_chars (not_char newline) body = true ∧
    file = l +:+ rest ∧
    (String.length l ≤ n)%nat ∧
    (l = body +:+ String newline "" ∨
     l = body ∧ (String.length body = n ∨ rest = "")).
Proof.
  revert file l rest. induction n as [|n IH]; intros file l rest Hf.
  { cbn in Hf. simplify_eq. exists "". split_and!; [done..|]. right. auto. }
  destruct file as [|c file].
  { cbn in Hf. simplify_eq. exists "". split_and!; [done|done|cbn; lia|]. right. auto. }
  cbn [fgets_chars] in Hf. destruct (Ascii.eqb c newline) eqn:Hc.
  - apply Ascii.eqb_eq in Hc as ->. simplify_eq. exists "".
    split_and!; [done|done|cbn; lia|]. by left.
  - destruct (fgets_chars n file) as [l' rest'] eqn:Hrec. injection Hf as <- <-.
    destruct (IH file l' rest' Hrec) as (body & Hnl & -> & Hlen & Hshape).
    exists (String c body). split_and!.
    + cbn [all_chars]. unfold not_char at 1. by rewrite Hc, Hnl.
    + done.
    + cbn. lia.
    + destruct Hshape as [Hl|[Hl Hend]]; rewrite Hl; [by left|]. right. split; [done|].
      destruct Hend as [Hn|Hr]; [left; cbn; by rewrite Hn|by right].
Qed.

Lemma strip_newline_line (body : string) :
  all_chars (not_char newline) body = true →
  strip_newline (body +:+ String newline "") = body.
Proof.
  induction body as [|c body IH]; [done|]. cbn [all_chars].
  intros [Hc Hnl]%andb_true_iff. rewrite string_app_cons. cbn [strip_newline].
  rewrite IH by done. destruct body; [|done]. done.
Qed.

Lemma strip_newline_plain (body : string) :
  all_chars (not_char newline) body = true → strip_newline body = body.
Proof.
  induction body as [|c body IH]; [done|]. cbn [all_chars].
  intros [Hc Hnl]%andb_true_iff. cbn [strip_newline].
  unfold not_char in Hc. apply negb_true_iff in Hc.
  destruct body as [|c' body]; [by rewrite Hc|]. by rewrite IH.
Qed.

Lemma c_string_chars P (l : string) :
  all_chars P l = true → all_chars P (c_string l) = true.
Proof.
  induction l as [|c l IH]; [done|]. cbn [all_chars c_string].
  intros [Hc Hl]%andb_true_iff. destruct (Ascii.eqb c nul); [done|].
  cbn [all_chars]. by rewrite Hc, IH.
Qed.

Lemma c_string_spec (l : string) :
  all_chars (not_char nul) (c_string l) = true ∧
  (c_string l = l ∨ ∃ lost, l = c_string l +:+ String nul lost).
Proof.
  induction l as [|c l [IH1 IH2]]; [by split; [|left]|].
  cbn [c_string]. destruct (Ascii.eqb c nul) eqn:Hc.
  - apply Ascii.eqb_eq in Hc as ->. split; [done|]. right. by exists l.
  - split.
    + cbn [all_chars]. unfold not_char at 1. by rewrite Hc, IH1.
    + destruct IH2 as [->|[lost Hl]]; [by left|]. right. exists lost.
      by rewrite string_app_cons, <- Hl.
Qed.

Lemma c_string_line (body : string) :
  c_string body = body →
  c_string (body +:+ String newline "") = body +:+ String newline "".
Proof.
  induction body as [|c body IH]; [done|]. cbn [c_string]. rewrite string_app_cons.
  cbn [c_string]. destruct (Ascii.eqb c nul); [done|]. intros [= Hb]. by rewrite IH.
Qed.

Lemma c_string_cut (body tail lost : string) :
  body = c_string body +:+ String nul lost →
  c_string (body +:+ tail) = c_string body.
Proof.
  revert lost. induction body as [|c body IH]; intros lost; [done|].
  cbn [c_string]. rewrite string_app_cons. cbn [c_string].
  destruct (Ascii.eqb c nul); [done|]. rewrite string_app_cons.
  intros [= Hb]. by rewrite (IH lost).
Qed.

(** X15. On input that is not at its end and with room for at least the
    terminator, [read_string] leaves in the buffer a string without a
    newline that fits [length] bytes with its terminator. Either the string
    is the input up to its first newline and that newline is consumed; or no
    newline was reached and the string is a prefix of the input, whose
    remainder stays in the input for the next read (which happens exactly
    when the line is too long for the buffer, unless the input ended); or
    the part of the input that was read holds a NUL byte, and then the string
    ends before it while everything read after it is consumed and lost. *)
Theorem read_string_spec (length : Z) (stdin : string) :
  1 <= length → stdin ≠ "" →
  ∃ buffer rest,
    read_string length stdin = Some (buffer, rest) ∧
    Z.of_nat (String.length buffer) <= length - 1 ∧
    all_chars (not_char newline) buffer = true ∧
    all_chars (not_char nul) buffer = true ∧
    (stdin = buffer +:+ String newline rest ∨
     stdin = buffer +:+ rest ∧
       (Z.of_nat (String.length buffer) = length - 1 ∨ rest = "") ∨
     ∃ lost,
       stdin = buffer +:+ String nul (lost +:+ rest) ∧
       Z.of_nat (String.length buffer + 1 + String.length lost) <= length - 1).
Proof.
  intros Hlen Hne. unfold read_string.
  destruct (Z.leb_spec length 0) as [?|_]; [lia|].
  destruct (Z.eqb_spec length 1) as [->|Hl1].
  { exists "", stdin. split_and!; [done|cbn; lia|done|done|]. right. left. split; [done|by left]. }
  unfold fgets. destruct stdin as [|c stdin]; [done|].
  destruct (fgets_chars (Z.to_nat length - 1) (String c stdin)) as [l rest] eqn:Hf.
  cbn [mbind option_bind].
  destruct (fgets_chars_spec _ _ _ _ Hf) as (body & Hnl & Hfile & Hlen' & Hshape).
  exists (strip_newline (c_string l)), rest. split; [done|].
  destruct (c_string_spec body) as [Hnul Hbody].
  pose proof (c_string_chars _ _ Hnl) as Hcnl.
  destruct Hshape as [->|[-> Hend]].
  - rewrite string_length_app in Hlen'. cbn [String.length] in Hlen'.
    destruct Hbody as [Heq|[lost Hlost]].
    + rewrite (c_string_line _ Heq), strip_newline_line by done.
      rewrite Heq in Hnul. split_and!; [lia|done|done|]. left.
      by rewrite Hfile, string_app_assoc.
    + rewrite (c_string_cut _ _ _ Hlost), strip_newline_plain by done.
      split_and!; [|done|done|].
      { rewrite Hlost, string_length_app in Hlen'. cbn [String.length] in Hlen'. lia. }
      right. right. exists (lost +:+ String newline "").
      split.
      * rewrite Hfile. rewrite Hlost at 1.
        repeat (rewrite string_app_assoc || rewrite string_app_cons). done.
      * rewrite Hlost, !string_length_app in Hlen'. cbn [String.length] in Hlen'.
        rewrite string_length_app. cbn [String.length]. lia.
  - rewrite strip_newline_plain by done.
    destruct Hbody as [Heq|[lost Hlost]].
    + rewrite Heq in *. split_and!; [lia|done|done|]. right. left. split; [done|].
      destruct Hend as [Hn|Hr]; [left; lia|by right].
    + split_and!; [|done|done|].
      { rewrite Hlost, string_length_app in Hlen'. cbn [String.length] in Hlen'. lia. }
      right. right. exists lost. split.
      * rewrite Hfile. rewrite Hlost at 1.
        repeat (rewrite string_app_assoc || rewrite string_app_cons). done.
      * rewrite Hlost, !string_length_app in Hlen'. cbn [String.length] in Hlen'. lia.
Qed.

Lemma read_string_spec_witness :
  (∃ buffer rest,
     read_string 5 "Dune: part one" = Some (buffer, rest) ∧
     Z.of_nat (String.length buffer) <= 5 - 1 ∧
     all_chars (not_char newline) buffer = true ∧
     all_chars (not_char nul) buffer = true ∧
     ("Dune: part one" = buffer +:+ String newline rest ∨
      "Dune: part one" = buffer +:+ rest ∧
        (Z.of_nat (String.length buffer) = 5 - 1 ∨ rest = "") ∨
      ∃ lost,
        "Dune: part one" = buffer +:+ String nul (lost +:+ rest) ∧
        Z.of_nat (String.length buffer + 1 + String.length lost) <= 5 - 1)) ∧
  read_string 5 "Dune: part one" = Some ("Dune", ": part one") ∧
  read_string 20 ("Dune" +:+ String newline "next")  = Some ("Dune", "next") ∧
  read_string 20 ("Du" +:+ String nul ("ne" +:+ String newline "next"))
    = Some ("Du", "next").
Proof.
  split; [|by vm_compute].
  apply (read_string_spec 5 "Dune: part one"); [lia|done].
Defined.

(** ** What a parsed line holds *)

Lemma chomp_no_newline (line : string) :
  all_chars (not_char newline) (chomp line) = true.
Proof.
  induction line as [|c line IH]; [done|]. cbn [chomp].
  destruct (Ascii.eqb c newline) eqn:Hc; [done|].
  cbn [all_chars]. unfold not_char at 1. by rewrite Hc, IH.
Qed.

Lemma skip_delims_chars P (s : string) :
  all_chars P s = true → all_chars P (skip_delims s) = true.
Proof.
  induction s as [|c s IH]; [done|]. cbn [skip_delims all_chars].
  intros [Hc Hs]%andb_true_iff. destruct (Ascii.eqb c pipe); [by apply IH|].
  cbn [all_chars]. by rewrite Hc, Hs.
Qed.

Lemma span_token_chars P (s tok rest : string) :
  span_token s = (tok, rest) → all_chars P s = true →
  all_chars P tok = true ∧ all_chars P rest = true.
Proof.
  revert tok rest. induction s as [|c s IH]; intros tok rest Hspan Hs.
  { cbn in Hspan. by simplify_eq. }
  cbn [span_token all_chars] in *. apply andb_true_iff in Hs as [Hc Hs].
  destruct (Ascii.eqb c pipe); [by simplify_eq|].
  destruct (span_token s) as [tok' rest'] eqn:Hrec. injection Hspan as <- <-.
  destruct (IH tok' rest' eq_refl Hs) as [Htok Hrest].
  cbn [all_chars]. by rewrite Hc, Htok.
Qed.

Lemma span_token_no_pipe (s tok rest : string) :
  span_token s = (tok, rest) → all_chars (not_char pipe) tok = true.
Proof.
  revert tok rest. induction s as [|c s IH]; intros tok rest Hspan.
  { cbn in Hspan. by simplify_eq. }
  cbn [span_token] in Hspan. destruct (Ascii.eqb c pipe) eqn:Hc; [by simplify_eq|].
  destruct (span_token s) as [tok' rest'] eqn:Hrec. injection Hspan as <- <-.
  cbn [all_chars]. unfold not_char at 1. rewrite Hc. by apply (IH tok' rest').
Qed.

Lemma strtok_token (s tok rest : string) :
  strtok s = Some (tok, rest) →
  tok ≠ "" ∧ all_chars (not_char pipe) tok = true ∧
  (all_chars (not_char newline) s = true →
   all_chars (not_char newline) tok = true ∧ all_chars (not_char newline) rest = true).
Proof.
  unfold strtok. intros Hs.
  destruct (skip_delims s) as [|c s'] eqn:Hskip; [done|].
  assert (span_token (String c s') = (tok, rest)) as Hspan by congruence.
  clear Hs. pose proof Hspan as Hs.
  split_and!.
  - assert (Ascii.eqb c pipe = false) as Hc.
    { clear Hs Hspan. induction s as [|d s IH]; [done|]. cbn [skip_delims] in Hskip.
      destruct (Ascii.eqb d pipe) eqn:Hd; [by apply IH|]. by simplify_eq. }
    cbn [span_token] in Hs. rewrite Hc in Hs.
    destruct (span_token s') as [? ?]. by simplify_eq.
  - by apply (span_token_no_pipe _ _ _ Hspan).
  - intros Hnl. apply (span_token_chars _ _ _ _ Hspan).
    rewrite <- Hskip. by apply skip_delims_chars.
Qed.

Lemma next_field_token cap (s tok rest : string) :
  next_field cap s = Parsed_ok (tok, rest) →
  all_chars (not_char newline) s = true →
  field_ok cap tok = true ∧ all_chars (not_char newline) rest = true.
Proof.
  unfold next_field. intros Hs Hnl.
  destruct (strtok s) as [[tok' rest']|] eqn:Htok; [|done].
  case_decide as Hlen; [|done]. simplify_eq.
  destruct (strtok_token _ _ _ Htok) as (Hne & Hnp & Hchars).
  destruct (Hchars Hnl) as [Htnl Hrnl]. split; [|done].
  unfold field_ok. destruct tok as [|c tok]; [done|].
  apply andb_true_iff. split; [by apply Nat.ltb_lt|].
  unfold clean. clear -Hnp Htnl.
  induction (String c tok) as [|d t IH]; [done|]. cbn [all_chars] in *.
  apply andb_true_iff in Hnp as [Hd1 Hnp]. apply andb_true_iff in Htnl as [Hd2 Htnl].
  by rewrite Hd1, Hd2, IH.
Qed.

Lemma atoi_ok (s : string) z : atoi s = Some z → int_ok z = true.
Proof.
  unfold atoi, int_ok. cbn zeta.
  destruct ((INT_MIN <=? atoi_value s) && (atoi_value s <=? INT_MAX)) eqn:Hr; [|done].
  by intros [= <-].
Qed.

Lemma next_int_token (s : string) z rest :
  next_int s = Parsed_ok (z, rest) →
  all_chars (not_char newline) s = true →
  int_ok z = true ∧ all_chars (not_char newline) rest = true.
Proof.
  unfold next_int. intros Hs Hnl.
  destruct (strtok s) as [[tok' rest']|] eqn:Htok; [|done].
  destruct (atoi tok') as [z'|] eqn:Hz; [|done]. simplify_eq.
  destruct (strtok_token _ _ _ Htok) as (_ & _ & Hchars).
  destruct (Hchars Hnl) as [_ Hrnl]. split; [by eapply atoi_ok|done].
Qed.

Lemma Parsed_bind_ok {A B} (f : A → Parsed B) (x : Parsed A) b :
  x ≫= f = Parsed_ok b → ∃ a, x = Parsed_ok a ∧ f a = Parsed_ok b.
Proof. destruct x as [a| |]; [|done..]. intros Hf. by exists a. Qed.

Lemma parse_book_ok (line : string) (b : Book) :
  all_chars (not_char newline) line = true →
  parse_book line = Parsed_ok b → book_ok b = true.
Proof.
  intros Hnl. unfold parse_book.
  intros ([i r1] & H1 & Hb)%Parsed_bind_ok.
  apply Parsed_bind_ok in Hb as ([t r2] & H2 & Hb).
  apply Parsed_bind_ok in Hb as ([a r3] & H3 & Hb).
  apply Parsed_bind_ok in Hb as ([g r4] & H4 & Hb).
  apply Parsed_bind_ok in Hb as ([av r5] & H5 & Hb).
  apply Parsed_bind_ok in Hb as ([bc r6] & H6 & Hb).
  injection Hb as <-.
  destruct (next_field_token _ _ _ _ H1 Hnl) as [Hi Hn1].
  destruct (next_field_token _ _ _ _ H2 Hn1) as [Ht Hn2].
  destruct (next_field_token _ _ _ _ H3 Hn2) as [Ha Hn3].
  destruct (next_field_token _ _ _ _ H4 Hn3) as [Hg Hn4].
  destruct (next_int_token _ _ _ H5 Hn4) as [Hav Hn5].
  destruct (next_int_token _ _ _ H6 Hn5) as [Hbc _].
  unfold book_ok. cbn. by rewrite Hi, Ht, Ha, Hg, Hav, Hbc.
Qed.

Lemma parse_borrowed_ok n (rest : string) (l : list string) :
  all_chars (not_char newline) rest = true →
  parse_borrowed n rest = Parsed_ok l →
  length l = n ∧ forallb (field_ok MAX_ISBN_LENGTH) l = true.
Proof.
  revert rest l. induction n as [|n IH]; intros rest l Hnl Hp.
  { cbn in Hp. by simplify_eq. }
  cbn [parse_borrowed] in Hp.
  destruct (strtok rest) as [[tok rest']|] eqn:Htok; [|done].
  case_decide as Hlen; [|done].
  apply Parsed_bind_ok in Hp as (l' & Hl' & Hp). injection Hp as <-.
  assert (next_field MAX_ISBN_LENGTH rest = Parsed_ok (tok, rest')) as Hnf.
  { unfold next_field. rewrite Htok. by rewrite decide_True. }
  destruct (next_field_token _ _ _ _ Hnf Hnl) as [Hok Hn'].
  destruct (IH rest' l' Hn' Hl') as [Hlen' Hall]. cbn. by rewrite Hlen', Hok, Hall.
Qed.

Lemma parse_user_ok (line : string) (u : User) :
  all_chars (not_char newline) line = true →
  parse_user line = Parsed_ok u → user_ok u = true.
Proof.
  intros Hnl. unfold parse_user.
  intros ([uid r1] & H1 & Hu)%Parsed_bind_ok.
  apply Parsed_bind_ok in Hu as ([n r2] & H2 & Hu).
  apply Parsed_bind_ok in Hu as ([cnt r3] & H3 & Hu).
  case_decide as Hcnt; [|done].
  apply Parsed_bind_ok in Hu as (l & Hl & Hu). injection Hu as <-.
  destruct (next_int_token _ _ _ H1 Hnl) as [Hid Hn1].
  destruct (next_field_token _ _ _ _ H2 Hn1) as [Hname Hn2].
  destruct (next_int_token _ _ _ H3 Hn2) as [_ Hn3].
  destruct (parse_borrowed_ok _ _ _ Hn3 Hl) as [Hlen Hall].
  unfold user_ok, borrowed_count. cbn. rewrite Hid, Hname, Hall, Hlen.
  rewrite !andb_true_r. apply Nat.leb_le. lia.
Qed.

(** ** The loaders on any file *)

Lemma fgets_shorter size (file line rest : string) :
  (2 ≤ size)%nat → fgets size file = Some (line, rest) →
  (String.length rest < String.length file)%nat.
Proof.
  intros Hsize. unfold fgets. destruct file as [|c file]; [done|].
  destruct (size - 1)%nat as [|n] eqn:Hn; [lia|]. intros [= Hf].
  cbn [fgets_chars] in Hf. destruct (Ascii.eqb c newline).
  - simplify_eq. cbn. lia.
  - destruct (fgets_chars n file) as [l rest'] eqn:Hrec. injection Hf as <- <-.
    destruct (fgets_chars_spec _ _ _ _ Hrec) as (_ & _ & -> & _).
    cbn [String.length]. rewrite string_length_app. lia.
Qed.

(** Any [fuel] above the length of the file gives the same lines. *)
Lemma file_lines_fuel fuel1 fuel2 size (file : string) :
  (2 ≤ size)%nat →
  (String.length file < fuel1)%nat → (String.length file < fuel2)%nat →
  file_lines fuel1 size file = file_lines fuel2 size file.
Proof.
  intros Hsize. revert fuel2 file.
  induction fuel1 as [|fuel1 IH]; intros fuel2 file H1 H2; [lia|].
  destruct fuel2 as [|fuel2]; [lia|]. cbn [file_lines].
  destruct (fgets size file) as [[line rest]|] eqn:Hf; [|done].
  pose proof (fgets_shorter _ _ _ _ Hsize Hf). f_equal. apply IH; lia.
Qed.

Lemma file_lines_no_newline fuel size (file : string) :
  Forall (λ l, all_chars (not_char newline) l = true) (file_lines fuel size file).
Proof.
  revert file. induction fuel as [|fuel IH]; intros file; [constructor|].
  cbn [file_lines]. destruct (fgets size file) as [[line rest]|]; [|constructor].
  constructor; [apply chomp_no_newline|apply IH].
Qed.

Lemma records_cons {A} (parse : string → Parsed A) l ls :
  records parse (l :: ls) =
  match parse l with Parsed_ok a => [a] | _ => [] end ++ records parse ls.
Proof. reflexivity. Qed.

Lemma records_parsed {A} (parse : string → Parsed A) (lines : list string) (a : A) :
  a ∈ records parse lines → ∃ l, l ∈ lines ∧ parse l = Parsed_ok a.
Proof.
  unfold records. intros (l & Ha & Hl)%list_elem_of_bind. exists l. split; [done|].
  destruct (parse l) as [a'| |]; [|by apply elem_of_nil in Ha..].
  by apply list_elem_of_singleton in Ha as ->.
Qed.

Lemma foldr_max_base (x b : Z) (l : list Z) :
  foldr Z.max (Z.max b x) l = Z.max x (foldr Z.max b l).
Proof. induction l as [|y l IH]; cbn; [lia|]. rewrite IH. lia. Qed.

Lemma foldl_max_foldr (a : Z) (l : list Z) :
  foldl Z.max a l = foldr Z.max a l.
Proof.
  revert a. induction l as [|y l IH]; intros a; [done|]. cbn.
  by rewrite IH, foldr_max_base.
Qed.

Lemma foldr_max_le (a : Z) (l : list Z) :
  a <= foldr Z.max a l ∧ Forall (λ x, x <= foldr Z.max a l) l.
Proof.
  induction l as [|y l [IH1 IH2]]; cbn; [split; [lia|constructor]|].
  split; [lia|]. constructor; [lia|]. eapply Forall_impl; [done|]. cbn. intros. lia.
Qed.

Lemma foldr_max_bound (a b : Z) (l : list Z) :
  a <= b → Forall (λ x, x <= b) l → foldr Z.max a l <= b.
Proof. intros Ha. induction 1; cbn; lia. Qed.

Lemma load_users_loop_lines fuel (file : string) temp mx :
  (String.length file < fuel)%nat →
  well_defined parse_user (file_lines fuel 1024 file) →
  load_users_loop fuel file temp mx =
  Some (reverse (records parse_user (file_lines fuel 1024 file)) ++ temp,
        foldl Z.max mx (user_id <$> records parse_user (file_lines fuel 1024 file))).
Proof.
  revert file temp mx. induction fuel as [|fuel IH]; intros file temp mx Hfuel Hdef; [lia|].
  cbn [load_users_loop file_lines] in *.
  destruct (fgets 1024 file) as [[line rest]|] eqn:Hf; [|done].
  pose proof (fgets_shorter 1024 _ _ _ ltac:(lia) Hf) as Hshort.
  apply Forall_cons in Hdef as [Hline Hdef]. rewrite records_cons.
  destruct (parse_user (chomp line)) as [u| |] eqn:Hu; [| |done].
  - rewrite IH by (lia || done). cbn [app fmap list_fmap foldl].
    rewrite reverse_cons, <- app_assoc. cbn [app]. do 3 f_equal.
    destruct (user_id u >? mx) eqn:Hgt; [apply Z.gtb_lt in Hgt|]; lia.
  - by rewrite IH by (lia || done).
Qed.

Lemma load_users_loop_max fuel (file : string) temp mx temp' mx' :
  load_users_loop fuel file temp mx = Some (temp', mx') →
  ∃ new, temp' = reverse new ++ temp ∧ mx' = foldl Z.max mx (user_id <$> new).
Proof.
  revert file temp mx. induction fuel as [|fuel IH]; intros file temp mx Hl; [done|].
  cbn [load_users_loop] in Hl.
  destruct (fgets 1024 file) as [[line rest]|]; [|simplify_eq; by exists []].
  destruct (parse_user (chomp line)) as [u| |]; [| |done].
  - destruct (IH _ _ _ Hl) as (new & -> & ->). exists (u :: new).
    rewrite reverse_cons, <- app_assoc. split; [done|]. cbn [fmap list_fmap foldl].
    f_equal. destruct (user_id u >? mx) eqn:Hgt; [apply Z.gtb_lt in Hgt|]; lia.
  - by apply IH in Hl.
Qed.

(** X16. For a users file without a NUL byte, as long as no line drives the
    parser out of defined behaviour (a field too long for its buffer, a
    number that an [int] cannot hold, a borrowed count outside 0..10 or
    above the number of ISBNs on the line), [load_users_from_file] returns;
    the new user list is exactly the records of the lines that have their
    fields, in file order, a line that lacks a field being skipped; every
    loaded record has an [int] identifier, a name and ISBNs that fit their
    buffers, and at most [MAX_BORROWED] books; [next_user_id] becomes one
    more than the largest of 1000 and the loaded identifiers, so it is above
    every loaded identifier unless one of them is [INT_MAX]; the table and
    the title index are not touched. *)
Theorem load_users_from_file_lines (content : string) (s : State) :
  all_chars (not_char nul) content = true →
  well_defined parse_user (lines_of 1024 content) →
  ∃ s',
    load_users_from_file (Some content) s = Some s' ∧
    user_list s' = records parse_user (lines_of 1024 content) ∧
    forallb user_ok (user_list s') = true ∧
    next_user_id s' = wrap_int (foldr Z.max 1000 (user_id <$> user_list s') + 1) ∧
    (Forall (λ u, user_id u < INT_MAX) (user_list s') →
     1001 <= next_user_id s' ∧
     Forall (λ u, user_id u < next_user_id s') (user_list s')) ∧
    hash_table s' = hash_table s ∧
    title_bst_root s' = title_bst_root s.
Proof.
  intros _ Hdef. unfold load_users_from_file, lines_of in *.
  rewrite load_users_loop_lines by (lia || done).
  set (recs := records parse_user _). cbn [mbind option_bind].
  eexists. split; [done|]. cbn [user_list next_user_id hash_table title_bst_root].
  assert (rev_append (reverse recs ++ []) [] = recs) as ->.
  { rewrite app_nil_r. change (rev_append ?l []) with (reverse l).
    apply reverse_involutive. }
  rewrite foldl_max_foldr.
  assert (forallb user_ok recs = true) as Hok.
  { apply forallb_forall. intros u Hu%list_elem_of_In.
    apply records_parsed in Hu as (l & Hl & Hu).
    pose proof (file_lines_no_newline (S (String.length content)) 1024 content) as Hnl.
    rewrite Forall_forall in Hnl. apply (parse_user_ok l); [by apply Hnl|done]. }
  split_and!; try done.
  intros Hlt. destruct (foldr_max_le 1000 (user_id <$> recs)) as [Hlo Hle].
  rewrite Forall_forall in Hlt.
  pose proof (proj1 (Forall_forall _ _) Hle) as Hle'. clear Hle.
  assert (foldr Z.max 1000 (user_id <$> recs) < INT_MAX) as Hmax.
  { assert (foldr Z.max 1000 (user_id <$> recs) <= INT_MAX - 1); [|lia].
    apply foldr_max_bound; [unfold INT_MAX; lia|].
    apply Forall_forall. intros x (u & -> & Hu)%list_elem_of_fmap.
    pose proof (Hlt u Hu) as Hu'. cbn beta in Hu'. lia. }
  rewrite wrap_int_id by (unfold in_int, INT_MIN, INT_MAX in *; lia).
  split; [lia|]. apply Forall_forall. intros u Hu.
  pose proof (Hle' (user_id u) (list_elem_of_fmap_2 _ _ _ Hu)) as Hu'.
  cbn beta in Hu'. lia.
Qed.

Lemma sample_users_lines :
  lines_of 1024 sample_users_file = ["1004|Ann|1|222"; "1002"; "1002|Bob|0"].
Proof. by vm_compute. Qed.

Lemma load_users_from_file_lines_witness :
  ∃ s',
    load_users_from_file (Some sample_users_file) empty_store = Some s' ∧
    user_list s' = records parse_user (lines_of 1024 sample_users_file) ∧
    forallb user_ok (user_list s') = true ∧
    next_user_id s' = wrap_int (foldr Z.max 1000 (user_id <$> user_list s') + 1) ∧
    (Forall (λ u, user_id u < INT_MAX) (user_list s') →
     1001 <= next_user_id s' ∧
     Forall (λ u, user_id u < next_user_id s') (user_list s')) ∧
    hash_table s' = hash_table empty_store ∧
    title_bst_root s' = title_bst_root empty_store.
Proof.
  apply (load_users_from_file_lines sample_users_file empty_store).
  - by vm_compute.
  - unfold well_defined. rewrite sample_users_lines.
    repeat (constructor; [by vm_compute|]). constructor.
Defined.

Lemma lookup_book_link p b s key :
  length (hash_table s) = HASH_TABLE_SIZE →
  lookup_book key (link_book p b s) =
  if decide (key = isbn b) then Some b else lookup_book key s.
Proof.
  intros Hlen.
  assert (hash_function (isbn b) < length (hash_table s))%nat as Hlt.
  { rewrite Hlen. apply hash_function_lt. }
  unfold lookup_book, search_book_by_isbn, link_book. cbn [hash_table].
  destruct (decide (key = isbn b)) as [->|Hkey].
  - rewrite bucket_insert, decide_True by done.
    by rewrite chain_find_cons, decide_True.
  - rewrite bucket_insert by done. case_decide as Hh; [|done].
    rewrite chain_find_cons, decide_False by (cbn; congruence).
    rewrite <- Hh, <- option_fmap_compose.
    by destruct (chain_find key _) as [[? ?]|].
Qed.

Lemma link_book_bucketed p b s : bucketed s → bucketed (link_book p b s).
Proof.
  intros Hs index c Hc. unfold link_book in Hc. cbn [hash_table] in Hc.
  apply list_lookup_insert_Some in Hc as [(<- & <- & _)|[_ Hc]]; [|by apply Hs].
  unfold chain_isbns. rewrite fmap_cons. apply Forall_cons. split; [done|].
  pose proof (Hs (hash_function (isbn b))) as Hb. unfold bucket.
  destruct (hash_table s !! hash_function (isbn b)) as [c|]; [by apply Hb|constructor].
Qed.

Lemma link_book_fresh p q b s :
  length (hash_table s) = HASH_TABLE_SIZE →
  q ≠ p → fresh q s → fresh q (link_book p b s).
Proof.
  intros Hlen Hq Hfresh. unfold fresh.
  destruct (link_book_nodes p b s Hlen) as [-> _].
  rewrite fmap_cons. by apply not_elem_of_cons.
Qed.

(** What the reading loop of [load_books_from_file] keeps. *)
Lemma load_books_loop_keeps fuel alloc k (file : string) s s' :
  Inj (=) (=) alloc →
  load_books_loop fuel alloc k file s = Some s' →
  length (hash_table s) = HASH_TABLE_SIZE →
  (∀ j, (k ≤ j)%nat → fresh (alloc j) s) →
  length (hash_table s') = HASH_TABLE_SIZE ∧
  user_list s' = user_list s ∧
  next_user_id s' = next_user_id s ∧
  (bucketed s → bucketed s') ∧
  (NoDup (all_nodes s).*1 → NoDup (all_nodes s').*1) ∧
  (index_sound s → index_sound s').
Proof.
  intros Hinj. revert k file s.
  induction fuel as [|fuel IH]; intros k file s Hl Hlen Hfresh; [done|].
  cbn [load_books_loop] in Hl.
  destruct (fgets 512 file) as [[line rest]|]; [|by simplify_eq].
  destruct (parse_book (chomp line)) as [b| |]; [| |done].
  - destruct (link_book_nodes (alloc k) b s Hlen) as [Hperm Hlen1].
    destruct (IH _ _ _ Hl Hlen1) as (Hlen' & Hu & Hn & Hb & Hnd & Hi).
    { intros j Hj. apply link_book_fresh; [done| |apply Hfresh; lia].
      intros Heq. apply Hinj in Heq. lia. }
    split_and!; [done|by rewrite Hu|by rewrite Hn|..].
    + intros Hs. by apply Hb, link_book_bucketed.
    + intros Hs. apply Hnd. rewrite Hperm, fmap_cons. apply NoDup_cons.
      split; [|done]. by apply Hfresh.
    + intros Hs. apply Hi, link_book_index; [done| |done]. by apply Hfresh.
  - apply (IH _ _ _ Hl Hlen). intros j Hj. apply Hfresh. lia.
Qed.

Lemma last_filter_cons {A} (P : A → Prop) `{!∀ x, Decision (P x)} x (l : list A) :
  last (filter P (x :: l)) =
  match last (filter P l) with
  | Some y => Some y
  | None => if decide (P x) then Some x else None
  end.
Proof.
  rewrite filter_cons. case_decide; [|by destruct (last (filter P l))].
  destruct (filter P l) as [|y l'] eqn:Hf; [done|].
  rewrite last_cons. by destruct (last (y :: l')).
Qed.

(** What the reading loop of [load_books_from_file] adds. *)
Lemma load_books_loop_lines fuel alloc k (file : string) s :
  (String.length file < fuel)%nat →
  length (hash_table s) = HASH_TABLE_SIZE →
  well_defined parse_book (file_lines fuel 512 file) →
  ∃ s',
    load_books_loop fuel alloc k file s = Some s' ∧
    all_books s' ≡ₚ records parse_book (file_lines fuel 512 file) ++ all_books s ∧
    ∀ key,
      lookup_book key s' =
      match last (filter (λ b, isbn b = key)
                    (records parse_book (file_lines fuel 512 file))) with
      | Some b => Some b
      | None => lookup_book key s
      end.
Proof.
  revert k file s. induction fuel as [|fuel IH]; intros k file s Hfuel Hlen Hdef; [lia|].
  cbn [load_books_loop file_lines] in *.
  destruct (fgets 512 file) as [[line rest]|] eqn:Hf.
  2: { exists s. by split_and!. }
  pose proof (fgets_shorter 512 _ _ _ ltac:(lia) Hf) as Hshort.
  apply Forall_cons in Hdef as [Hline Hdef]. rewrite records_cons.
  destruct (parse_book (chomp line)) as [b| |] eqn:Hb; [| |done].
  - destruct (link_book_nodes (alloc k) b s Hlen) as [Hperm1 Hlen1].
    destruct (IH (S k) rest (link_book (alloc k) b s)) as (s' & -> & Hperm & Hlook);
      [lia|done|done|].
    exists s'. split; [done|]. split.
    + assert (all_books (link_book (alloc k) b s) ≡ₚ b :: all_books s) as Hab.
      { unfold all_books. by rewrite Hperm1, fmap_cons. }
      rewrite Hperm, Hab. cbn [app]. by rewrite <- Permutation_middle.
    + intros key. cbn [app]. rewrite last_filter_cons, Hlook.
      destruct (last (filter _ _)); [done|].
      rewrite lookup_book_link by done. by repeat case_decide.
  - destruct (IH (S k) rest s) as (s' & -> & Hperm & Hlook); [lia|done|done|].
    by exists s'.
Qed.

Lemma lookup_book_empty_store key : lookup_book key empty_store = None.
Proof.
  unfold lookup_book, search_book_by_isbn, bucket, empty_store. cbn [hash_table].
  destruct (replicate HASH_TABLE_SIZE [] !! hash_function key) as [c|] eqn:Hc; [|done].
  by apply lookup_replicate in Hc as [-> _].
Qed.

Lemma all_nodes_empty_store : all_nodes empty_store = [].
Proof. by vm_compute. Qed.

(** X17. For a books file without a NUL byte, as long as no line drives the
    parser out of defined behaviour (a field too long for its buffer, a
    number that an [int] cannot hold) and [malloc] never returns a live
    address twice, [load_books_from_file] on the empty store returns; the
    stored books are exactly the records of the lines that have their six
    fields, a line that lacks one being skipped; every field of a loaded book
    is non-empty, free of [|] and fits its buffer; ISBNs are not checked, so
    an ISBN that comes on several lines is stored several times and search
    finds the record of the last of them; each book is in the bucket of its
    hash, and [list_all_books] prints every loaded book once, ordered by
    title; users and [next_user_id] are not touched. *)
Theorem load_books_from_file_lines (alloc : nat → addr) (content : string) :
  Inj (=) (=) alloc →
  all_chars (not_char nul) content = true →
  well_defined parse_book (lines_of 512 content) →
  ∃ s',
    load_books_from_file alloc (Some content) empty_store = Some s' ∧
    all_books s' ≡ₚ records parse_book (lines_of 512 content) ∧
    forallb book_ok (all_books s') = true ∧
    (∀ key, lookup_book key s' =
            last (filter (λ b, isbn b = key) (records parse_book (lines_of 512 content)))) ∧
    length (hash_table s') = HASH_TABLE_SIZE ∧
    bucketed s' ∧
    (∃ books, list_all_books s' = Some books ∧
              books ≡ₚ all_books s' ∧ StronglySorted title_le books) ∧
    user_list s' = user_list empty_store ∧
    next_user_id s' = next_user_id empty_store.
Proof.
  intros Hinj _ Hdef. unfold load_books_from_file, lines_of in *.
  pose proof placed_empty_store as [Hlen0 Hplaced0].
  destruct (load_books_loop_lines (S (String.length content)) alloc 0 content empty_store)
    as (s' & Hload & Hperm & Hlook); [lia|done|done|].
  destruct (load_books_loop_keeps _ _ _ _ _ _ Hinj Hload Hlen0)
    as (Hlen & Hu & Hn & Hb & Hnd & Hi).
  { intros j _. unfold fresh. rewrite all_nodes_empty_store. apply not_elem_of_nil. }
  rewrite all_books_empty_store, app_nil_r in Hperm.
  exists s'. split_and!; try done.
  - apply forallb_forall. intros b Hb'%list_elem_of_In. rewrite Hperm in Hb'.
    apply records_parsed in Hb' as (l & Hl & Hb').
    pose proof (file_lines_no_newline (S (String.length content)) 512 content) as Hnl.
    rewrite Forall_forall in Hnl. apply (parse_book_ok l); [by apply Hnl|done].
  - intros key. rewrite Hlook, lookup_book_empty_store. by destruct (last _).
  - apply Hb. intros index c Hc. by apply Hplaced0.
  - apply index_sound_list.
    + apply Hnd. rewrite all_nodes_empty_store. apply NoDup_nil_2.
    + apply Hi, index_sound_empty_store.
Qed.

Lemma sample_books_lines :
  lines_of 512 sample_books_file =
  ["111|Go|A|Tech|1|0"; "oops"; "222|Ada|B|Tech|0|3"; "111|Go 2|A|Tech|1|5"].
Proof. by vm_compute. Qed.

Lemma sample_alloc_inj : Inj (=) (=) sample_alloc.
Proof. intros x y. unfold sample_alloc. lia. Qed.

Lemma load_books_from_file_lines_witness :
  ∃ s',
    load_books_from_file sample_alloc (Some sample_books_file) empty_store = Some s' ∧
    all_books s' ≡ₚ records parse_book (lines_of 512 sample_books_file) ∧
    forallb book_ok (all_books s') = true ∧
    (∀ key, lookup_book key s' =
            last (filter (λ b, isbn b = key)
                    (records parse_book (lines_of 512 sample_books_file)))) ∧
    length (hash_table s') = HASH_TABLE_SIZE ∧
    bucketed s' ∧
    (∃ books, list_all_books s' = Some books ∧
              books ≡ₚ all_books s' ∧ StronglySorted title_le books) ∧
    user_list s' = user_list empty_store ∧
    next_user_id s' = next_user_id empty_store.
Proof.
  apply (load_books_from_file_lines sample_alloc sample_books_file).
  - apply sample_alloc_inj.
  - by vm_compute.
  - unfold well_defined. rewrite sample_books_lines.
    repeat (constructor; [by vm_compute|]). constructor.
Defined.

(** ** The store after a restart *)

Lemma chain_sublist (tbl : list chain) index c :
  tbl !! index = Some c → c `sublist_of` concat tbl.
Proof.
  revert index. induction tbl as [|c0 tbl IH]; intros index Hc; [done|].
  destruct index as [|index]; simplify_eq/=.
  - by apply sublist_inserts_r.
  - apply sublist_inserts_l. by eapply IH.
Qed.

Lemma bucketed_placed s :
  length (hash_table s) = HASH_TABLE_SIZE → bucketed s →
  NoDup (isbn <$> all_books s) → placed s.
Proof.
  intros Hlen Hb Hnd. split; [done|]. intros index c Hc. split; [|by eapply Hb].
  eapply sublist_NoDup; [exact Hnd|].
  unfold all_books, all_nodes, chain_isbns. rewrite <- list_fmap_compose.
  apply fmap_sublist. by eapply chain_sublist.
Qed.

Lemma placed_lookup_perm s s' :
  placed s → placed s' → all_books s' ≡ₚ all_books s →
  ∀ key, lookup_book key s' = lookup_book key s.
Proof.
  intros Hp Hp' Hperm key.
  destruct (lookup_book key s') as [b'|] eqn:Hb'.
  - apply (lookup_book_stored s' key b' Hp') in Hb'. rewrite Hperm in Hb'.
    symmetry. by apply (lookup_book_stored s key b' Hp).
  - destruct (lookup_book key s) as [b|] eqn:Hb; [|done].
    apply (lookup_book_stored s key b Hp) in Hb. rewrite <- Hperm in Hb.
    apply (lookup_book_stored s' key b Hp') in Hb. congruence.
Qed.

(** X18. Saving a store whose fields the text format carries and loading
    the two files into the empty store, with [malloc] never returning a live
    address twice, gives a store in which the table is again well shaped,
    every ISBN finds the book it found before, [list_all_books] prints every
    book once in title order (whatever state the title index was in before),
    the users are as before, and [next_user_id] is one more than the largest
    of 1000 and the identifiers of the saved users. *)
Theorem reload_well_shaped (alloc : nat → addr) (s : State) :
  Inj (=) (=) alloc →
  storable s → placed s →
  ∃ s',
    save_and_reload alloc s = Some s' ∧
    placed s' ∧
    (∀ key, lookup_book key s' = lookup_book key s) ∧
    (∃ books, list_all_books s' = Some books ∧
              books ≡ₚ all_books s ∧ StronglySorted title_le books) ∧
    user_list s' = user_list s ∧
    next_user_id s' = wrap_int (foldr Z.max 1000 (user_id <$> user_list s) + 1).
Proof.
  intros Hinj [Hbooks Husers] Hp.
  unfold save_and_reload, load_books_from_file, save_books_to_file.
  pose proof placed_empty_store as [Hlen0 Hplaced0].
  destruct (load_books_loop_saved alloc (all_nodes s)
              (S (String.length (foldr (λ n file, book_line n.2 +:+ file) ""
                                   (all_nodes s)))) 0 empty_store)
    as (s1 & Hload & Hperm & _); [done| |done|].
  { pose proof (books_file_length (all_nodes s)). lia. }
  rewrite Hload. cbn [mbind option_bind].
  rewrite all_books_empty_store, app_nil_r in Hperm.
  change ((all_nodes s).*2) with (all_books s) in Hperm.
  destruct (load_books_loop_keeps _ _ _ _ _ _ Hinj Hload Hlen0)
    as (Hlen & _ & _ & Hb & Hnd & Hi).
  { intros j _. unfold fresh. rewrite all_nodes_empty_store. apply not_elem_of_nil. }
  assert (bucketed s1) as Hb1.
  { apply Hb. intros index c Hc. by apply Hplaced0. }
  assert (NoDup (all_nodes s1).*1) as Hnd1.
  { apply Hnd. rewrite all_nodes_empty_store. apply NoDup_nil_2. }
  pose proof (Hi index_sound_empty_store) as Hi1. clear Hb Hnd Hi.
  destruct (load_users_saved s s1 Husers) as (s' & Hloadu & Hu & Htbl & Htree).
  rewrite Hloadu. exists s'. split; [done|].
  assert (all_books s' = all_books s1) as Hall.
  { unfold all_books, all_nodes. by rewrite Htbl. }
  assert (placed s') as Hp'.
  { apply bucketed_placed.
    - by rewrite Htbl.
    - intros index c. rewrite Htbl. apply Hb1.
    - rewrite Hall, Hperm. by apply placed_isbns_distinct. }
  split_and!; [done| | |done|].
  - apply placed_lookup_perm; [done..|]. by rewrite Hall.
  - destruct (index_sound_list s') as (books & Hlist & Hpb & Hsorted).
    + unfold all_nodes. by rewrite Htbl.
    + destruct Hi1 as (root & Hroot & Hpr & Hord). exists root.
      unfold all_nodes. rewrite Htbl, Htree. done.
    + exists books. split_and!; [done| |done]. by rewrite Hpb, Hall.
  - unfold load_users_from_file in Hloadu.
    destruct (load_users_loop _ _ _ _) as [[temp mx]|] eqn:Hloop; [|done].
    cbn in Hloadu. injection Hloadu as <-. cbn [user_list next_user_id] in *.
    apply load_users_loop_max in Hloop as (new & -> & ->).
    rewrite app_nil_r in Hu. change (rev_append ?l []) with (reverse l) in Hu.
    rewrite reverse_involutive in Hu. subst new. by rewrite foldl_max_foldr.
Qed.

Lemma reload_well_shaped_witness :
  ∃ s',
    save_and_reload sample_alloc loan_store = Some s' ∧
    placed s' ∧
    (∀ key, lookup_book key s' = lookup_book key loan_store) ∧
    (∃ books, list_all_books s' = Some books ∧
              books ≡ₚ all_books loan_store ∧ StronglySorted title_le books) ∧
    user_list s' = user_list loan_store ∧
    next_user_id s' =
      wrap_int (foldr Z.max 1000 (user_id <$> user_list loan_store) + 1).
Proof.
  apply (reload_well_shaped sample_alloc loan_store).
  - apply sample_alloc_inj.
  - split; by vm_compute.
  - apply reachable_invariant, loan_store_reachable.
Defined.

(** ** The title index after a removal *)

Lemma inorder_traversal_dead tbl root q :
  q ∈ inorder root → deref tbl q = None → inorder_traversal tbl root = None.
Proof.
  induction root as [|p l IHl r IHr]; intros Hq Hdead; [by apply elem_of_nil in Hq|].
  cbn [inorder inorder_traversal] in *.
  apply elem_of_app in Hq as [Hq|[->|Hq]%elem_of_cons].
  - by rewrite IHl.
  - destruct (inorder_traversal tbl l); [|done]. cbn. by rewrite Hdead.
  - destruct (inorder_traversal tbl l); [|done]. cbn.
    destruct (deref tbl p); [|done]. cbn. by rewrite IHr.
Qed.

(** X19. After a run from the empty store that never called [remove_book],
    a successful [remove_book] leaves in the title index a node whose
    book has been freed, and the next [list_all_books] reads that freed
    record. *)
Theorem removal_breaks_listing (ops : list Op) (s : State) (key : string) :
  run ops empty_store = Some s →
  forallb keeps_books ops = true →
  (remove_book key s).1 = Success →
  (∃ root p,
     title_bst_root (remove_book key s).2 = Some root ∧
     p ∈ inorder root ∧
     deref (hash_table (remove_book key s).2) p = None) ∧
  list_all_books (remove_book key s).2 = None.
Proof.
  intros Hr Hk Hok.
  assert (reachable s) as Hreach by (by exists ops).
  pose proof (reachable_addrs s Hreach) as Hnd.
  assert (index_sound s) as (root & Hroot & Hperm & _).
  { eapply index_run; [done|done| |apply index_sound_empty_store].
    split; [apply placed_empty_store|apply consistent_empty_store]. }
  unfold remove_book in *.
  destruct (chain_find key (bucket (hash_table s) (hash_function key)))
    as [[k [p b]]|] eqn:Hf; [|done].
  destruct (available b =? 0); [done|].
  cbn [snd hash_table title_bst_root].
  apply chain_find_Some in Hf as [Hk' _].
  pose proof (concat_insert_delete _ _ _ _ Hk') as Hdel.
  set (tbl := <[hash_function key := delete k (bucket (hash_table s) (hash_function key))]>
                (hash_table s)) in *.
  assert (p ∈ inorder root) as Hp.
  { rewrite Hperm. unfold all_nodes. rewrite <- Hdel, fmap_cons. apply list_elem_of_here. }
  assert (deref tbl p = None) as Hdead.
  { destruct (deref tbl p) as [b'|] eqn:Hd; [|done]. exfalso.
    assert (is_Some (deref tbl p)) as Hsome%deref_is_Some by (by rewrite Hd).
    unfold all_nodes in Hnd. rewrite <- Hdel, fmap_cons in Hnd.
    by apply NoDup_cons in Hnd as [? _]. }
  split.
  - by exists root, p.
  - unfold list_all_books. cbn [title_bst_root hash_table]. rewrite Hroot. cbn.
    by apply (inorder_traversal_dead _ _ p).
Qed.

Lemma removal_breaks_listing_witness :
  (∃ root p,
     title_bst_root (remove_book "111" shelf_store).2 = Some root ∧
     p ∈ inorder root ∧
     deref (hash_table (remove_book "111" shelf_store).2) p = None) ∧
  list_all_books (remove_book "111" shelf_store).2 = None.
Proof.
  apply (removal_breaks_listing shelf_ops shelf_store "111").
  - by vm_compute.
  - by vm_compute.
  - by vm_compute.
Defined.

(** ** Loans are protected *)

Lemma list_find_key_unique {A B} `{EqDecision B} (f : A → B) (l : list A) k x :
  NoDup (f <$> l) → l !! k = Some x →
  list_find (λ y, f y = f x) l = Some (k, x).
Proof.
  revert k. induction l as [|m l IH]; intros k Hnd Hk; [done|].
  rewrite fmap_cons in Hnd. apply NoDup_cons in Hnd as [Hm Hnd].
  rewrite list_find_key_cons. destruct k as [|k]; simplify_eq/=.
  - by rewrite decide_True.
  - rewrite decide_False.
    + by rewrite (IH k).
    + intros Heq. apply Hm. rewrite Heq. apply list_elem_of_fmap_2.
      by eapply list_elem_of_lookup_2.
Qed.

(** X20. After a run from the empty store that registers no more users than
    [next_user_id] can count, a book that stands in some user's borrowed list
    cannot be removed, that user cannot be removed, and the user can return
    the book: [remove_book] answers that the book is borrowed and
    [remove_user] that the user has borrowed books, both leaving the store
    as it is, and [return_book] succeeds. *)
Theorem loans_protected (ops : list Op) (s : State) (u : User) (key : string) :
  run ops empty_store = Some s →
  1001 + Z.of_nat (registrations ops) <= INT_MAX →
  u ∈ user_list s → key ∈ borrowed_books u →
  remove_book key s = (BookBorrowed, s) ∧
  remove_user (user_id u) s = (HasBorrowedBooks, s) ∧
  (return_book (user_id u) key s).1 = Success.
Proof.
  intros Hr Hmax Hu Hkey.
  assert (reachable s) as Hreach by (by exists ops).
  pose proof (reachable_invariant s Hreach) as [Hp Hc].
  destruct (user_ids_run ops empty_store s Hr) as (_ & Hnd & _); try done.
  { apply NoDup_nil_2. }
  apply list_elem_of_lookup_1 in Hu as [ui Hui].
  assert (find_user (user_id u) s = Some (ui, u)) as Hfind.
  { unfold find_user. by apply list_find_key_unique. }
  assert (0 < occurrences key (loans s))%nat as Hocc.
  { pose proof (occurrences_user key ui u (user_list s) Hui) as Hle.
    apply occurrences_elem in Hkey. unfold loans. lia. }
  specialize (Hc key). unfold lookup_book in Hc.
  destruct (search_book_by_isbn key s) as [[bi [p b]]|] eqn:Hb; cbn in Hc; [|lia].
  assert (available b = 0) as Ha by lia.
  split_and!.
  - unfold remove_book. unfold search_book_by_isbn in Hb. rewrite Hb, Ha. done.
  - unfold remove_user. rewrite Hfind. rewrite decide_True; [done|].
    unfold borrowed_count. destruct (borrowed_books u); [by apply elem_of_nil in Hkey|].
    cbn. lia.
  - unfold return_book. rewrite Hfind, Hb.
    destruct (found_idx key (borrowed_books u)) as [idx|] eqn:Hidx; [done|].
    by apply found_idx_None in Hidx.
Qed.

Lemma loans_protected_witness :
  remove_book "111" loan_store = (BookBorrowed, loan_store) ∧
  remove_user (user_id (mkUser 1001 "Ann" ["111"])) loan_store
    = (HasBorrowedBooks, loan_store) ∧
  (return_book (user_id (mkUser 1001 "Ann" ["111"])) "111" loan_store).1 = Success.
Proof.
  apply (loans_protected loan_ops loan_store (mkUser 1001 "Ann" ["111"]) "111").
  - by vm_compute.
  - by vm_compute.
  - vm_compute. apply list_elem_of_here.
  - apply list_elem_of_here.
Defined.

(** X21. After a run from the empty store that leaves room for one more
    identifier, [add_user] gives the new user the identifier
    [next_user_id], which no listed user has; the new user is then found
    under it with an empty borrowed list, every other identifier finds the
    user it found before, [next_user_id] goes up by one, and the table and
    the title index are not touched. *)
Theorem add_user_then_find (ops : list Op) (s : State) (n : string) :
  run ops empty_store = Some s →
  1001 + Z.of_nat (registrations ops) < INT_MAX →
  find_user (next_user_id s) s = None ∧
  find_user (next_user_id s) (add_user n s)
    = Some (0%nat, mkUser (next_user_id s) n []) ∧
  (∀ uid, uid ≠ next_user_id s →
     snd <$> find_user uid (add_user n s) = snd <$> find_user uid s) ∧
  next_user_id (add_user n s) = next_user_id s + 1 ∧
  hash_table (add_user n s) = hash_table s ∧
  title_bst_root (add_user n s) = title_bst_root s.
Proof.
  intros Hr Hmax.
  destruct (user_ids_run ops empty_store s Hr) as (Hnext & _ & Hall); try done.
  { cbn [next_user_id empty_store]. lia. }
  { apply NoDup_nil_2. }
  cbn [next_user_id empty_store] in Hnext.
  split_and!; try done.
  - unfold find_user. apply list_find_key_None.
    intros (u & Hu & Hin)%list_elem_of_fmap. rewrite Forall_forall in Hall.
    specialize (Hall u Hin). lia.
  - unfold find_user, add_user. cbn [user_list].
    by rewrite list_find_key_cons, decide_True.
  - intros uid Huid. unfold find_user, add_user. cbn [user_list].
    rewrite list_find_key_cons, decide_False by (cbn; congruence).
    rewrite <- option_fmap_compose. by destruct (list_find _ _) as [[? ?]|].
  - unfold add_user. cbn [next_user_id]. apply wrap_int_id.
    unfold in_int, INT_MIN, INT_MAX in *. lia.
Qed.

Lemma add_user_then_find_witness :
  find_user (next_user_id loan_store) loan_store = None ∧
  find_user (next_user_id loan_store) (add_user "Bob" loan_store)
    = Some (0%nat, mkUser (next_user_id loan_store) "Bob" []) ∧
  (∀ uid, uid ≠ next_user_id loan_store →
     snd <$> find_user uid (add_user "Bob" loan_store) = snd <$> find_user uid loan_store) ∧
  next_user_id (add_user "Bob" loan_store) = next_user_id loan_store + 1 ∧
  hash_table (add_user "Bob" loan_store) = hash_table loan_store ∧
  title_bst_root (add_user "Bob" loan_store) = title_bst_root loan_store.
Proof.
  apply (add_user_then_find loan_ops loan_store "Bob").
  - by vm_compute.
  - by vm_compute.
Defined.

(** ** Ties in the ranking reports *)

Section ExchangeSortStable.
Context {A : Type} (key : A → Z).

Lemma pass_by_stable (v : Z) k (l : list A) :
  filter (λ x, key x = v) (pass_by key k l) = filter (λ x, key x = v) l.
Proof.
  revert l. induction k as [|k IH]; intros l; [done|].
  destruct l as [|x [|y t]]; [by rewrite pass_by_short by (cbn; lia)..|].
  rewrite pass_by_S. destruct (key x <? key y) eqn:Hxy.
  - apply Z.ltb_lt in Hxy. rewrite (filter_cons _ y), IH, !filter_cons.
    repeat case_decide; try done; lia.
  - by rewrite (filter_cons _ x), IH, !filter_cons.
Qed.

Lemma sort_by_stable (v : Z) (l : list A) :
  filter (λ x, key x = v) (sort_by key l) = filter (λ x, key x = v) l.
Proof.
  unfold sort_by. generalize (length l) at 1 as n.
  induction (seq 0 (length l - 1)) as [|i js IH] using rev_ind; intros n; [done|].
  rewrite foldl_app. cbn [foldl]. by rewrite pass_by_stable, IH.
Qed.

End ExchangeSortStable.

Lemma filter_take_prefix {A} (P : A → Prop) `{!∀ x, Decision (P x)} n (l : list A) :
  filter P (take n l) `prefix_of` filter P l.
Proof.
  exists (filter P (drop n l)). by rewrite <- filter_app, take_drop.
Qed.

(** X22. Both ranking reports keep ties in the order in which the records
    were collected. Among the books that [list_most_borrowed_books] shows,
    those with one and the same borrow count stand in table order and are
    the first such books of the table; among the users that
    [list_active_users] shows, those who hold the same number of books stand
    in list order. *)
Theorem reports_keep_ties_in_order (s : State) (v : Z) :
  filter (λ b, borrow_count b = v) (list_most_borrowed_books s)
    `prefix_of` filter (λ b, borrow_count b = v) (take MAX_BOOKS (all_books s)) ∧
  filter (λ u, Z.of_nat (borrowed_count u) = v) (list_active_users s)
    = filter (λ u, Z.of_nat (borrowed_count u) = v)
        (take MAX_USERS (filter (λ u, (0 < borrowed_count u)%nat) (user_list s))).
Proof.
  split.
  - unfold list_most_borrowed_books. rewrite collect_books_take.
    fold (all_nodes s). fold (all_books s).
    destruct (take MAX_BOOKS (all_books s)) as [|b0 books] eqn:Hcollect; [done|].
    set (all := b0 :: books). cbn zeta.
    rewrite list_filter_filter.
    destruct (decide (0 < v)) as [Hv|Hv].
    + rewrite (list_filter_iff _ (λ b, borrow_count b = v)).
      2: { intros b. split; [by intros [? _]|]. intros Hb. split; [done|lia]. }
      assert (filter (λ b, borrow_count b = v) all
              = filter (λ b, borrow_count b = v) (bubble_sort all)) as ->.
      { symmetry. apply (sort_by_stable borrow_count). }
      apply filter_take_prefix.
    + rewrite (list_filter_iff _ (λ _, False)).
      2: { intros b. split; [|done]. intros [? ?]. lia. }
      assert (∀ l : list Book, filter (λ _, False) l = []) as ->.
      { induction l as [|x l IH]; [done|]. by rewrite filter_cons_False by tauto. }
      apply prefix_nil.
  - unfold list_active_users. rewrite sort_by_stable.
    by rewrite collect_active_take by (cbn; lia).
Qed.
